(** * ShitWatch UK: event tracker, threshold queue and post scheduler

    A shallow embedding of the event lifecycle code:
    - [EventQueue]   (scheduler/event-queue.js),
    - [EventTracker] (monitor/event-tracker.js: parseCSVLine, parseFeature,
      processFeatures, generateDischargeSummary, checkAPI),
    - [EventDatabase] (database/db.js: upsertEvent, getEvent and the
      queries),
    - [PostScheduler] in its two versions (scheduler/post-scheduler.js, the
      interval scheduler with [start] and its timer, and the fixed-schedule
      scheduler with its posting times),
    - the text and list helpers of the publishing path: formatDuration,
      [TwitterPoster.tweet], [CycleGenerator.updateManifest] and the
      longest event of [AISummarizer],
    followed by the properties of the specification that hold of it and by
    further properties of the code.

    Conventions of the embedding.
    - Timestamps are JavaScript numbers holding milliseconds since the epoch;
      they are integers in the range where doubles are exact, and are modelled
      as [Z].  [null] and [undefined] are [None].
    - The attributes of a feature have the types the feeds give them: [Id]
      and the names are strings, [Status] and the dates are numbers.
    - Strings are ASCII text.
    - A JavaScript [Map] iterates in insertion order, and [Map.set] on a key
      that is present keeps its position: [JsMap] is an association list with
      exactly that behaviour.  A JavaScript [Set] of strings is a [gset].
    - Wall-clock reads ([Date.now()], [new Date()]) are arguments [now]; the
      reads made during one call of [processFeatures] are one instant.  In
      the code [upsertEvent] and [addEvent] read the clock again for the
      stamps [lastUpdated] and [addedToQueue] of what they write, so that
      these two stamps are the instant of the call or later.
    - Console output and the historical site mapping, which is only printed,
      are not modelled.  The collaborators of the scheduler are given by
      their outcomes. *)

From stdpp Require Import base list gmap strings sorting.
From Stdlib Require Import ZArith Lia Ascii DecimalString QArith.

Local Open Scope Z_scope.
#[local] Set Warnings "-clear-no-such-hyp".

(** ** JavaScript primitives used by the code *)

(** Truthiness of a value that is a number or absent ([x || y], [!x]):
    [null], [undefined] and [0] are falsy. *)
Definition truthy_num (x : option Z) : bool :=
  match x with
  | Some n => negb (n =? 0)
  | None => false
  end.

(** Truthiness of a value that is a string or absent: the empty string is
    falsy. *)
Definition truthy_str (x : option string) : bool :=
  match x with
  | Some s => negb (bool_decide (s = ""))
  | None => false
  end.

(** [a || b] on numbers-or-absent and on strings-or-absent. *)
Definition or_num (a b : option Z) : option Z :=
  if truthy_num a then a else b.

Definition or_str (a b : option string) : option string :=
  if truthy_str a then a else b.

(** [x < n] where [x] is a number or [null] ([null] converts to [+0]). *)
Definition js_lt (x : option Z) (n : Z) : bool :=
  match x with
  | Some v => v <? n
  | None => 0 <? n
  end.

(** [Math.round(n / d)] for an integer [n] and a positive integer [d]:
    [Math.round] rounds to the nearest integer, halves towards +infinity,
    that is [floor (n/d + 1/2)].  At the magnitudes of epoch timestamps the
    double [n / d] lies on the same side of every half-integer as the exact
    quotient, so the integer formula gives the value that the code
    computes. *)
Definition Math_round_div (n d : Z) : Z := (2 * n + d) `div` (2 * d).

(** [new Date(t).getTime()] for [t] a number of milliseconds or [null]
    ([new Date(null)] is the epoch). *)
Definition getTime (t : option Z) : Z :=
  match t with
  | Some v => v
  | None => 0
  end.

(** [Array.prototype.sort(cmp)].  ECMAScript requires the sort to be stable;
    with a consistent comparator the result is then determined, so a stable
    insertion sort computes it: [a] stays in front of [b] unless
    [cmp a b > 0]. *)
Section Array_sort.
Context {A : Type} (cmp : A → A → Z).

Fixpoint sort_insert (x : A) (l : list A) : list A :=
  match l with
  | [] => [x]
  | y :: l' => if cmp y x <? 0 then y :: sort_insert x l' else x :: y :: l'
  end.

Definition Array_sort (l : list A) : list A := foldr sort_insert [] l.
End Array_sort.

(** [s.toLowerCase()] on ASCII text (bytes outside A-Z are kept). *)
Definition lower_ascii (c : ascii) : ascii :=
  let n := nat_of_ascii c in
  if ((65 <=? n) && (n <=? 90))%nat then ascii_of_nat (n + 32) else c.

Fixpoint toLowerCase (s : string) : string :=
  match s with
  | EmptyString => EmptyString
  | String c s' => String (lower_ascii c) (toLowerCase s')
  end.

(** [s.replace(/\s+/g, '_')]: every maximal run of white space becomes one
    underscore.  [in_run] tells that the previous character was white space. *)
Fixpoint replace_spaces_go (in_run : bool) (s : string) : string :=
  match s with
  | EmptyString => EmptyString
  | String c s' =>
      if Ascii.is_space c
      then (if in_run then replace_spaces_go true s'
            else String "_"%char (replace_spaces_go true s'))
      else String c (replace_spaces_go false s')
  end.

Definition replace_spaces (s : string) : string := replace_spaces_go false s.

(** [key.startsWith(p)]. *)
Definition startsWith (key p : string) : bool := String.prefix p key.

(** ** Insertion-ordered maps keyed by strings *)

Module JsMap.
Section ops.
Context {V : Type}.

Fixpoint get (k : string) (m : list (string * V)) : option V :=
  match m with
  | [] => None
  | (k', v) :: m' => if decide (k = k') then Some v else get k m'
  end.

Definition has (k : string) (m : list (string * V)) : bool :=
  match get k m with Some _ => true | None => false end.

(** [m.set(k, v)]: overwrite in place, or append. *)
Fixpoint set (k : string) (v : V) (m : list (string * V)) : list (string * V) :=
  match m with
  | [] => [(k, v)]
  | (k', v') :: m' =>
      if decide (k = k') then (k, v) :: m' else (k', v') :: set k v m'
  end.

(** [m.delete(k)]. *)
Fixpoint delete (k : string) (m : list (string * V)) : list (string * V) :=
  match m with
  | [] => []
  | (k', v') :: m' =>
      if decide (k = k') then m' else (k', v') :: delete k m'
  end.

Definition keys (m : list (string * V)) : list string := m.*1.
Definition values (m : list (string * V)) : list V := m.*2.

(** A [Map] holds each key once. *)
Definition wf (m : list (string * V)) : Prop := NoDup (keys m).
End ops.
End JsMap.

(** ** A small state monad *)

(** Methods that read and update an object are state transformers; they are
    sequenced with stdpp's monad notation [x ← m; k]. *)
Definition State (S A : Type) : Type := S → A * S.

Global Instance State_ret {S} : MRet (State S) := λ A a s, (a, s).

Global Instance State_bind {S} : MBind (State S) :=
  λ A B f m s, let '(a, s') := m s in f a s'.

Definition exec {S A} (m : State S A) (s : S) : S := (m s).2.
Definition eval {S A} (m : State S A) (s : S) : A := (m s).1.

(** ** Events *)

(** The attributes of a feature that [parseFeature] reads.  Coordinates are
    only ever copied; they are kept as integers (micro-degrees). *)
Record Attributes := {
  Id : option string;
  SiteName : option string;
  PermitName : option string;
  LocationName : option string;
  Name : option string;
  Status : option Z;
  StatusStart : option Z;
  LatestEventStart : option Z;
  LatestEventEnd : option Z;
  ReceivingWaterCourse : option string;
  Latitude : option Z;
  Longitude : option Z
}.

Record Feature := { attributes : Attributes }.

Inductive EventStatus := active | completed.

Record Event := {
  id : string;
  waterCompany : string;
  siteId : string;
  siteName : option string;
  latitude : option Z;
  longitude : option Z;
  startTime : Z;
  endTime : option Z;
  durationMinutes : option Z;
  status : EventStatus;
  receivingWatercourse : option string;
  rawData : Attributes
}.

(** ** EventQueue (scheduler/event-queue.js) *)

(** An entry of the queue is the object [{...event, addedToQueue}]; the ISO
    string of [addedToQueue] is kept as the instant it renders. *)
Record QueueEntry := {
  entry_event : Event;
  addedToQueue : Z
}.

Record EventQueue := {
  events : list (string * QueueEntry);
  postedEvents : gset string;
  minDurationMinutes : Z
}.

(** [new EventQueue()]. *)
Definition EventQueue_new : EventQueue :=
  {| events := []; postedEvents := ∅; minDurationMinutes := 600 |}.

Definition addEvent (event : Event) (now : Z) : State EventQueue bool :=
  λ q,
    if js_lt (durationMinutes event) (minDurationMinutes q) then (false, q)
    else if bool_decide (id event ∈ postedEvents q) then (false, q)
    else (true,
          {| events := JsMap.set (id event)
                         {| entry_event := event; addedToQueue := now |}
                         (events q);
             postedEvents := postedEvents q;
             minDurationMinutes := minDurationMinutes q |}).

(** The two guards of [addEvent] together. *)
Definition refused (e : Event) (q : EventQueue) : bool :=
  js_lt (durationMinutes e) (minDurationMinutes q)
  || bool_decide (id e ∈ postedEvents q).

(** The comparator of [getPostableEvents]: [timeB - timeA]. *)
Definition byEndTimeDesc (a b : QueueEntry) : Z :=
  getTime (endTime (entry_event b)) - getTime (endTime (entry_event a)).

(** The time by which [getPostableEvents] orders, and the order it aims
    at: most recently ended first. *)
Definition endMillis (e : QueueEntry) : Z := getTime (endTime (entry_event e)).

Definition newestFirst (a b : QueueEntry) : Prop := endMillis b ≤ endMillis a.

(** The entries that [getPostableEvents] keeps, in the order of the map. *)
Definition unposted (q : EventQueue) : list QueueEntry :=
  filter (λ e, id (entry_event e) ∉ postedEvents q) (JsMap.values (events q)).

Definition getPostableEvents : State EventQueue (list QueueEntry) :=
  λ q, (Array_sort byEndTimeDesc (unposted q), q).

Definition markAsPosted (eventId : string) : State EventQueue unit :=
  λ q,
    (tt, {| events := events q;
            postedEvents := {[eventId]} ∪ postedEvents q;
            minDurationMinutes := minDurationMinutes q |}).

Definition sevenDays : Z := 7 * 24 * 60 * 60 * 1000.

Definition cleanup (now : Z) : State EventQueue unit :=
  λ q,
    let sevenDaysAgo := now - sevenDays in
    (tt, {| events :=
              filter (λ kv, ¬ (getTime (endTime (entry_event kv.2)) < sevenDaysAgo))
                     (events q);
            postedEvents := postedEvents q;
            minDurationMinutes := minDurationMinutes q |}).

(** The entries of the map are stored under the id of their event, each id
    once. *)
Definition queue_ok (q : EventQueue) : Prop :=
  JsMap.wf (events q)
  ∧ Forall (λ kv, id (entry_event kv.2) = kv.1) (events q).

(** The calls a client can make on the queue, and a run of such calls. *)
Inductive QueueCall :=
  | CallAddEvent (event : Event) (now : Z)
  | CallGetPostableEvents
  | CallMarkAsPosted (eventId : string)
  | CallCleanup (now : Z).

Definition call (c : QueueCall) : State EventQueue unit :=
  match c with
  | CallAddEvent event now => addEvent event now;; mret tt
  | CallGetPostableEvents => getPostableEvents;; mret tt
  | CallMarkAsPosted eventId => markAsPosted eventId
  | CallCleanup now => cleanup now
  end.

Fixpoint calls (cs : list QueueCall) : State EventQueue unit :=
  match cs with
  | [] => mret tt
  | c :: cs' => call c;; calls cs'
  end.

(** ** EventDatabase (database/db.js) *)

Record DbRecord := {
  db_id : Z;
  db_waterCompany : string;
  db_siteId : string;
  db_siteName : option string;
  db_latitude : option Z;
  db_longitude : option Z;
  db_startTime : Z;
  db_endTime : option Z;
  db_durationMinutes : option Z;
  db_status : EventStatus;
  db_receivingWatercourse : option string;
  db_lastUpdated : Z;
  db_rawData : Attributes
}.

Record EventDatabase := {
  data_events : list DbRecord;
  nextId : Z
}.

(** The store of a fresh installation: [{ events: [], nextId: 1 }]. *)
Definition EventDatabase_new : EventDatabase :=
  {| data_events := []; nextId := 1 |}.

(** [arr.findIndex(p)], with [None] for [-1]. *)
Fixpoint findIndex {A} (p : A → bool) (l : list A) : option nat :=
  match l with
  | [] => None
  | x :: l' => if p x then Some 0%nat else S <$> findIndex p l'
  end.

(** [x || null]. *)
Definition or_null_num (x : option Z) : option Z := or_num x None.
Definition or_null_str (x : option string) : option string := or_str x None.

Definition upsertEvent (event : Event) (now : Z) : State EventDatabase Z :=
  λ d,
    let existingIndex :=
      findIndex (λ e, bool_decide (db_waterCompany e = waterCompany event
                                   ∧ db_siteId e = siteId event
                                   ∧ db_startTime e = startTime event))
                (data_events d) in
    let existing := existingIndex ≫= λ i, data_events d !! i in
    let eventData := {|
      db_id := match existing with Some e => db_id e | None => nextId d end;
      db_waterCompany := waterCompany event;
      db_siteId := siteId event;
      db_siteName := or_null_str (siteName event);
      db_latitude := or_null_num (latitude event);
      db_longitude := or_null_num (longitude event);
      db_startTime := startTime event;
      db_endTime := or_null_num (endTime event);
      db_durationMinutes := or_null_num (durationMinutes event);
      db_status := status event;
      db_receivingWatercourse := or_null_str (receivingWatercourse event);
      db_lastUpdated := now;
      db_rawData := rawData event |} in
    match existingIndex with
    | Some i =>
        (db_id eventData,
         {| data_events := <[i := eventData]> (data_events d);
            nextId := nextId d |})
    | None =>
        (db_id eventData,
         {| data_events := data_events d ++ [eventData];
            nextId := nextId d + 1 |})
    end.

(** ** EventTracker (monitor/event-tracker.js) *)

Record EventTracker := {
  db : EventDatabase;
  activeEvents : list (string * Event);
  eventQueue : EventQueue
}.

(** [new EventTracker(eventQueue, twitterPoster)]: no active event. *)
Definition EventTracker_new (q : EventQueue) : EventTracker :=
  {| db := EventDatabase_new; activeEvents := []; eventQueue := q |}.

Record Parsed := {
  p_siteId : option string;
  p_siteName : option string;
  p_status : option Z;
  p_statusStart : option Z;
  p_latestEventStart : option Z;
  p_latestEventEnd : option Z;
  p_receivingWatercourse : option string;
  p_latitude : option Z;
  p_longitude : option Z;
  p_rawData : Attributes
}.

Definition parseFeature (feature : Feature) : Parsed :=
  let attrs := attributes feature in
  {| p_siteId := Id attrs;
     p_siteName :=
       or_str (or_str (or_str (or_str (SiteName attrs) (PermitName attrs))
                              (LocationName attrs))
                      (Name attrs))
              None;
     p_status := Status attrs;
     p_statusStart := StatusStart attrs;
     p_latestEventStart := LatestEventStart attrs;
     p_latestEventEnd := LatestEventEnd attrs;
     p_receivingWatercourse := ReceivingWaterCourse attrs;
     p_latitude := Latitude attrs;
     p_longitude := Longitude attrs;
     p_rawData := attrs |}.

(** [waterCompany.toLowerCase().replace(/\s+/g, '_')]. *)
Definition companyKeyOf (waterCompany : string) : string :=
  replace_spaces (toLowerCase waterCompany).

(** The template [`${companyKey}:${siteId}`]. *)
Definition eventKeyOf (companyKey siteId : string) : string :=
  companyKey +:+ ":" +:+ siteId.

(** [statusStart || now]. *)
Definition or_now (statusStart : option Z) (now : Z) : Z :=
  match statusStart with
  | Some t => if t =? 0 then now else t
  | None => now
  end.

(** The object literal built for a site seen discharging for the first
    time. *)
Definition newEvent (waterCompany eventKey sid : string) (parsed : Parsed)
    (now : Z) : Event :=
  let actualStartTime := or_now (p_statusStart parsed) now in
  {| id := eventKey;
     waterCompany := waterCompany;
     siteId := sid;
     siteName := p_siteName parsed;
     latitude := p_latitude parsed;
     longitude := p_longitude parsed;
     startTime := actualStartTime;
     endTime := None;
     durationMinutes := None;
     status := active;
     receivingWatercourse := p_receivingWatercourse parsed;
     rawData := p_rawData parsed |}.

(** The two assignments made to an event that is still discharging. *)
Definition refreshEvent (existingEvent : Event) (parsed : Parsed) : Event :=
  {| id := id existingEvent;
     waterCompany := waterCompany existingEvent;
     siteId := siteId existingEvent;
     siteName := siteName existingEvent;
     latitude := latitude existingEvent;
     longitude := longitude existingEvent;
     startTime := startTime existingEvent;
     endTime := endTime existingEvent;
     durationMinutes := durationMinutes existingEvent;
     status := status existingEvent;
     receivingWatercourse := p_receivingWatercourse parsed;
     rawData := p_rawData parsed |}.

(** The three assignments made to an event that has ended. *)
Definition endEvent (event : Event) (now : Z) : Event :=
  let endTime' := now in
  let durationMinutes' := Math_round_div (endTime' - startTime event) (1000 * 60) in
  {| id := id event;
     waterCompany := waterCompany event;
     siteId := siteId event;
     siteName := siteName event;
     latitude := latitude event;
     longitude := longitude event;
     startTime := startTime event;
     endTime := Some endTime';
     durationMinutes := Some durationMinutes';
     status := completed;
     receivingWatercourse := receivingWatercourse event;
     rawData := rawData event |}.

(** Lifting of the methods of the database and of the queue to the tracker
    that owns them. *)
Definition onDb {A} (m : State EventDatabase A) : State EventTracker A :=
  λ t, let '(a, d) := m (db t) in
       (a, {| db := d; activeEvents := activeEvents t;
              eventQueue := eventQueue t |}).

Definition onQueue {A} (m : State EventQueue A) : State EventTracker A :=
  λ t, let '(a, q) := m (eventQueue t) in
       (a, {| db := db t; activeEvents := activeEvents t; eventQueue := q |}).

Definition onActive (f : list (string * Event) → list (string * Event))
    : State EventTracker unit :=
  λ t, (tt, {| db := db t; activeEvents := f (activeEvents t);
               eventQueue := eventQueue t |}).

Definition getActive {A} (f : list (string * Event) → A)
    : State EventTracker A :=
  λ t, (f (activeEvents t), t).

(** [generateDischargeSummary(event, waterCompany)]: beyond its console
    report, it offers the event to the queue. *)
Definition generateDischargeSummary (event : Event) (now : Z)
    : State EventTracker bool :=
  onQueue (addEvent event now).

(** One iteration of the first loop of [processFeatures].  [activeSiteIds]
    is the local set of the call. *)
Definition processFeature (waterCompany companyKey : string) (now : Z)
    (feature : Feature) (activeSiteIds : gset string)
    : State EventTracker (gset string) :=
  let parsed := parseFeature feature in
  if negb (truthy_str (p_siteId parsed)) then mret activeSiteIds
  else
    match p_siteId parsed with
    | None => mret activeSiteIds
    | Some sid =>
        let isDischarging := bool_decide (p_status parsed = Some 1) in
        if isDischarging then
          let activeSiteIds' := {[sid]} ∪ activeSiteIds in
          let eventKey := eventKeyOf companyKey sid in
          existingEvent ← getActive (JsMap.get eventKey);
          match existingEvent with
          | None =>
              let event := newEvent waterCompany eventKey sid parsed now in
              onDb (upsertEvent event now);;
              onActive (JsMap.set eventKey event);;
              mret activeSiteIds'
          | Some existingEvent =>
              let existingEvent' := refreshEvent existingEvent parsed in
              onActive (JsMap.set eventKey existingEvent');;
              onDb (upsertEvent existingEvent' now);;
              mret activeSiteIds'
          end
        else mret activeSiteIds
    end.

Fixpoint featureLoop (waterCompany companyKey : string) (now : Z)
    (features : list Feature) (activeSiteIds : gset string)
    : State EventTracker (gset string) :=
  match features with
  | [] => mret activeSiteIds
  | feature :: rest =>
      activeSiteIds' ← processFeature waterCompany companyKey now feature
                                       activeSiteIds;
      featureLoop waterCompany companyKey now rest activeSiteIds'
  end.

(** One iteration of the second loop, on an entry of [activeEvents].  The
    result holds the event when it was ended.  [endTime] is the [now] that
    [processFeatures] read when it started; the stamp [lastUpdated] that
    [upsertEvent] reads for itself is given as the same instant. *)
Definition checkEnded (companyKey : string) (now : Z)
    (activeSiteIds : gset string) (entry : string * Event)
    : State EventTracker (list Event) :=
  let '(eventKey, event) := entry in
  if startsWith eventKey (companyKey +:+ ":") then
    if bool_decide (siteId event ∉ activeSiteIds) then
      let event' := endEvent event now in
      generateDischargeSummary event' now;;
      onDb (upsertEvent event' now);;
      onActive (JsMap.delete eventKey);;
      mret [event']
    else mret []
  else mret [].

(** The second loop.  The iterator of a [Map] visits the entries that have
    not been deleted; the body deletes the entry it is visiting only, so the
    loop visits the entries present when it starts. *)
Fixpoint endLoop (companyKey : string) (now : Z) (activeSiteIds : gset string)
    (entries : list (string * Event)) : State EventTracker (list Event) :=
  match entries with
  | [] => mret []
  | entry :: rest =>
      ended ← checkEnded companyKey now activeSiteIds entry;
      ended' ← endLoop companyKey now activeSiteIds rest;
      mret (ended ++ ended')
  end.

(** [processFeatures(waterCompany, features)].  The code returns nothing; the
    result of the model lists, in order, the events it ended, each of which
    it handed to [generateDischargeSummary] and [upsertEvent]. *)
Definition processFeatures (waterCompany : string) (features : list Feature)
    (now : Z) : State EventTracker (list Event) :=
  let companyKey := companyKeyOf waterCompany in
  activeSiteIds ← featureLoop waterCompany companyKey now features ∅;
  entries ← getActive (λ m, m);
  endLoop companyKey now activeSiteIds entries.

(** *** Notions used to state the properties of the tracker *)

(** The site that an iteration of the first loop records as discharging. *)
Definition dischargingSite (feature : Feature) : option string :=
  let parsed := parseFeature feature in
  if truthy_str (p_siteId parsed) && bool_decide (p_status parsed = Some 1)
  then p_siteId parsed else None.

(** The test of the second loop: the entry belongs to the company and its
    site was not seen discharging. *)
Definition hasEnded (companyKey : string) (activeSiteIds : gset string)
    (entry : string * Event) : bool :=
  startsWith entry.1 (companyKey +:+ ":")
  && bool_decide (siteId entry.2 ∉ activeSiteIds).

(** A company key without colon: the key of an event then splits in one way
    into company and site. *)
Fixpoint no_colon (s : string) : bool :=
  match s with
  | EmptyString => true
  | String c s' => negb (Ascii.eqb c ":") && no_colon s'
  end.

(** The shape of the entries of [activeEvents]: an active event stored once,
    under its id, which is the key of its company and site. *)
Definition entry_ok (entry : string * Event) : Prop :=
  id entry.2 = entry.1
  ∧ status entry.2 = active
  ∧ entry.1 = eventKeyOf (companyKeyOf (waterCompany entry.2)) (siteId entry.2)
  ∧ no_colon (companyKeyOf (waterCompany entry.2)) = true.

Definition tracker_ok (t : EventTracker) : Prop :=
  JsMap.wf (activeEvents t) ∧ Forall entry_ok (activeEvents t).

(** The sites seen discharging in a snapshot: the value of [activeSiteIds]
    when the first loop is over. *)
Definition seenActive (features : list Feature) : gset string :=
  list_to_set (omap dischargingSite features).

(** Two events that differ at most in the two fields that a poll refreshes,
    [rawData] and [receivingWatercourse]. *)
Definition sameLifecycle (a b : Event) : Prop :=
  id a = id b ∧ waterCompany a = waterCompany b ∧ siteId a = siteId b
  ∧ siteName a = siteName b ∧ latitude a = latitude b
  ∧ longitude a = longitude b ∧ startTime a = startTime b
  ∧ endTime a = endTime b ∧ durationMinutes a = durationMinutes b
  ∧ status a = status b.

(** Two maps with the same keys in the same order, holding such events. *)
Definition sameTracking (m m' : list (string * Event)) : Prop :=
  Forall2 (λ a b, a.1 = b.1 ∧ sameLifecycle a.2 b.2) m m'.

(** The tracker between the two loops of [processFeatures]. *)
Definition afterFeatures (waterCompany : string) (features : list Feature)
    (now : Z) (t : EventTracker) : EventTracker :=
  (featureLoop waterCompany (companyKeyOf waterCompany) now features ∅ t).2.

(** *** The polling tick: [checkAPI] over the configured companies *)

Record Company := {
  name : string;
  endpoint : string;
  updateFrequencyMinutes : Z;
  layerId : Z
}.

(** [WATER_COMPANIES] of config.js, in the order of its keys. *)
Definition WATER_COMPANIES : list (string * Company) :=
  [ ("anglian_water",
     {| name := "Anglian Water";
        endpoint := "https://services3.arcgis.com/VCOY1atHWVcDlvlJ/arcgis/rest/services/stream_service_outfall_locations_view/FeatureServer";
        updateFrequencyMinutes := 60; layerId := 0 |});
    ("thames_water",
     {| name := "Thames Water";
        endpoint := "https://services2.arcgis.com/g6o32ZDQ33GpCIu3/arcgis/rest/services/Thames_Water_Storm_Overflow_Activity_(Production)_view/FeatureServer";
        updateFrequencyMinutes := 5; layerId := 0 |});
    ("united_utilities",
     {| name := "United Utilities";
        endpoint := "https://services5.arcgis.com/5eoLvR0f8HKb7HWP/arcgis/rest/services/United_Utilities_Storm_Overflow_Activity/FeatureServer";
        updateFrequencyMinutes := 60; layerId := 0 |});
    ("yorkshire_water",
     {| name := "Yorkshire Water";
        endpoint := "https://services-eu1.arcgis.com/1WqkK5cDKUbF0CkH/arcgis/rest/services/Yorkshire_Water_Storm_Overflow_Activity/FeatureServer";
        updateFrequencyMinutes := 60; layerId := 0 |});
    ("southern_water",
     {| name := "Southern Water";
        endpoint := "https://services-eu1.arcgis.com/XxS6FebPX29TRGDJ/arcgis/rest/services/Southern_Water_Storm_Overflow_Activity/FeatureServer";
        updateFrequencyMinutes := 15; layerId := 0 |});
    ("severn_trent_water",
     {| name := "Severn Trent Water";
        endpoint := "https://services1.arcgis.com/NO7lTIlnxRMMG9Gw/arcgis/rest/services/Severn_Trent_Water_Storm_Overflow_Activity/FeatureServer";
        updateFrequencyMinutes := 60; layerId := 0 |}) ].

(** What [await apiClient.getAllOverflows(...)] does: it throws, or it
    resolves to an object whose [features] may be missing. *)
Inductive Fetched :=
  | Rejected
  | Resolved (features : option (list Feature)).

(** The body of the [try] for one company.  [fetch] is the answer of the
    feed and [clock] the instant at which the company is processed. *)
Definition checkCompany (fetch : Company → Fetched) (clock : Company → Z)
    (company : Company) : State EventTracker (list Event) :=
  match fetch company with
  | Rejected => mret []
  | Resolved None => mret []
  | Resolved (Some features) =>
      if (0 <? length features)%nat
      then processFeatures (name company) features (clock company)
      else mret []
  end.

Fixpoint companyLoop (fetch : Company → Fetched) (clock : Company → Z)
    (companies : list Company) : State EventTracker (list Event) :=
  match companies with
  | [] => mret []
  | company :: rest =>
      ended ← checkCompany fetch clock company;
      ended' ← companyLoop fetch clock rest;
      mret (ended ++ ended')
  end.

(** [checkAPI()]; the counters it prints are not modelled.  The result lists
    the events ended during the tick. *)
Definition checkAPI (fetch : Company → Fetched) (clock : Company → Z)
    : State EventTracker (list Event) :=
  companyLoop fetch clock (WATER_COMPANIES.*2).

(** The answers of the feed for which [checkAPI] does not call
    [processFeatures]. *)
Definition notProcessed (r : Fetched) : Prop :=
  r = Rejected ∨ r = Resolved None ∨ r = Resolved (Some []).

(** ** PostScheduler *)

(** The fields of the scheduler that [processNextPost] uses, with the queue
    it was given. *)
Record PostScheduler := {
  postsToday : Z;
  maxPostsPerDay : Z;
  lastPostDate : option Z;
  queue : EventQueue
}.

(** [new PostScheduler(eventQueue, ...)]. *)
Definition PostScheduler_new (q : EventQueue) : PostScheduler :=
  {| postsToday := 0; maxPostsPerDay := 16; lastPostDate := None;
     queue := q |}.

(** What a call to a collaborator does: it returns its [success] flag, or it
    throws. *)
Inductive Outcome := Returned (success : bool) | Thrown.

(** The collaborators' behaviour during one cycle.  [tweet] stands for the
    construction of the text followed by [twitterPoster.tweet]. *)
Record Cycle := {
  generateCycleData : Outcome;
  publishToGitHub : Outcome;
  isConfigured : bool;
  tweet : Outcome
}.

(** The calendar day of [new Date().toISOString().split('T')[0]]: two
    instants give the same string when they fall in the same UTC day. *)
Definition utcDay (now : Z) : Z := now `div` 86400000.

Definition onSchedulerQueue {A} (m : State EventQueue A) : State PostScheduler A :=
  λ s, let '(a, q) := m (queue s) in
       (a, {| postsToday := postsToday s; maxPostsPerDay := maxPostsPerDay s;
              lastPostDate := lastPostDate s; queue := q |}).

Definition resetDailyCounterIfNeeded (now : Z) : State PostScheduler unit :=
  λ s,
    let today := utcDay now in
    if bool_decide (lastPostDate s ≠ Some today)
    then (tt, {| postsToday := 0; maxPostsPerDay := maxPostsPerDay s;
                 lastPostDate := Some today; queue := queue s |})
    else (tt, s).

(** [this.postsToday++]. *)
Definition incrPostsToday : State PostScheduler unit :=
  λ s, (tt, {| postsToday := postsToday s + 1;
               maxPostsPerDay := maxPostsPerDay s;
               lastPostDate := lastPostDate s; queue := queue s |}).

(** The part of [processNextPost] common to both versions: the steps up to
    the successful tweet; [onPosted] is what is done with the batch then.
    An exception leaves the [try] block and is only logged, which is also
    what happens in the fixed-schedule version when the list is empty (it
    calls a method that the class does not have). *)
Definition postCycle (onPosted : list QueueEntry → State PostScheduler unit)
    (c : Cycle) (now : Z) : State PostScheduler unit :=
  resetDailyCounterIfNeeded now;;
  events ← onSchedulerQueue getPostableEvents;
  if bool_decide (length events = 0%nat) then mret tt
  else
    match generateCycleData c with
    | Thrown | Returned false => mret tt
    | Returned true =>
        match publishToGitHub c with
        | Thrown | Returned false => mret tt
        | Returned true =>
            if isConfigured c then
              match tweet c with
              | Returned true => incrPostsToday;; onPosted events
              | Returned false | Thrown => mret tt
              end
            else mret tt
        end
    end.

(** The scheduler once [resetDailyCounterIfNeeded] has run. *)
Definition afterReset (now : Z) (s : PostScheduler) : PostScheduler :=
  exec (resetDailyCounterIfNeeded now) s.

(** scheduler/post-scheduler.js: a tweet about the most recent event, which
    alone is marked. *)
Module IntervalScheduler.
Definition markBatch (events : list QueueEntry) : State PostScheduler unit :=
  match events with
  | eventToPost :: _ =>
      onSchedulerQueue (markAsPosted (id (entry_event eventToPost)))
  | [] => mret tt
  end.

Definition processNextPost : Cycle → Z → State PostScheduler unit :=
  postCycle markBatch.
End IntervalScheduler.

(** The fixed-schedule scheduler: a tweet about the whole cycle, all of whose
    events are marked. *)
Module FixedScheduler.
(** [postingTimes], minutes from midnight: [i * 90] for [i] below 16. *)
Definition postingTimes : list Z := (λ i, i * 90) <$> seqZ 0 16.

(** [getNextScheduledTime()] as minutes from midnight, or [None] for the
    first post of the next day. *)
Definition getNextScheduledTime (currentMinutes : Z) : option Z :=
  head (filter (λ postTime, postTime > currentMinutes) postingTimes).

(** [getHours()] and [getMinutes()] of a [Date] given as its local time of
    day, in milliseconds from the local midnight of a day of twenty-four
    hours. *)
Definition getHours (now : Z) : Z := now `div` 3600000.
Definition getMinutes (now : Z) : Z := (now `div` 60000) `mod` 60.

(** The [Date] that [getNextScheduledTime()] returns, in milliseconds from
    the local midnight before [now]: [setHours(hours, minutes, 0, 0)] on the
    day of [now], or the midnight that follows. *)
Definition nextScheduledDate (now : Z) : Z :=
  let currentMinutes := getHours now * 60 + getMinutes now in
  match getNextScheduledTime currentMinutes with
  | Some postTime =>
      let hours := postTime `div` 60 in
      let minutes := Z.rem postTime 60 in
      hours * 3600000 + minutes * 60000
  | None => 86400000
  end.

(** [getMsUntilNextPost()]; the clock is read a second time, at [later], by
    [Date.now()]. *)
Definition getMsUntilNextPost (now later : Z) : Z :=
  nextScheduledDate now - later.

Fixpoint markBatch (events : list QueueEntry) : State PostScheduler unit :=
  match events with
  | [] => mret tt
  | event :: rest =>
      onSchedulerQueue (markAsPosted (id (entry_event event)));;
      markBatch rest
  end.

Definition processNextPost : Cycle → Z → State PostScheduler unit :=
  postCycle markBatch.
End FixedScheduler.

(** ** Sample data *)

(** A feature of site [sid] with the given [Status] and [StatusStart]. *)
Definition sampleFeature (sid : string) (st : Z) (start : option Z) : Feature :=
  {| attributes :=
       {| Id := Some sid; SiteName := None; PermitName := None;
          LocationName := None; Name := None; Status := Some st;
          StatusStart := start; LatestEventStart := None;
          LatestEventEnd := None; ReceivingWaterCourse := Some "River Thames";
          Latitude := None; Longitude := None |} |}.

(** A completed event of Thames Water at site [sid]. *)
Definition sampleEvent (sid : string) (start stop : Z) : Event :=
  endEvent (newEvent "Thames Water" (eventKeyOf "thames_water" sid) sid
                     (parseFeature (sampleFeature sid 1 (Some start))) start)
           stop.

(** Twelve hours, and eleven hours, in milliseconds. *)
Definition h12 : Z := 12 * 3600000.
Definition h11 : Z := 11 * 3600000.

(** A feed whose clock runs ahead: at instant 1000000 it reports that the
    site started discharging at 1180000; one minute later the site is no
    longer discharging. *)
Definition skewedSnapshot : list Feature := [sampleFeature "TW1" 1 (Some 1180000)].
Definition stoppedSnapshot : list Feature := [sampleFeature "TW1" 0 (Some 1060000)].

Definition trackerAfterSkewed : EventTracker :=
  exec (processFeatures "Thames Water" skewedSnapshot 1000000)
       (EventTracker_new EventQueue_new).

(** The start time that the specification words ask for: the reported
    instant unless it is missing or lies in the future. *)
Definition specStartTime (statusChangedAt : option Z) (now : Z) : Z :=
  match statusChangedAt with
  | Some s => if now <? s then now else s
  | None => now
  end.

(** A tick during which the feed of Thames Water is down while the other
    feeds answer. *)
Definition thamesWater : Company :=
  {| name := "Thames Water";
     endpoint := "https://services2.arcgis.com/g6o32ZDQ33GpCIu3/arcgis/rest/services/Thames_Water_Storm_Overflow_Activity_(Production)_view/FeatureServer";
     updateFrequencyMinutes := 5; layerId := 0 |}.

Definition thamesDown (c : Company) : Fetched :=
  if bool_decide (name c = "Thames Water") then Rejected
  else Resolved (Some [sampleFeature "S1" 1 (Some 1000000)]).

(** A cycle in which every collaborator succeeds, and the test that a cycle
    is one. *)
Definition allGood : Cycle :=
  {| generateCycleData := Returned true; publishToGitHub := Returned true;
     isConfigured := true; tweet := Returned true |}.

Definition succeeded (c : Cycle) : bool :=
  match generateCycleData c, publishToGitHub c, tweet c with
  | Returned true, Returned true, Returned true => isConfigured c
  | _, _, _ => false
  end.

(** The ids of a batch. *)
Definition batchIds (batch : list QueueEntry) : gset string :=
  list_to_set ((λ e, id (entry_event e)) <$> batch).

(** A queue of five events ending at [h11] or [h12], added in the order
    A, B, C, D, E, of which C is posted. *)
Definition fourEvents : EventQueue :=
  exec (addEvent (sampleEvent "A" 0 h11) 1;;
        addEvent (sampleEvent "B" 0 h12) 2;;
        addEvent (sampleEvent "C" 0 h12) 3;;
        addEvent (sampleEvent "D" 0 h11) 4;;
        addEvent (sampleEvent "E" 0 h12) 5;;
        markAsPosted "thames_water:C")
       EventQueue_new.

(** A queue holding two twelve-hour events, and a scheduler on it. *)
Definition twoEvents : EventQueue :=
  exec (addEvent (sampleEvent "TW2" 0 h12) (h12 + 1))
       (exec (addEvent (sampleEvent "TW1" 0 h11) (h11 + 1)) EventQueue_new).

(** ** Further methods of the queue, the store and the collaborators *)

(** The text of an integer in a template string. *)
Definition showZ (n : Z) : string := NilZero.string_of_int (Z.to_int n).

(** The four numbers that every [formatDuration] computes: [Math.floor] is
    the floor, [%] the remainder that takes the sign of the dividend. *)
Record DurationParts := {
  hours : Z;
  mins : Z;
  days : Z;
  remainingHours : Z
}.

Definition durationParts (minutes : Z) : DurationParts :=
  let hours := minutes `div` 60 in
  {| hours := hours;
     mins := Z.rem minutes 60;
     days := hours `div` 24;
     remainingHours := Z.rem hours 24 |}.

(** [EventQueue.getStats()]; [threshold] is the number of hours that the
    text shows. *)
Record QueueStats := {
  total : nat;
  stats_unposted : nat;
  posted : nat;
  threshold : Q
}.

Definition getStats : State EventQueue QueueStats :=
  λ q,
    let all := JsMap.values (events q) in
    let unposted := filter (λ e, id (entry_event e) ∉ postedEvents q) all in
    ({| total := length all;
        stats_unposted := length unposted;
        posted := size (postedEvents q);
        threshold := (inject_Z (minDurationMinutes q) / 60)%Q |}, q).

(** [PostScheduler.formatDuration(minutes)], the same in both versions. *)
Definition PostScheduler_formatDuration (minutes : Z) : string :=
  let p := durationParts minutes in
  if 0 <? days p
  then (if 0 <? mins p
        then showZ (days p) +:+ "d " +:+ showZ (remainingHours p) +:+ "h "
               +:+ showZ (mins p) +:+ "m"
        else showZ (days p) +:+ "d " +:+ showZ (remainingHours p) +:+ "h")
  else (if 0 <? mins p
        then showZ (hours p) +:+ "h " +:+ showZ (mins p) +:+ "m"
        else showZ (hours p) +:+ "h").

(** [CycleGenerator.formatDuration(minutes)]. *)
Definition CycleGenerator_formatDuration (minutes : Z) : string :=
  let p := durationParts minutes in
  if 0 <? days p
  then (if (0 <? remainingHours p) && (0 <? mins p)
        then showZ (days p) +:+ "d " +:+ showZ (remainingHours p) +:+ "h "
               +:+ showZ (mins p) +:+ "m"
        else if 0 <? remainingHours p
        then showZ (days p) +:+ "d " +:+ showZ (remainingHours p) +:+ "h"
        else showZ (days p) +:+ "d")
  else (if 0 <? mins p
        then showZ (hours p) +:+ "h " +:+ showZ (mins p) +:+ "m"
        else showZ (hours p) +:+ "h").

(** Every entry passed the duration guard of [addEvent]. *)
Definition longEntries (q : EventQueue) : Prop :=
  Forall (λ kv, js_lt (durationMinutes (entry_event kv.2)) (minDurationMinutes q)
                = false)
         (events q).

(** *** EventTracker.parseCSVLine *)

(** The double quote. *)
Definition dquote : ascii := "034"%char.

(** The loop of [parseCSVLine] on what is left of the line, with the values
    pushed so far, [inQuotes] and [currentValue]; when the line is over the
    current value is pushed. *)
Fixpoint parseCSVLine_loop (line : string) (values : list string)
    (inQuotes : bool) (currentValue : string) : list string :=
  match line with
  | EmptyString => values ++ [currentValue]
  | String char rest =>
      if bool_decide (char = dquote)
      then parseCSVLine_loop rest values (negb inQuotes) currentValue
      else if bool_decide (char = ","%char) && negb inQuotes
      then parseCSVLine_loop rest (values ++ [currentValue]) inQuotes ""
      else parseCSVLine_loop rest values inQuotes
                             (currentValue +:+ String char "")
  end.

Definition parseCSVLine (line : string) : list string :=
  parseCSVLine_loop line [] false "".

(** [fields.join(',')], and a field between double quotes. *)
Definition joinCommas (fields : list string) : string :=
  String.concat "," fields.

Definition quoted (field : string) : string :=
  String dquote (field +:+ String dquote "").

(** The characters of a string. *)
Fixpoint chars (s : string) : list ascii :=
  match s with
  | EmptyString => []
  | String c s' => c :: chars s'
  end.

(** *** Runs of the tracker, and the other methods of the store *)

(** Offering events to the queue one after the other, as the second loop of
    [processFeatures] does with the events it ends. *)
Fixpoint offerAll (ended : list Event) (now : Z) : State EventQueue unit :=
  match ended with
  | [] => mret tt
  | e :: rest => addEvent e now;; offerAll rest now
  end.

(** Polling ticks one after the other, each with the answers of the feeds
    and its clock. *)
Fixpoint ticks (l : list ((Company → Fetched) * (Company → Z)))
    : State EventTracker unit :=
  match l with
  | [] => mret tt
  | (fetch, clock) :: rest => checkAPI fetch clock;; ticks rest
  end.

(** An event that has not ended. *)
Definition entry_open (entry : string * Event) : Prop :=
  endTime entry.2 = None ∧ durationMinutes entry.2 = None.

(** The test by which the store tells its records apart. *)
Definition sameRecord (waterCompany siteId : string) (startTime : Z)
    (e : DbRecord) : Prop :=
  db_waterCompany e = waterCompany ∧ db_siteId e = siteId
  ∧ db_startTime e = startTime.

(** [EventDatabase.getEvent(waterCompany, siteId, startTime)]: the first
    record that matches, or [null]. *)
Definition getEvent (waterCompany siteId : string) (startTime : Z)
    (d : EventDatabase) : option DbRecord :=
  head (filter (sameRecord waterCompany siteId startTime) (data_events d)).

Global Instance EventStatus_eq_dec : EqDecision EventStatus.
Proof. solve_decision. Defined.

(** The comparator [(a, b) => key(b) - key(a)] of the queries of the
    store. *)
Definition descendingBy {A} (key : A → Z) (a b : A) : Z := key b - key a.

(** [EventDatabase.getActiveEvents()]. *)
Definition getActiveEvents (d : EventDatabase) : list DbRecord :=
  Array_sort (descendingBy db_startTime)
             (filter (λ e, db_status e = active) (data_events d)).

(** [EventDatabase.getEventsByCompany(waterCompany)]. *)
Definition getEventsByCompany (waterCompany : string) (d : EventDatabase)
    : list DbRecord :=
  Array_sort (descendingBy db_startTime)
             (filter (λ e, db_waterCompany e = waterCompany) (data_events d)).

(** [EventDatabase.getRecentlyCompletedEvents(hoursAgo)] at instant [now]. *)
Definition getRecentlyCompletedEvents (hoursAgo : Z) (now : Z)
    (d : EventDatabase) : list DbRecord :=
  let cutoffTime := now - hoursAgo * 60 * 60 * 1000 in
  Array_sort (descendingBy (λ e, getTime (db_endTime e)))
             (filter (λ e, db_status e = completed
                           ∧ truthy_num (db_endTime e) = true
                           ∧ cutoffTime < getTime (db_endTime e))
                     (data_events d)).

(** Upserts one after the other, each with the instant of its call. *)
Fixpoint upsertAll (l : list (Event * Z)) : State EventDatabase unit :=
  match l with
  | [] => mret tt
  | (event, now) :: rest => upsertEvent event now;; upsertAll rest
  end.

(** The key of the record of an event. *)
Definition recordKey (e : DbRecord) : string * string * Z :=
  (db_waterCompany e, db_siteId e, db_startTime e).

(** The record that [upsertEvent] writes under the id [id0], and the test
    by which it looks for the record of an event. *)
Definition recordOf (event : Event) (now : Z) (id0 : Z) : DbRecord :=
  {| db_id := id0;
     db_waterCompany := waterCompany event;
     db_siteId := siteId event;
     db_siteName := or_null_str (siteName event);
     db_latitude := or_null_num (latitude event);
     db_longitude := or_null_num (longitude event);
     db_startTime := startTime event;
     db_endTime := or_null_num (endTime event);
     db_durationMinutes := or_null_num (durationMinutes event);
     db_status := status event;
     db_receivingWatercourse := or_null_str (receivingWatercourse event);
     db_lastUpdated := now;
     db_rawData := rawData event |}.

Definition matches (event : Event) (r : DbRecord) : Prop :=
  sameRecord (waterCompany event) (siteId event) (startTime event) r.

(** The ids of the store are distinct and below [nextId], and no two
    records have the same key. *)
Definition db_ok (d : EventDatabase) : Prop :=
  NoDup (db_id <$> data_events d)
  ∧ Forall (λ r, db_id r < nextId d) (data_events d)
  ∧ NoDup (recordKey <$> data_events d).

(** The key under which the store files an event. *)
Definition eventKey3 (e : Event) : string * string * Z :=
  (waterCompany e, siteId e, startTime e).

(** ** TwitterPoster and the manifest of the cycle generator *)

(** A JavaScript string as its UTF-16 code units, which is what [length]
    and [substring] count. *)
Definition JsString : Type := list Z.

(** ['...'] *)
Definition ellipsis : JsString := [46; 46; 46].

(** [TwitterPoster.tweet(text)]: [None] is the exception of a poster that
    is not configured; [client_tweet] is [client.v2.tweet] together with
    the result built from its answer. *)
Definition TwitterPoster_tweet {R : Type} (isConfigured : bool)
    (client_tweet : JsString → R) (text : JsString) : option R :=
  if isConfigured
  then let text := if (280 <? length text)%nat
                   then take 277 text ++ ellipsis
                   else text in
       Some (client_tweet text)
  else None.

(** [manifest.json]: the file names of the cycles and the instant of the
    last update. *)
Record Manifest := {
  manifest_cycles : list string;
  manifest_lastUpdated : option Z
}.

(** [CycleGenerator.updateManifest(cycleFilename)] at instant [now]; [file]
    is the manifest on disk, if there is one. *)
Definition updateManifest (cycleFilename : string) (now : Z)
    (file : option Manifest) : option Manifest :=
  let manifest :=
    default {| manifest_cycles := []; manifest_lastUpdated := None |} file in
  Some {| manifest_cycles := take 100 (cycleFilename :: manifest_cycles manifest);
          manifest_lastUpdated := Some now |}.

(** The manifest after the cycles [published], oldest first. *)
Definition updateManifests (published : list (string * Z))
    (file : option Manifest) : option Manifest :=
  foldl (λ file cycle, updateManifest cycle.1 cycle.2 file) file published.

(** ** AISummarizer *)

(** [a > b] on numbers or [null]. *)
Definition js_gt (a b : option Z) : bool := default 0 b <? default 0 a.

(** The [longestEvent] of [buildPrompt] and [generateFallbackSummary]:
    [events.reduce((longest, e) => e.durationMinutes >
    longest.durationMinutes ? e : longest)]; without an initial value
    [reduce] starts from the first element and throws a [TypeError] on an
    empty array, which is [None]. *)
Definition longestEvent (events : list QueueEntry) : option QueueEntry :=
  match events with
  | [] => None
  | first :: rest =>
      Some (foldl (λ longest e,
                     if js_gt (durationMinutes (entry_event e))
                              (durationMinutes (entry_event longest))
                     then e else longest)
                  first rest)
  end.

(** ** The publish trigger (scheduler/post-scheduler.js, [start]) *)

Module PublishTrigger.

(** One run of the callback of the timer: the calls made on the shared queue
    since the cycle before (by the tracker, which offers the events it
    ends), what the collaborators do during the cycle, and the instant at
    which the callback runs. *)
Record TimerRun := {
  sinceLast : list QueueCall;
  cycle : Cycle;
  firedAt : Z
}.


(** The callback, [() => { this.processNextPost(); }], after what happened
    to the queue in the meantime. *)
Definition callback (run : TimerRun) : State PostScheduler unit :=
  onSchedulerQueue (calls (sinceLast run));;
  IntervalScheduler.processNextPost (cycle run) (firedAt run).

Fixpoint timer (runs : list TimerRun) : State PostScheduler unit :=
  match runs with
  | [] => mret tt
  | run :: later => callback run;; timer later
  end.

(** [start()] at instant [now], on a scheduler that is not running yet: one
    cycle at once, then the cycles of the timer.  ([isRunning] serves to
    make a second [start()] do nothing; [stop()] clears the timer.) *)
Definition start (first : Cycle) (now : Z) (runs : list TimerRun)
    : State PostScheduler unit :=
  IntervalScheduler.processNextPost first now;;
  timer runs.





End PublishTrigger.

(* ================================================================== *)
(** * Properties *)

(** ** Insertion-ordered maps *)

Section JsMap_facts.
Context {V : Type}.
Implicit Types (m : list (string * V)) (k : string) (v : V).

Lemma get_set_eq k v m : JsMap.get k (JsMap.set k v m) = Some v.
Proof.
  induction m as [|[k' v'] m IH]; simpl.
  - by rewrite decide_True.
  - destruct (decide (k = k')) as [->|Hne]; simpl.
    + by rewrite decide_True.
    + by rewrite decide_False.
Qed.

Lemma get_set_ne k k' v m :
  k ≠ k' → JsMap.get k' (JsMap.set k v m) = JsMap.get k' m.
Proof.
  intros Hne. induction m as [|[k0 v0] m IH]; simpl.
  - by rewrite decide_False.
  - destruct (decide (k = k0)) as [->|Hk]; simpl.
    + by rewrite !(decide_False (P := k' = k0)).
    + by rewrite IH.
Qed.

Lemma get_None_keys k m : JsMap.get k m = None ↔ k ∉ JsMap.keys m.
Proof.
  unfold JsMap.keys. induction m as [|[k' v'] m IH]; simpl.
  - split; [intros _; apply not_elem_of_nil | done].
  - rewrite not_elem_of_cons. destruct (decide (k = k')) as [->|Hne].
    + split; [done | intros [? _]; done].
    + rewrite IH. tauto.
Qed.

Lemma get_Some_elem k v m : JsMap.get k m = Some v → (k, v) ∈ m.
Proof.
  induction m as [|[k' v'] m IH]; simpl; [done|].
  destruct (decide (k = k')) as [->|Hne].
  - intros [= ->]. apply elem_of_cons; by left.
  - intros H. apply elem_of_cons; right; auto.
Qed.

Lemma elem_get_wf k v m : JsMap.wf m → (k, v) ∈ m → JsMap.get k m = Some v.
Proof.
  unfold JsMap.wf, JsMap.keys.
  induction m as [|[k' v'] m IH]; simpl; intros Hwf Hin.
  - by apply elem_of_nil in Hin.
  - apply NoDup_cons in Hwf as [Hnotin Hwf].
    apply elem_of_cons in Hin as [[= -> ->]|Hin].
    + by rewrite decide_True.
    + rewrite decide_False; [by apply IH|].
      intros ->. apply Hnotin. apply list_elem_of_fmap. by exists (k', v).
Qed.

Lemma keys_set_present k v m :
  k ∈ JsMap.keys m → JsMap.keys (JsMap.set k v m) = JsMap.keys m.
Proof.
  unfold JsMap.keys. induction m as [|[k' v'] m IH]; simpl.
  - intros H. by apply elem_of_nil in H.
  - intros H. destruct (decide (k = k')) as [->|Hne]; simpl; [done|].
    f_equal. apply IH. apply elem_of_cons in H as [?|?]; done.
Qed.

Lemma keys_set_absent k v m :
  k ∉ JsMap.keys m → JsMap.keys (JsMap.set k v m) = JsMap.keys m ++ [k].
Proof.
  unfold JsMap.keys. induction m as [|[k' v'] m IH]; simpl; [done|].
  intros H. apply not_elem_of_cons in H as [Hne H].
  rewrite decide_False by done. simpl. f_equal. by apply IH.
Qed.

Lemma wf_set k v m : JsMap.wf m → JsMap.wf (JsMap.set k v m).
Proof.
  unfold JsMap.wf. intros Hwf.
  destruct (decide (k ∈ JsMap.keys m)) as [Hin|Hnotin].
  - by rewrite keys_set_present.
  - rewrite keys_set_absent by done.
    apply NoDup_app. split_and!; [done| |apply NoDup_singleton].
    intros x Hx ->%list_elem_of_singleton. done.
Qed.

Lemma keys_delete_sub k m : JsMap.keys (JsMap.delete k m) ⊆ JsMap.keys m.
Proof.
  unfold JsMap.keys. induction m as [|[k' v'] m IH]; simpl; [done|].
  destruct (decide (k = k')); simpl.
  - by apply list_subseteq_cons.
  - intros x [->|Hx]%elem_of_cons; [left|right; by apply IH].
Qed.

Lemma wf_delete k m : JsMap.wf m → JsMap.wf (JsMap.delete k m).
Proof.
  unfold JsMap.wf, JsMap.keys. induction m as [|[k' v'] m IH]; simpl; [done|].
  intros [Hnotin Hwf]%NoDup_cons. destruct (decide (k = k')); simpl; [done|].
  apply NoDup_cons. split; [|by apply IH].
  intros Hin. apply Hnotin. by apply (keys_delete_sub k m).
Qed.

Lemma get_delete_eq k m : JsMap.wf m → JsMap.get k (JsMap.delete k m) = None.
Proof.
  unfold JsMap.wf, JsMap.keys. induction m as [|[k' v'] m IH]; simpl; [done|].
  intros [Hnotin Hwf]%NoDup_cons. destruct (decide (k = k')) as [->|Hne]; simpl.
  - by apply get_None_keys.
  - rewrite decide_False by done. by apply IH.
Qed.

Lemma get_delete_ne k k' m :
  k ≠ k' → JsMap.get k' (JsMap.delete k m) = JsMap.get k' m.
Proof.
  intros Hne. induction m as [|[k0 v0] m IH]; simpl; [done|].
  destruct (decide (k = k0)) as [->|Hk]; simpl.
  - by rewrite decide_False.
  - by rewrite IH.
Qed.

(** The number of entries held under a key. *)
Lemma entries_for_key k v m :
  JsMap.wf m → JsMap.get k m = Some v → filter (λ kv, kv.1 = k) m = [(k, v)].
Proof.
  unfold JsMap.wf, JsMap.keys. induction m as [|[k' v'] m IH]; simpl; [done|].
  intros [Hnotin Hwf]%NoDup_cons.
  destruct (decide (k = k')) as [->|Hne].
  - intros [= ->]. rewrite filter_cons_True by done. f_equal.
    apply elem_of_nil_inv. intros [k0 v0] [Heq Hin]%list_elem_of_filter. simpl in Heq.
    subst. apply Hnotin, list_elem_of_fmap. by exists (k', v0).
  - intros Hget. rewrite filter_cons_False by (simpl; congruence). by apply IH.
Qed.
End JsMap_facts.

(** ** The threshold queue *)

Section queue_facts.
Implicit Types (q : EventQueue) (e : Event).

Lemma addEvent_refused e now q :
  refused e q = true → addEvent e now q = (false, q).
Proof.
  unfold refused, addEvent. intros [H|H]%orb_true_iff; rewrite H; [done|].
  by destruct (js_lt _ _).
Qed.

Lemma addEvent_accepted e now q :
  refused e q = false →
  addEvent e now q =
    (true, {| events := JsMap.set (id e)
                          {| entry_event := e; addedToQueue := now |}
                          (events q);
              postedEvents := postedEvents q;
              minDurationMinutes := minDurationMinutes q |}).
Proof.
  unfold refused, addEvent. intros [H1 H2]%orb_false_iff. by rewrite H1, H2.
Qed.

Lemma addEvent_wf e now q :
  JsMap.wf (events q) → JsMap.wf (events (exec (addEvent e now) q)).
Proof.
  intros Hwf. unfold exec. destruct (refused e q) eqn:Hr.
  - by rewrite addEvent_refused.
  - rewrite addEvent_accepted by done. simpl. by apply wf_set.
Qed.

Lemma addEvent_posted e now q :
  postedEvents (exec (addEvent e now) q) = postedEvents q.
Proof.
  unfold exec. destruct (refused e q) eqn:Hr.
  - by rewrite addEvent_refused.
  - by rewrite addEvent_accepted.
Qed.

Lemma addEvent_minDuration e now q :
  minDurationMinutes (exec (addEvent e now) q) = minDurationMinutes q.
Proof.
  unfold exec. destruct (refused e q) eqn:Hr.
  - by rewrite addEvent_refused.
  - by rewrite addEvent_accepted.
Qed.
End queue_facts.

(** C1, as the code has it.  [addEvent] returns [false] and leaves the queue
    as it is exactly when the duration is below [minDurationMinutes] or the id
    is in [postedEvents]; otherwise it returns [true] and sets the entry of
    that id, in place when the map already holds one.  Adding twice under one
    id therefore leaves exactly one entry for it, the second event, and the
    second call returns [true] again when its event is long enough. *)
Theorem C1_addEvent_dedups_on_posted (e e' : Event) (now now' : Z) (q : EventQueue) :
  JsMap.wf (events q) →
  id e' = id e →
  let q1 := exec (addEvent e now) q in
  let q2 := exec (addEvent e' now') q1 in
  eval (addEvent e now) q = negb (refused e q)
  ∧ (refused e q = true → q1 = q)
  ∧ (refused e q = false →
       events q1 = JsMap.set (id e) {| entry_event := e; addedToQueue := now |}
                             (events q)
       ∧ postedEvents q1 = postedEvents q
       ∧ minDurationMinutes q1 = minDurationMinutes q
       ∧ eval (addEvent e' now') q1
         = negb (js_lt (durationMinutes e') (minDurationMinutes q))
       ∧ length (filter (λ kv, kv.1 = id e) (events q2)) = 1%nat
       ∧ (js_lt (durationMinutes e') (minDurationMinutes q) = false →
            JsMap.get (id e) (events q2)
            = Some {| entry_event := e'; addedToQueue := now' |})).
Proof.
  intros Hwf Hid q1 q2. subst q1 q2. unfold eval, exec.
  destruct (refused e q) eqn:Hr.
  - rewrite addEvent_refused by done. simpl. split_and!; done.
  - rewrite addEvent_accepted by done. simpl.
    split_and!; [done|done|]. intros _.
    set (q1 := {| events := _ |}).
    assert (Hwf1 : JsMap.wf (events q1)) by (subst q1; simpl; by apply wf_set).
    assert (Hr' : refused e' q1 = js_lt (durationMinutes e') (minDurationMinutes q)).
    { unfold refused. subst q1. simpl. rewrite Hid.
      apply orb_false_iff in Hr as [_ ->]. apply orb_false_r. }
    split_and!; [done..| | |].
    + destruct (js_lt (durationMinutes e') _) eqn:Hdur.
      * by rewrite addEvent_refused.
      * by rewrite addEvent_accepted.
    + destruct (refused e' q1) eqn:Hr''.
      * rewrite addEvent_refused by done. simpl.
        erewrite entries_for_key; [done|by apply wf_set|apply get_set_eq].
      * rewrite addEvent_accepted by done. simpl. rewrite Hid.
        erewrite entries_for_key; [done| |apply get_set_eq].
        by apply wf_set, wf_set.
    + intros Hdur. rewrite addEvent_accepted by congruence.
      simpl. rewrite Hid. apply get_set_eq.
Qed.

Lemma C1_addEvent_dedups_on_posted_witness :
  let e := sampleEvent "TW1" 0 h12 in
  let q2 := exec (addEvent e 2) (exec (addEvent e 1) EventQueue_new) in
  eval (addEvent e 2) (exec (addEvent e 1) EventQueue_new) = true
  ∧ length (filter (λ kv, kv.1 = id e) (events q2)) = 1%nat.
Proof.
  intros e q2.
  destruct (C1_addEvent_dedups_on_posted e e 1 2 EventQueue_new)
    as (_ & _ & H); [apply NoDup_nil_2 | reflexivity |].
  destruct H as (_ & _ & _ & Hret & Hone & _); [reflexivity|].
  split; [exact Hret | exact Hone].
Defined.

(** C1 as stated fails: an entry that has not been posted does not make
    [addEvent] return [false]; the second call returns [true] and replaces
    the entry. *)
Lemma C1_second_add_returns_true :
  let e := sampleEvent "TW1" 0 h12 in
  let q1 := exec (addEvent e 1) EventQueue_new in
  durationMinutes e = Some 720
  ∧ JsMap.has (id e) (events q1) = true
  ∧ eval (addEvent e 2) q1 = true
  ∧ exec (addEvent e 2) q1 ≠ q1.
Proof.
  split_and!; [reflexivity..|]. intros H.
  apply (f_equal (λ q, addedToQueue <$> JsMap.get "thames_water:TW1" (events q))) in H.
  vm_compute in H. discriminate.
Qed.

(** ** Sorting by end time *)

Section sort_facts.
Context {A : Type} (cmp : A → A → Z).

Lemma sort_insert_perm x l : sort_insert cmp x l ≡ₚ x :: l.
Proof.
  induction l as [|y l IH]; simpl; [done|].
  destruct (cmp y x <? 0); [|done].
  rewrite IH. apply Permutation_swap.
Qed.

Lemma Array_sort_perm l : Array_sort cmp l ≡ₚ l.
Proof.
  induction l as [|x l IH]; simpl; [done|].
  by rewrite sort_insert_perm, IH.
Qed.

(** Stability, for a class [P] of elements that the comparator never
    orders strictly among themselves: they keep their relative order. *)
Lemma sort_insert_filter (P : A → Prop) `{!∀ a, Decision (P a)} x l :
  (∀ a b, P a → P b → ¬ cmp a b < 0) →
  filter P (sort_insert cmp x l) = filter P (x :: l).
Proof.
  intros Hties. induction l as [|y l IH]; simpl; [done|].
  destruct (Z.ltb_spec (cmp y x) 0) as [Hlt|Hge]; [|done].
  rewrite (filter_cons _ y), IH, !(filter_cons _ x), (filter_cons _ y).
  destruct (decide (P y)) as [Hy|], (decide (P x)) as [Hx|]; try done.
  destruct (Hties y x Hy Hx Hlt).
Qed.

Lemma Array_sort_filter (P : A → Prop) `{!∀ a, Decision (P a)} l :
  (∀ a b, P a → P b → ¬ cmp a b < 0) →
  filter P (Array_sort cmp l) = filter P l.
Proof.
  intros Hties. induction l as [|x l IH]; simpl; [done|].
  rewrite sort_insert_filter by done. by rewrite !(filter_cons _ x), IH.
Qed.
End sort_facts.

Section byEndTime.
Lemma sort_insert_HdRel x y l :
  newestFirst y x → HdRel newestFirst y l →
  HdRel newestFirst y (sort_insert byEndTimeDesc x l).
Proof.
  intros Hyx Hhd. destruct l as [|z l]; simpl; [by constructor|].
  destruct (byEndTimeDesc z x <? 0); constructor; [by inversion Hhd|done].
Qed.

Lemma sort_insert_Sorted x l :
  Sorted newestFirst l → Sorted newestFirst (sort_insert byEndTimeDesc x l).
Proof.
  induction 1 as [|y l Hs IH Hhd]; simpl; [by repeat constructor|].
  destruct (Z.ltb_spec (byEndTimeDesc y x) 0) as [Hlt|Hge].
  - constructor; [done|]. apply sort_insert_HdRel; [|done].
    unfold newestFirst, byEndTimeDesc, endMillis in *. lia.
  - constructor; [by constructor|]. constructor.
    unfold newestFirst, byEndTimeDesc, endMillis in *. lia.
Qed.

Lemma Array_sort_Sorted l : Sorted newestFirst (Array_sort byEndTimeDesc l).
Proof.
  induction l as [|x l IH]; simpl; [constructor|]. by apply sort_insert_Sorted.
Qed.

Global Instance newestFirst_trans : Transitive newestFirst.
Proof. unfold newestFirst. intros a b c. lia. Qed.
End byEndTime.

(** C4.  [getPostableEvents] leaves the queue as it is and returns the
    entries whose id is not in [postedEvents], each once, ordered by
    descending end time; entries with equal end times come in the order in
    which the map holds them, that is in insertion order. *)
Theorem C4_getPostableEvents_sorted_stable_pure (q : EventQueue) :
  let result := eval getPostableEvents q in
  exec getPostableEvents q = q
  ∧ result ≡ₚ unposted q
  ∧ (∀ e, e ∈ result ↔
          e ∈ JsMap.values (events q) ∧ id (entry_event e) ∉ postedEvents q)
  ∧ StronglySorted newestFirst result
  ∧ (∀ t, filter (λ e, endMillis e = t) result
          = filter (λ e, endMillis e = t) (unposted q)).
Proof.
  unfold eval, exec, getPostableEvents. simpl.
  split_and!.
  - done.
  - apply Array_sort_perm.
  - intros e. rewrite Array_sort_perm. unfold unposted.
    rewrite list_elem_of_filter. tauto.
  - apply Sorted_StronglySorted; [apply _|]. apply Array_sort_Sorted.
  - intros t. apply Array_sort_filter.
    intros a b Ha Hb. unfold byEndTimeDesc, endMillis in *. lia.
Qed.

(** Newest first, and first added first among those that ended together;
    the posted event is left out. *)
Example getPostableEvents_ties :
  (λ e, (siteId (entry_event e), endMillis e)) <$> eval getPostableEvents fourEvents
  = [("B", h12); ("E", h12); ("A", h11); ("D", h11)].
Proof. reflexivity. Qed.

(** ** The invariant of the queue and the set of posted ids *)

Section queue_invariant.
Implicit Types (q : EventQueue) (e : Event).

Lemma Forall_set {V} (P : string * V → Prop) k v (m : list (string * V)) :
  P (k, v) → Forall P m → Forall P (JsMap.set k v m).
Proof.
  intros Hkv. induction 1 as [|[k' v'] m Hx Hm IH]; simpl.
  - by repeat constructor.
  - destruct (decide (k = k')); constructor; done.
Qed.

Lemma queue_ok_new : queue_ok EventQueue_new.
Proof. split; [apply NoDup_nil_2 | constructor]. Qed.

Lemma queue_ok_addEvent e now q :
  queue_ok q → queue_ok (exec (addEvent e now) q).
Proof.
  intros [Hwf Hkeyed]. split; [by apply addEvent_wf|].
  unfold exec. destruct (refused e q) eqn:Hr.
  - by rewrite addEvent_refused.
  - rewrite addEvent_accepted by done. simpl. by apply Forall_set.
Qed.

Lemma queue_ok_cleanup now q : queue_ok q → queue_ok (exec (cleanup now) q).
Proof.
  intros [Hwf Hkeyed]. split; simpl.
  - unfold JsMap.wf, JsMap.keys in *. eapply sublist_NoDup; [exact Hwf|].
    apply fmap_sublist, sublist_filter.
  - rewrite Forall_forall in *. intros kv [_ Hin]%list_elem_of_filter. auto.
Qed.

Lemma queue_ok_call c q : queue_ok q → queue_ok (exec (call c) q).
Proof.
  destruct c as [e now| |eventId|now]; intros Hok.
  - unfold exec, call, mbind, State_bind. simpl.
    pose proof (queue_ok_addEvent e now q Hok) as H. unfold exec in H.
    by destruct (addEvent e now q).
  - done.
  - done.
  - by apply queue_ok_cleanup.
Qed.

Lemma exec_calls_cons c cs q :
  exec (calls (c :: cs)) q = exec (calls cs) (exec (call c) q).
Proof.
  unfold exec. simpl. unfold mbind, State_bind. by destruct (call c q).
Qed.

Lemma queue_ok_calls cs q : queue_ok q → queue_ok (exec (calls cs) q).
Proof.
  revert q. induction cs as [|c cs IH]; intros q Hok; [done|].
  rewrite exec_calls_cons. by apply IH, queue_ok_call.
Qed.

Lemma posted_call_mono c q : postedEvents q ⊆ postedEvents (exec (call c) q).
Proof.
  destruct c as [e now| |eventId|now]; simpl.
  - unfold exec, call, mbind, State_bind. simpl.
    pose proof (addEvent_posted e now q) as H. unfold exec in H.
    destruct (addEvent e now q). simpl in *. by rewrite H.
  - done.
  - unfold exec. simpl. set_solver.
  - done.
Qed.

Lemma posted_calls_mono cs q : postedEvents q ⊆ postedEvents (exec (calls cs) q).
Proof.
  revert q. induction cs as [|c cs IH]; intros q; [done|].
  rewrite exec_calls_cons. etrans; [apply posted_call_mono | apply IH].
Qed.

(** Without an entry under [eventId], no entry carries that id. *)
Lemma absent_unposted eventId q :
  queue_ok q → JsMap.get eventId (events q) = None →
  Forall (λ entry, id (entry_event entry) ≠ eventId) (JsMap.values (events q)).
Proof.
  intros [_ Hkeyed] Hnone%get_None_keys. unfold JsMap.keys, JsMap.values in *.
  apply Forall_fmap, Forall_forall. intros [k entry] Hin Heq. simpl in *.
  rewrite Forall_forall in Hkeyed. specialize (Hkeyed _ Hin). simpl in *.
  apply Hnone, list_elem_of_fmap. exists (k, entry). split; [simpl; congruence|done].
Qed.
End queue_invariant.

(** C7, as the code has it.  For an id under which the queue holds no entry,
    [markAsPosted] returns, leaves the map and the postable list as they are,
    and records the id in [postedEvents]; from then on [addEvent] refuses
    every event of that id.  Events of other ids are treated as before. *)
Theorem C7_markAsPosted_absent_blocks_add (eventId : string) (q : EventQueue) :
  queue_ok q →
  JsMap.get eventId (events q) = None →
  let q' := exec (markAsPosted eventId) q in
  eval (markAsPosted eventId) q = tt
  ∧ events q' = events q
  ∧ minDurationMinutes q' = minDurationMinutes q
  ∧ postedEvents q' = {[eventId]} ∪ postedEvents q
  ∧ eval getPostableEvents q' = eval getPostableEvents q
  ∧ (∀ e now, id e = eventId → addEvent e now q' = (false, q'))
  ∧ (∀ e now, id e ≠ eventId →
       eval (addEvent e now) q' = eval (addEvent e now) q
       ∧ events (exec (addEvent e now) q') = events (exec (addEvent e now) q)).
Proof.
  intros Hok Hnone q'. subst q'. unfold exec, eval. simpl.
  split_and!; try done.
  - f_equal. unfold unposted. simpl.
    pose proof (absent_unposted eventId q Hok Hnone) as Habs.
    induction (JsMap.values (events q)) as [|entry l IH]; [done|].
    apply Forall_cons in Habs as [Hne Habs].
    rewrite !(filter_cons _ entry), IH by done.
    destruct (decide (id (entry_event entry) ∉ {[eventId]} ∪ postedEvents q)),
             (decide (id (entry_event entry) ∉ postedEvents q)); try done;
      set_solver.
  - intros e now <-. apply addEvent_refused. unfold refused. simpl.
    rewrite (bool_decide_eq_true_2 (id e ∈ _)) by set_solver.
    apply orb_true_r.
  - intros e now Hne.
    assert (Hr : refused e
                   {| events := events q;
                      postedEvents := {[eventId]} ∪ postedEvents q;
                      minDurationMinutes := minDurationMinutes q |}
                 = refused e q).
    { unfold refused. simpl. f_equal. apply bool_decide_ext. set_solver. }
    destruct (refused e q) eqn:Hrq.
    + by rewrite !addEvent_refused.
    + by rewrite !addEvent_accepted.
Qed.

Lemma C7_markAsPosted_absent_blocks_add_witness :
  let q' := exec (markAsPosted "thames_water:TW1") EventQueue_new in
  postedEvents q' = {[ "thames_water:TW1" ]} ∪ postedEvents EventQueue_new
  ∧ addEvent (sampleEvent "TW1" 0 h12) 5 q' = (false, q').
Proof.
  intros q'.
  destruct (C7_markAsPosted_absent_blocks_add "thames_water:TW1" EventQueue_new
              queue_ok_new eq_refl) as (_ & _ & _ & Hposted & _ & Hadd & _).
  split; [exact Hposted | exact (Hadd (sampleEvent "TW1" 0 h12) 5 eq_refl)].
Defined.

(** C7 as stated fails: on the empty queue [addEvent] accepts a twelve-hour
    event, and refuses it once [markAsPosted] was called for its id, under
    which the queue held nothing. *)
Lemma C7_markAsPosted_absent_not_noop :
  let e := sampleEvent "TW1" 0 h12 in
  let q := EventQueue_new in
  JsMap.get (id e) (events q) = None
  ∧ eval (addEvent e 5) q = true
  ∧ eval (addEvent e 5) (exec (markAsPosted (id e)) q) = false.
Proof. split_and!; reflexivity. Qed.

(** C9.  After [markAsPosted eventId], whatever calls follow, [cleanup]
    among them, [addEvent] refuses every event of that id and leaves the
    queue as it is: [postedEvents] only grows, and [cleanup] does not touch
    it. *)
Theorem C9_posted_id_refused_forever (q : EventQueue) (e : Event)
    (cs : list QueueCall) (now : Z) :
  let q1 := exec (calls cs) (exec (markAsPosted (id e)) q) in
  addEvent e now q1 = (false, q1)
  ∧ id e ∈ postedEvents q1
  ∧ postedEvents q ⊆ postedEvents q1
  ∧ (∀ t q0, postedEvents (exec (cleanup t) q0) = postedEvents q0)
  ∧ (∀ c q0, postedEvents q0 ⊆ postedEvents (exec (call c) q0)).
Proof.
  intros q1.
  assert (Hin : id e ∈ postedEvents q1).
  { apply (posted_calls_mono cs (exec (markAsPosted (id e)) q)).
    unfold exec. simpl. set_solver. }
  split_and!.
  - apply addEvent_refused. unfold refused.
    rewrite (bool_decide_eq_true_2 _ Hin). apply orb_true_r.
  - done.
  - etrans; [|apply posted_calls_mono]. unfold exec. simpl. set_solver.
  - done.
  - apply posted_call_mono.
Qed.

(** ** Keys of events *)

Section key_facts.
Implicit Types (a b s k : string).

Lemma app_cons c a s : String c a +:+ s = String c (a +:+ s).
Proof. reflexivity. Qed.

Lemma app_nil s : "" +:+ s = s.
Proof. reflexivity. Qed.

Lemma prefix_cons_cons c d a k :
  String.prefix (String c a) (String d k)
  = if decide (c = d) then String.prefix a k else false.
Proof.
  change (String.prefix (String c a) (String d k))
    with (if ascii_dec c d then String.prefix a k else false).
  by destruct (ascii_dec c d), (decide (c = d)).
Qed.

Lemma startsWith_eventKeyOf a s : startsWith (eventKeyOf a s) (a +:+ ":") = true.
Proof.
  unfold startsWith, eventKeyOf.
  induction a as [|c a IH].
  - rewrite !app_nil. change (":" +:+ s) with (String ":" s).
    change ":" with (String ":" "") at 1.
    rewrite prefix_cons_cons, decide_True by done. by destruct s.
  - by rewrite !app_cons, prefix_cons_cons, decide_True.
Qed.

(** Two colon-free companies that prefix one key are the same. *)
Lemma prefix_company a b s :
  no_colon a = true → no_colon b = true →
  String.prefix (a +:+ ":") (b +:+ ":" +:+ s) = true → a = b.
Proof.
  revert b. induction a as [|c a IH]; intros [|d b]; try done.
  - intros _ [Hd _]%andb_true_iff. rewrite app_nil, app_cons.
    change ":" with (String ":" "") at 1. rewrite prefix_cons_cons.
    destruct (decide (":"%char = d)) as [<-|]; [|done]. by vm_compute in Hd.
  - intros [Hc _]%andb_true_iff _. rewrite app_nil, app_cons.
    change (":" +:+ s) with (String ":" s). rewrite prefix_cons_cons.
    destruct (decide (c = ":"%char)) as [->|]; [|done]. by vm_compute in Hc.
  - intros [_ Ha]%andb_true_iff [_ Hb]%andb_true_iff.
    rewrite !app_cons, prefix_cons_cons.
    destruct (decide (c = d)) as [->|]; [|done].
    intros H. f_equal. by apply IH.
Qed.

Lemma eventKeyOf_inj a b s s' :
  no_colon a = true → no_colon b = true →
  eventKeyOf a s = eventKeyOf b s' → a = b ∧ s = s'.
Proof.
  intros Ha Hb Heq.
  assert (a = b) as ->.
  { apply (prefix_company a b s'); [done..|].
    unfold eventKeyOf in Heq. rewrite <- Heq.
    pose proof (startsWith_eventKeyOf a s) as H.
    by unfold startsWith, eventKeyOf in H. }
  split; [done|]. unfold eventKeyOf in Heq.
  by apply String.app_inj, String.app_inj in Heq.
Qed.

Lemma eventKeyOf_site_inj a s s' : eventKeyOf a s = eventKeyOf a s' → s = s'.
Proof. unfold eventKeyOf. by intros ?%String.app_inj%String.app_inj. Qed.

(** A key of one company does not start with the key of another. *)
Lemma startsWith_other_company a b s :
  no_colon a = true → no_colon b = true → a ≠ b →
  startsWith (eventKeyOf b s) (a +:+ ":") = false.
Proof.
  intros Ha Hb Hne. unfold startsWith, eventKeyOf.
  destruct (String.prefix _ _) eqn:H; [|done].
  by apply prefix_company in H.
Qed.
End key_facts.

(** ** The first loop of [processFeatures] *)

Section feature_loop.
Implicit Types (t : EventTracker) (f : Feature) (ids : gset string)
  (wc ck sid : string) (now : Z).

Lemma dischargingSite_Some f sid :
  dischargingSite f = Some sid ↔
  Id (attributes f) = Some sid ∧ sid ≠ "" ∧ Status (attributes f) = Some 1.
Proof.
  unfold dischargingSite, parseFeature, truthy_str. simpl.
  destruct (Id (attributes f)) as [s|]; simpl.
  - destruct (decide (s = "")) as [->|Hne].
    + rewrite bool_decide_eq_true_2 by done. simpl. naive_solver.
    + rewrite bool_decide_eq_false_2 by done. simpl.
      case_bool_decide; naive_solver.
  - naive_solver.
Qed.

Lemma processFeature_skip wc ck now f ids t :
  dischargingSite f = None → processFeature wc ck now f ids t = (ids, t).
Proof.
  unfold dischargingSite, processFeature.
  generalize (parseFeature f) as parsed. intros parsed.
  destruct (p_siteId parsed) as [sid|]; [|done].
  destruct (truthy_str (Some sid)); simpl; [|done].
  case_bool_decide; [done|reflexivity].
Qed.

Lemma processFeature_new wc ck now f ids t sid :
  dischargingSite f = Some sid →
  JsMap.get (eventKeyOf ck sid) (activeEvents t) = None →
  let event := newEvent wc (eventKeyOf ck sid) sid (parseFeature f) now in
  processFeature wc ck now f ids t =
    ({[sid]} ∪ ids,
     {| db := exec (upsertEvent event now) (db t);
        activeEvents := JsMap.set (eventKeyOf ck sid) event (activeEvents t);
        eventQueue := eventQueue t |}).
Proof.
  unfold dischargingSite, processFeature. intros Hd Hget. revert Hd.
  generalize (parseFeature f) as parsed. intros parsed.
  destruct (p_siteId parsed) as [sid'|]; [|intros H; by repeat case_match].
  destruct (truthy_str (Some sid')); simpl; [|done].
  case_bool_decide; [|done]. intros [= ->].
  unfold mbind, State_bind, getActive, onDb, onActive, mret, State_ret, exec.
  rewrite Hget. simpl. by destruct (upsertEvent _ _ _).
Qed.

Lemma processFeature_existing wc ck now f ids t sid existing :
  dischargingSite f = Some sid →
  JsMap.get (eventKeyOf ck sid) (activeEvents t) = Some existing →
  let event := refreshEvent existing (parseFeature f) in
  processFeature wc ck now f ids t =
    ({[sid]} ∪ ids,
     {| db := exec (upsertEvent event now) (db t);
        activeEvents := JsMap.set (eventKeyOf ck sid) event (activeEvents t);
        eventQueue := eventQueue t |}).
Proof.
  unfold dischargingSite, processFeature. intros Hd Hget. revert Hd.
  generalize (parseFeature f) as parsed. intros parsed.
  destruct (p_siteId parsed) as [sid'|]; [|intros H; by repeat case_match].
  destruct (truthy_str (Some sid')); simpl; [|done].
  case_bool_decide; [|done]. intros [= ->].
  unfold mbind, State_bind, getActive, onDb, onActive, mret, State_ret, exec.
  rewrite Hget. simpl. by destruct (upsertEvent _ _ _).
Qed.

Lemma featureLoop_cons wc ck now f fs ids t :
  featureLoop wc ck now (f :: fs) ids t =
    featureLoop wc ck now fs (processFeature wc ck now f ids t).1
                             (processFeature wc ck now f ids t).2.
Proof.
  simpl. unfold mbind, State_bind. by destruct (processFeature _ _ _ _ _ _).
Qed.

(** The three ways an iteration can go. *)
Lemma processFeature_cases wc ck now f ids t :
  (dischargingSite f = None ∧ processFeature wc ck now f ids t = (ids, t))
  ∨ (∃ sid event,
       dischargingSite f = Some sid
       ∧ (JsMap.get (eventKeyOf ck sid) (activeEvents t) = None
          ∧ event = newEvent wc (eventKeyOf ck sid) sid (parseFeature f) now
          ∨ ∃ existing,
              JsMap.get (eventKeyOf ck sid) (activeEvents t) = Some existing
              ∧ event = refreshEvent existing (parseFeature f))
       ∧ processFeature wc ck now f ids t =
           ({[sid]} ∪ ids,
            {| db := exec (upsertEvent event now) (db t);
               activeEvents := JsMap.set (eventKeyOf ck sid) event (activeEvents t);
               eventQueue := eventQueue t |})).
Proof.
  destruct (dischargingSite f) as [sid|] eqn:Hd.
  - right. exists sid.
    destruct (JsMap.get (eventKeyOf ck sid) (activeEvents t)) as [existing|] eqn:Hg.
    + eexists. split_and!; [done| |by apply processFeature_existing].
      right. by exists existing.
    + eexists. split_and!; [done| |by apply processFeature_new].
      by left.
  - left. split; [done|]. by apply processFeature_skip.
Qed.
End feature_loop.

(** ** Maps that track the same events *)

Section same_tracking.
Implicit Types (m : list (string * Event)) (k : string) (ev : Event).

Lemma sameLifecycle_refl ev : sameLifecycle ev ev.
Proof. by repeat split. Qed.

Lemma sameLifecycle_trans a b c :
  sameLifecycle a b → sameLifecycle b c → sameLifecycle a c.
Proof. unfold sameLifecycle. intros ??. split_and!; destruct_and!; congruence. Qed.

Lemma sameLifecycle_refresh ev parsed : sameLifecycle ev (refreshEvent ev parsed).
Proof. by repeat split. Qed.

Lemma sameTracking_refl m : sameTracking m m.
Proof.
  unfold sameTracking. induction m; constructor; [|done].
  split; [done | apply sameLifecycle_refl].
Qed.

Lemma sameTracking_trans m1 m2 m3 :
  sameTracking m1 m2 → sameTracking m2 m3 → sameTracking m1 m3.
Proof.
  unfold sameTracking. intros H. revert m3.
  induction H as [|a b m1 m2 [Hk Hl] _ IH]; intros m3 H3; inv H3; constructor.
  - destruct_and!. split; [congruence | by eapply sameLifecycle_trans].
  - by apply IH.
Qed.

Lemma sameTracking_set k ev ev' m :
  JsMap.get k m = Some ev → sameLifecycle ev ev' →
  sameTracking m (JsMap.set k ev' m).
Proof.
  intros Hget Hl. induction m as [|[k0 v0] m IH]; simpl in *; [done|].
  destruct (decide (k = k0)) as [->|Hne].
  - injection Hget as ->. constructor; [done | apply sameTracking_refl].
  - constructor; [|by apply IH]. split; [done | apply sameLifecycle_refl].
Qed.

Lemma sameTracking_get k ev m m' :
  sameTracking m m' → JsMap.get k m = Some ev →
  ∃ ev', JsMap.get k m' = Some ev' ∧ sameLifecycle ev ev'.
Proof.
  induction 1 as [|[k1 v1] [k2 v2] m m' [Hk Hl] _ IH]; simpl in *; [done|].
  subst k2. destruct (decide (k = k1)); [|done].
  intros [= ->]. by exists v2.
Qed.

Lemma sameTracking_keys m m' : sameTracking m m' → JsMap.keys m = JsMap.keys m'.
Proof.
  unfold JsMap.keys.
  induction 1 as [|[k1 v1] [k2 v2] m m' [Hk Hl] _ IH]; csimpl in *; [done|].
  by f_equal.
Qed.

Lemma sameTracking_hasEnded ck ids m m' :
  sameTracking m m' →
  Forall (λ entry, hasEnded ck ids entry = false) m →
  Forall (λ entry, hasEnded ck ids entry = false) m'.
Proof.
  induction 1 as [|[k1 v1] [k2 v2] m m' [Hk Hl] _ IH]; [done|].
  intros [H1 H2]%Forall_cons. constructor; [|by apply IH].
  unfold hasEnded in *. simpl in *. destruct Hl as (_ & _ & <- & _). by subst.
Qed.

Lemma sameTracking_ok m m' :
  sameTracking m m' → Forall entry_ok m → Forall entry_ok m'.
Proof.
  induction 1 as [|[k1 v1] [k2 v2] m m' [Hk Hl] _ IH]; [done|].
  intros [H1 H2]%Forall_cons. constructor; [|by apply IH].
  unfold entry_ok, sameLifecycle in *. simpl in *. destruct_and!.
  split_and!; congruence.
Qed.
End same_tracking.

(** ** What the first loop does to the active events *)

Section feature_loop_facts.
Context (wc ck : string) (now : Z).
Implicit Types (t : EventTracker) (f : Feature) (fs : list Feature)
  (ids : gset string) (sid k : string).

Lemma featureLoop_app fs fs' ids t :
  featureLoop wc ck now (fs ++ fs') ids t =
    featureLoop wc ck now fs' (featureLoop wc ck now fs ids t).1
                              (featureLoop wc ck now fs ids t).2.
Proof.
  revert ids t. induction fs as [|f fs IH]; intros ids t; [done|].
  rewrite <- app_comm_cons, !featureLoop_cons. apply IH.
Qed.

(** A property of the tracker that every iteration keeps is kept by the
    loop. *)
Lemma featureLoop_invariant (P : EventTracker → Prop) fs ids t :
  (∀ f ids t, P t → P (processFeature wc ck now f ids t).2) →
  P t → P (featureLoop wc ck now fs ids t).2.
Proof.
  intros Hstep. revert ids t. induction fs as [|f fs IH]; intros ids t Ht; [done|].
  rewrite featureLoop_cons. by apply IH, Hstep.
Qed.

Lemma seenActive_cons f fs :
  seenActive (f :: fs) =
    match dischargingSite f with
    | Some sid => {[sid]} ∪ seenActive fs
    | None => seenActive fs
    end.
Proof. unfold seenActive. simpl. by destruct (dischargingSite f). Qed.

Lemma featureLoop_ids fs ids t :
  (featureLoop wc ck now fs ids t).1 = seenActive fs ∪ ids.
Proof.
  revert ids t. induction fs as [|f fs IH]; intros ids t.
  - unfold seenActive. simpl. set_solver.
  - rewrite featureLoop_cons, IH, seenActive_cons.
    destruct (processFeature_cases wc ck now f ids t)
      as [[Hd ->]|(sid & event & Hd & _ & ->)]; rewrite Hd; simpl; set_solver.
Qed.

Lemma featureLoop_queue fs ids t :
  eventQueue (featureLoop wc ck now fs ids t).2 = eventQueue t.
Proof.
  apply (featureLoop_invariant (λ t', eventQueue t' = eventQueue t)); [|done].
  intros f ids' t' Ht'.
  by destruct (processFeature_cases wc ck now f ids' t')
    as [[_ ->]|(sid & event & _ & _ & ->)].
Qed.

Lemma featureLoop_ok fs ids t :
  ck = companyKeyOf wc → no_colon ck = true →
  tracker_ok t → tracker_ok (featureLoop wc ck now fs ids t).2.
Proof.
  intros Hck Hcolon. apply featureLoop_invariant.
  clear t ids. intros f ids t [Hwf Hok].
  destruct (processFeature_cases wc ck now f ids t)
    as [[_ ->]|(sid & event & _ & Hev & ->)]; [done|].
  split; simpl; [by apply wf_set|]. apply Forall_set; [|done].
  destruct Hev as [[_ ->]|(existing & Hget & ->)].
  - unfold entry_ok. simpl. by subst ck.
  - apply get_Some_elem in Hget. rewrite Forall_forall in Hok.
    apply Hok in Hget. unfold entry_ok in *. simpl in *. done.
Qed.

(** An event that is active stays in the map, with its start time. *)
Lemma featureLoop_lifecycle fs ids t k ev :
  JsMap.get k (activeEvents t) = Some ev →
  ∃ ev', JsMap.get k (activeEvents (featureLoop wc ck now fs ids t).2) = Some ev'
         ∧ sameLifecycle ev ev'.
Proof.
  intros Hget.
  apply (featureLoop_invariant
           (λ t', ∃ ev', JsMap.get k (activeEvents t') = Some ev'
                         ∧ sameLifecycle ev ev')).
  - clear. intros f ids t (ev' & Hget & Hl).
    destruct (processFeature_cases wc ck now f ids t)
      as [[_ ->]|(sid & event & _ & Hev & ->)]; [by exists ev'|]. simpl.
    destruct (decide (eventKeyOf ck sid = k)) as [<-|Hne].
    + rewrite get_set_eq. exists event. split; [done|].
      destruct Hev as [[Hnone _]|(existing & Hex & ->)]; [congruence|].
      assert (existing = ev') as -> by congruence.
      eapply sameLifecycle_trans; [done | apply sameLifecycle_refresh].
    + rewrite get_set_ne by done. by exists ev'.
  - exists ev. split; [done | apply sameLifecycle_refl].
Qed.

(** The loop touches the keys of the sites it sees discharging only. *)
Lemma featureLoop_frame fs ids t k :
  (∀ sid, sid ∈ seenActive fs → eventKeyOf ck sid ≠ k) →
  JsMap.get k (activeEvents (featureLoop wc ck now fs ids t).2)
  = JsMap.get k (activeEvents t).
Proof.
  revert ids t. induction fs as [|f fs IH]; intros ids t Hk; [done|].
  rewrite featureLoop_cons. rewrite seenActive_cons in Hk.
  destruct (processFeature_cases wc ck now f ids t)
    as [[Hd ->]|(sid & event & Hd & _ & ->)]; rewrite Hd in Hk; simpl.
  - by apply IH.
  - rewrite IH by set_solver. simpl. apply get_set_ne, Hk. set_solver.
Qed.

(** Every site seen discharging has an entry when the loop is over. *)
Lemma featureLoop_seen fs ids t sid :
  sid ∈ seenActive fs →
  is_Some (JsMap.get (eventKeyOf ck sid)
                     (activeEvents (featureLoop wc ck now fs ids t).2)).
Proof.
  revert ids t. induction fs as [|f fs IH]; intros ids t Hin.
  - unfold seenActive in Hin. simpl in Hin. set_solver.
  - rewrite featureLoop_cons. rewrite seenActive_cons in Hin.
    destruct (processFeature_cases wc ck now f ids t)
      as [[Hd ->]|(sid' & event & Hd & _ & ->)]; rewrite Hd in Hin; simpl.
    + by apply IH.
    + destruct (decide (sid = sid')) as [->|Hne].
      * edestruct (featureLoop_lifecycle fs) as (ev' & -> & _); [|done].
        simpl. apply get_set_eq.
      * apply IH. set_solver.
Qed.

(** When every site seen discharging has its entry already, the loop
    creates nothing: it refreshes entries in place. *)
Lemma featureLoop_refresh_only fs ids t :
  (∀ sid, sid ∈ seenActive fs →
          is_Some (JsMap.get (eventKeyOf ck sid) (activeEvents t))) →
  sameTracking (activeEvents t)
               (activeEvents (featureLoop wc ck now fs ids t).2).
Proof.
  revert ids t. induction fs as [|f fs IH]; intros ids t Hall.
  - apply sameTracking_refl.
  - rewrite featureLoop_cons. rewrite seenActive_cons in Hall.
    destruct (processFeature_cases wc ck now f ids t)
      as [[Hd ->]|(sid & event & Hd & Hev & ->)]; rewrite Hd in Hall; simpl.
    + by apply IH.
    + destruct Hev as [[Hnone _]|(existing & Hex & ->)].
      { destruct (Hall sid) as [? ?]; [set_solver | congruence]. }
      assert (Hst : sameTracking (activeEvents t)
                      (JsMap.set (eventKeyOf ck sid)
                         (refreshEvent existing (parseFeature f))
                         (activeEvents t))).
      { eapply sameTracking_set; [done | apply sameLifecycle_refresh]. }
      eapply sameTracking_trans; [exact Hst|].
      apply (IH _ (Build_EventTracker _ _ _)). simpl.
      intros sid' Hin. destruct (Hall sid') as [ev Hev]; [set_solver|].
      destruct (sameTracking_get _ _ _ _ Hst Hev) as (ev' & Hev' & _).
      by exists ev'.
Qed.
End feature_loop_facts.

(** ** What the second loop does *)

Section end_loop_facts.
Context (ck : string) (now : Z) (A : gset string).
Implicit Types (t : EventTracker) (entry : string * Event)
  (entries : list (string * Event)).

Lemma checkEnded_kept entry t :
  hasEnded ck A entry = false → checkEnded ck now A entry t = ([], t).
Proof.
  unfold hasEnded, checkEnded. destruct entry as [k ev]. simpl.
  destruct (startsWith k _); simpl; [|done].
  by intros ->.
Qed.

Lemma checkEnded_ended k ev t :
  hasEnded ck A (k, ev) = true →
  checkEnded ck now A (k, ev) t =
    ([endEvent ev now],
     {| db := exec (upsertEvent (endEvent ev now) now) (db t);
        activeEvents := JsMap.delete k (activeEvents t);
        eventQueue := exec (addEvent (endEvent ev now) now) (eventQueue t) |}).
Proof.
  unfold hasEnded, checkEnded. simpl.
  destruct (startsWith k _); simpl; [|done]. intros ->.
  unfold generateDischargeSummary, mbind, State_bind, onQueue, onDb, onActive,
    mret, State_ret, exec.
  destruct (addEvent _ _ _) as [added q']. simpl.
  by destruct (upsertEvent _ _ _).
Qed.

Lemma endLoop_cons entry entries t :
  endLoop ck now A (entry :: entries) t =
    ((checkEnded ck now A entry t).1
       ++ (endLoop ck now A entries (checkEnded ck now A entry t).2).1,
     (endLoop ck now A entries (checkEnded ck now A entry t).2).2).
Proof.
  simpl. unfold mbind, State_bind, mret, State_ret.
  destruct (checkEnded _ _ _ _ _) as [ended t']. simpl.
  by destruct (endLoop _ _ _ _ _).
Qed.

(** When no entry has ended the loop does nothing. *)
Lemma endLoop_none entries t :
  Forall (λ entry, hasEnded ck A entry = false) entries →
  endLoop ck now A entries t = ([], t).
Proof.
  induction 1 as [|entry entries Hentry _ IH]; [done|].
  rewrite endLoop_cons, checkEnded_kept by done. simpl. by rewrite IH.
Qed.

(** The events that the loop ends. *)
Lemma endLoop_ended entries t :
  (endLoop ck now A entries t).1 =
    (λ entry, endEvent entry.2 now)
      <$> filter (λ entry, hasEnded ck A entry = true) entries.
Proof.
  revert t. induction entries as [|[k ev] entries IH]; intros t; [done|].
  rewrite endLoop_cons, IH, filter_cons.
  destruct (hasEnded ck A (k, ev)) eqn:Hended.
  - rewrite checkEnded_ended by done. by rewrite decide_True.
  - rewrite checkEnded_kept by done. by rewrite decide_False.
Qed.

Lemma delete_middle {V} k (v : V) (m1 m2 : list (string * V)) :
  k ∉ JsMap.keys m1 → JsMap.delete k (m1 ++ (k, v) :: m2) = m1 ++ m2.
Proof.
  unfold JsMap.keys. induction m1 as [|[k' v'] m1 IH]; simpl.
  - intros _. by rewrite decide_True.
  - intros [Hne Hnotin]%not_elem_of_cons. rewrite decide_False by done.
    f_equal. by apply IH.
Qed.

(** The entries that the loop leaves: those that have not ended, in their
    order. *)
Lemma endLoop_active_gen kept entries t :
  activeEvents t = kept ++ entries → JsMap.wf (kept ++ entries) →
  activeEvents (endLoop ck now A entries t).2 =
    kept ++ filter (λ entry, hasEnded ck A entry = false) entries.
Proof.
  revert kept t. induction entries as [|[k ev] entries IH]; intros kept t Ht Hwf.
  - done.
  - rewrite endLoop_cons, filter_cons. cbn [snd].
    destruct (hasEnded ck A (k, ev)) eqn:Hended.
    + rewrite checkEnded_ended by done. rewrite decide_False by done.
      unfold JsMap.wf, JsMap.keys in Hwf. rewrite fmap_app in Hwf.
      apply NoDup_app in Hwf as (Hk1 & Hdisj & [Hk2 Hk3]%NoDup_cons).
      apply IH; simpl.
      * rewrite Ht. apply delete_middle. intros Hin.
        apply (Hdisj k Hin). simpl. apply elem_of_cons. by left.
      * unfold JsMap.wf, JsMap.keys. rewrite fmap_app.
        apply NoDup_app. split_and!; [done| |done].
        intros x Hx Hx'. apply (Hdisj x Hx). simpl. apply elem_of_cons. by right.
    + rewrite checkEnded_kept by done. rewrite decide_True by done. simpl.
      rewrite (IH (kept ++ [(k, ev)])).
      * by rewrite <- app_assoc.
      * by rewrite <- app_assoc.
      * by rewrite <- app_assoc.
Qed.

Lemma endLoop_active t :
  JsMap.wf (activeEvents t) →
  activeEvents (endLoop ck now A (activeEvents t) t).2 =
    filter (λ entry, hasEnded ck A entry = false) (activeEvents t).
Proof. intros Hwf. by apply (endLoop_active_gen []). Qed.

(** Looking up in a map from which entries that have ended are gone. *)
Lemma get_filter_kept k ev (m : list (string * Event)) :
  JsMap.get k m = Some ev → hasEnded ck A (k, ev) = false →
  JsMap.get k (filter (λ entry, hasEnded ck A entry = false) m) = Some ev.
Proof.
  induction m as [|[k' v'] m IH]; simpl; [done|]. rewrite filter_cons.
  destruct (decide (k = k')) as [->|Hne].
  - intros [= ->] Hkept. rewrite decide_True by done. simpl.
    by rewrite decide_True.
  - intros Hget Hkept. destruct (decide _); simpl; [|by apply IH].
    rewrite decide_False by done. by apply IH.
Qed.

(** The loop touches the keys of the company only. *)
Lemma get_filter_other k (m : list (string * Event)) :
  startsWith k (ck +:+ ":") = false →
  JsMap.get k (filter (λ entry, hasEnded ck A entry = false) m) = JsMap.get k m.
Proof.
  intros Hk. induction m as [|[k' v'] m IH]; simpl; [done|]. rewrite filter_cons.
  destruct (decide (k = k')) as [<-|Hne].
  - rewrite decide_True; [simpl; by rewrite decide_True|].
    unfold hasEnded. simpl. by rewrite Hk.
  - destruct (decide _); simpl; [|done]. by rewrite decide_False.
Qed.
End end_loop_facts.

(** ** One call of [processFeatures] *)

Section process_features.
Implicit Types (t : EventTracker) (f : Feature) (fs : list Feature)
  (wc sid k : string) (now : Z).

Lemma elem_of_seenActive sid fs :
  sid ∈ seenActive fs ↔ ∃ f, f ∈ fs ∧ dischargingSite f = Some sid.
Proof. unfold seenActive. rewrite elem_of_list_to_set, list_elem_of_omap. done. Qed.

Lemma featureLoop_wf wc ck now fs ids t :
  JsMap.wf (activeEvents t) →
  JsMap.wf (activeEvents (featureLoop wc ck now fs ids t).2).
Proof.
  apply (featureLoop_invariant wc ck now (λ t', JsMap.wf (activeEvents t'))).
  clear. intros f ids t Hwf.
  destruct (processFeature_cases wc ck now f ids t)
    as [[_ ->]|(sid & event & _ & _ & ->)]; [done|].
  simpl. by apply wf_set.
Qed.

Lemma processFeatures_unfold wc fs now t :
  processFeatures wc fs now t =
    endLoop (companyKeyOf wc) now (seenActive fs)
            (activeEvents (afterFeatures wc fs now t))
            (afterFeatures wc fs now t).
Proof.
  unfold processFeatures, afterFeatures, mbind, State_bind, getActive.
  pose proof (featureLoop_ids wc (companyKeyOf wc) now fs ∅ t) as Hids.
  destruct (featureLoop _ _ _ _ _ _) as [ids t']. simpl in *.
  rewrite Hids. by rewrite (right_id_L ∅ (∪)).
Qed.

(** The events ended by the call, and the entries it leaves. *)
Lemma processFeatures_ended wc fs now t :
  eval (processFeatures wc fs now) t =
    (λ entry, endEvent entry.2 now)
      <$> filter (λ entry, hasEnded (companyKeyOf wc) (seenActive fs) entry = true)
                 (activeEvents (afterFeatures wc fs now t)).
Proof. unfold eval. rewrite processFeatures_unfold. apply endLoop_ended. Qed.

Lemma processFeatures_active wc fs now t :
  JsMap.wf (activeEvents t) →
  activeEvents (exec (processFeatures wc fs now) t) =
    filter (λ entry, hasEnded (companyKeyOf wc) (seenActive fs) entry = false)
           (activeEvents (afterFeatures wc fs now t)).
Proof.
  intros Hwf. unfold exec. rewrite processFeatures_unfold.
  apply endLoop_active. by apply featureLoop_wf.
Qed.

Lemma processFeatures_ok wc fs now t :
  no_colon (companyKeyOf wc) = true →
  tracker_ok t → tracker_ok (exec (processFeatures wc fs now) t).
Proof.
  intros Hcolon Hok.
  assert (Hok' : tracker_ok (afterFeatures wc fs now t))
    by (by apply featureLoop_ok).
  destruct Hok as [Hwf _], Hok' as [Hwf' Hentries].
  unfold tracker_ok. rewrite processFeatures_active by done. split.
  - unfold JsMap.wf, JsMap.keys in *. eapply sublist_NoDup; [exact Hwf'|].
    apply fmap_sublist, sublist_filter.
  - rewrite Forall_forall in *. intros kv [_ Hin]%list_elem_of_filter. auto.
Qed.
End process_features.

(** ** Rounding to minutes *)

Lemma Math_round_div_nearest (n d r : Z) :
  0 < d → r = Math_round_div n d →
  d * (2 * r - 1) ≤ 2 * n < d * (2 * r + 1).
Proof.
  intros Hd ->. unfold Math_round_div.
  pose proof (Z.div_mod (2 * n + d) (2 * d)) as Hdm.
  pose proof (Z.mod_pos_bound (2 * n + d) (2 * d)) as Hb.
  nia.
Qed.

Lemma Math_round_div_nonneg (n d : Z) :
  0 < d → 0 ≤ Math_round_div n d ↔ - d ≤ 2 * n.
Proof.
  intros Hd. unfold Math_round_div. split.
  - intros H. pose proof (Math_round_div_nearest n d _ Hd eq_refl) as Hn.
    unfold Math_round_div in Hn. nia.
  - intros H. apply Z.div_pos; lia.
Qed.

(** C2, as the code has it.  An event that [processFeatures] ends is
    completed, ends at the instant of the call, and lasts the number of whole
    minutes nearest to [endTime - startTime] (halves towards +infinity).  The
    value is recorded as computed: it is negative exactly when the start time
    lies more than thirty seconds after the end time. *)
Theorem C2_completed_duration_is_rounded (t : EventTracker) (wc : string)
    (features : list Feature) (now : Z) (e : Event) :
  e ∈ eval (processFeatures wc features now) t →
  status e = completed
  ∧ endTime e = Some now
  ∧ ∃ d, durationMinutes e = Some d
         ∧ d = Math_round_div (now - startTime e) 60000
         ∧ 60000 * (2 * d - 1) ≤ 2 * (now - startTime e) < 60000 * (2 * d + 1)
         ∧ (0 ≤ d ↔ startTime e ≤ now + 30000).
Proof.
  rewrite processFeatures_ended. intros ([k ev] & -> & _)%list_elem_of_fmap.
  simpl. split_and!; [done..|].
  exists (Math_round_div (now - startTime ev) 60000).
  split; [reflexivity|]. split; [reflexivity|]. split.
  - by apply (Math_round_div_nearest (now - startTime ev) 60000).
  - rewrite Math_round_div_nonneg by done. lia.
Qed.

Lemma C2_completed_duration_is_rounded_witness :
  let e := sampleEvent "TW1" 1180000 1060000 in
  e ∈ eval (processFeatures "Thames Water" stoppedSnapshot 1060000) trackerAfterSkewed
  ∧ status e = completed
  ∧ endTime e = Some 1060000.
Proof.
  intros e.
  assert (He : e ∈ eval (processFeatures "Thames Water" stoppedSnapshot 1060000)
                        trackerAfterSkewed).
  { vm_compute. apply elem_of_cons. by left. }
  destruct (C2_completed_duration_is_rounded _ _ _ _ _ He) as (Hs & Hend & _).
  split_and!; [exact He | exact Hs | exact Hend].
Defined.

(** C2 as stated fails: the duration is not clamped.  The feed reports a
    start that lies three minutes ahead of the clock; when the site stops
    discharging one minute later the event is completed with a duration of
    minus two minutes, and so it is stored. *)
Lemma C2_negative_duration_recorded :
  let r := processFeatures "Thames Water" stoppedSnapshot 1060000 trackerAfterSkewed in
  (λ e, (status e, startTime e, endTime e, durationMinutes e)) <$> r.1
    = [(completed, 1180000, Some 1060000, Some (-2))]
  ∧ (λ e, (db_status e, db_durationMinutes e)) <$> data_events (db r.2)
    = [(completed, Some (-2))].
Proof. split; reflexivity. Qed.

(** C3, as the code has it.  When a snapshot shows a site discharging whose
    key has no active entry, the call leaves an active event under that key
    whose start time is the [StatusStart] of the first feature that shows the
    site discharging, whenever that attribute is a number other than zero, be
    it in the future or far in the past; the start time is the instant of the
    call when the attribute is missing or zero. *)
Theorem C3_new_event_start_time (t : EventTracker) (wc : string)
    (pre post : list Feature) (f : Feature) (sid : string) (now : Z) :
  JsMap.wf (activeEvents t) →
  Id (attributes f) = Some sid → sid ≠ "" → Status (attributes f) = Some 1 →
  (∀ g, g ∈ pre → dischargingSite g ≠ Some sid) →
  JsMap.get (eventKeyOf (companyKeyOf wc) sid) (activeEvents t) = None →
  let t' := exec (processFeatures wc (pre ++ f :: post) now) t in
  ∃ ev, JsMap.get (eventKeyOf (companyKeyOf wc) sid) (activeEvents t') = Some ev
        ∧ status ev = active
        ∧ siteId ev = sid
        ∧ endTime ev = None
        ∧ startTime ev = match StatusStart (attributes f) with
                         | Some s => if s =? 0 then now else s
                         | None => now
                         end.
Proof.
  intros Hwf HId Hsid Hstatus Hpre Hnone t'.
  assert (Hd : dischargingSite f = Some sid) by (by apply dischargingSite_Some).
  set (ck := companyKeyOf wc) in *.
  (* the state when the loop reaches [f] *)
  set (r1 := featureLoop wc ck now pre ∅ t).
  assert (Hnone1 : JsMap.get (eventKeyOf ck sid) (activeEvents r1.2) = None).
  { subst r1. rewrite featureLoop_frame; [done|].
    intros sid' (g & Hg & Hdg)%elem_of_seenActive Heq.
    apply eventKeyOf_site_inj in Heq as ->. by apply (Hpre g). }
  (* the entry when the first loop is over *)
  assert (Hafter : ∃ ev, JsMap.get (eventKeyOf ck sid)
                           (activeEvents (afterFeatures wc (pre ++ f :: post) now t))
                         = Some ev
                         ∧ sameLifecycle
                             (newEvent wc (eventKeyOf ck sid) sid (parseFeature f) now)
                             ev).
  { unfold afterFeatures. fold ck. rewrite featureLoop_app, featureLoop_cons.
    fold r1. rewrite (processFeature_new wc ck now f r1.1 r1.2 sid Hd Hnone1).
    apply featureLoop_lifecycle. simpl. apply get_set_eq. }
  destruct Hafter as (ev & Hget & Hl).
  exists ev. subst t'. rewrite processFeatures_active by done. fold ck.
  destruct Hl as (_ & _ & Hsite & _ & _ & _ & Hstart & Hend & _ & Hst).
  simpl in *. split_and!; try done.
  apply get_filter_kept; [done|].
  unfold hasEnded. simpl. rewrite <- Hsite.
  rewrite (bool_decide_eq_false_2 (sid ∉ _)); [apply andb_false_r|].
  intros Hnot. apply Hnot, elem_of_seenActive. exists f. split; [|done].
  apply elem_of_app. right. apply elem_of_cons. by left.
Qed.

Lemma C3_new_event_start_time_witness :
  ∃ ev, JsMap.get "thames_water:TW1" (activeEvents trackerAfterSkewed) = Some ev
        ∧ status ev = active
        ∧ startTime ev = 1180000.
Proof.
  destruct (C3_new_event_start_time (EventTracker_new EventQueue_new)
              "Thames Water" [] [] (sampleFeature "TW1" 1 (Some 1180000))
              "TW1" 1000000)
    as (ev & Hget & Hst & _ & _ & Hstart).
  - apply NoDup_nil_2.
  - reflexivity.
  - discriminate.
  - reflexivity.
  - intros g Hg. by apply elem_of_nil in Hg.
  - reflexivity.
  - exists ev. split_and!; [exact Hget | exact Hst | exact Hstart].
Defined.

(** C3 as stated fails: a start reported in the future is not replaced by
    the instant of ingestion.  At 1000000 the feed reports a start at
    1180000; the event is created with that start time, where the
    specification asks for 1000000. *)
Lemma C3_future_start_is_kept :
  let now := 1000000 in
  let reported := StatusStart (attributes (sampleFeature "TW1" 1 (Some 1180000))) in
  JsMap.get "thames_water:TW1" (activeEvents (EventTracker_new EventQueue_new)) = None
  ∧ reported = Some 1180000
  ∧ now < 1180000
  ∧ specStartTime reported now = now
  ∧ startTime <$> JsMap.get "thames_water:TW1" (activeEvents trackerAfterSkewed)
    = Some 1180000.
Proof. split_and!; reflexivity. Qed.

(** ** Replaying a snapshot *)

Lemma tracker_ok_new q : tracker_ok (EventTracker_new q).
Proof. split; [apply NoDup_nil_2 | constructor]. Qed.

Lemma sameTracking_get_None k m m' :
  sameTracking m m' → JsMap.get k m = None → JsMap.get k m' = None.
Proof.
  intros Hst. rewrite !get_None_keys. by rewrite (sameTracking_keys _ _ Hst).
Qed.

(** After a call, no entry of the company is left whose site the snapshot
    did not show discharging, and every site it showed has its entry. *)
Lemma processFeatures_settled (t : EventTracker) (wc : string)
    (features : list Feature) (now : Z) :
  tracker_ok t → no_colon (companyKeyOf wc) = true →
  let t1 := exec (processFeatures wc features now) t in
  Forall (λ entry, hasEnded (companyKeyOf wc) (seenActive features) entry = false)
         (activeEvents t1)
  ∧ ∀ sid, sid ∈ seenActive features →
           is_Some (JsMap.get (eventKeyOf (companyKeyOf wc) sid) (activeEvents t1)).
Proof.
  intros Hok Hcolon t1. subst t1.
  assert (Hok' : tracker_ok (afterFeatures wc features now t))
    by (by apply featureLoop_ok).
  rewrite processFeatures_active by apply Hok. split.
  - apply Forall_forall. by intros entry [? _]%list_elem_of_filter.
  - intros sid Hsid.
    destruct (featureLoop_seen wc (companyKeyOf wc) now features ∅ t sid Hsid)
      as [ev Hev].
    exists ev. apply get_filter_kept; [exact Hev|].
    destruct Hok' as [_ Hentries]. rewrite Forall_forall in Hentries.
    destruct (Hentries _ (get_Some_elem _ _ _ Hev)) as (_ & _ & Hkey & Hc).
    simpl in *. apply eventKeyOf_inj in Hkey as [_ Hsite]; [|done..].
    unfold hasEnded. simpl. rewrite <- Hsite.
    rewrite (bool_decide_eq_false_2 (sid ∉ _)); [apply andb_false_r|]. tauto.
Qed.

(** C6.  Ingesting a snapshot again right after it was ingested ends no
    event, offers nothing to the queue and creates no event: the active
    events are the same, under the same keys in the same order, with the same
    start times.  The tracker is in a state that the polling reaches
    ([tracker_ok]) and the company is one whose key has no colon, as all
    configured companies are. *)
Theorem C6_replayed_snapshot_changes_nothing (t : EventTracker) (wc : string)
    (features : list Feature) (now1 now2 : Z) :
  tracker_ok t → no_colon (companyKeyOf wc) = true →
  let t1 := exec (processFeatures wc features now1) t in
  let t2 := exec (processFeatures wc features now2) t1 in
  eval (processFeatures wc features now2) t1 = []
  ∧ eventQueue t2 = eventQueue t1
  ∧ JsMap.keys (activeEvents t2) = JsMap.keys (activeEvents t1)
  ∧ sameTracking (activeEvents t1) (activeEvents t2)
  ∧ ∀ k, startTime <$> JsMap.get k (activeEvents t2)
         = startTime <$> JsMap.get k (activeEvents t1).
Proof.
  intros Hok Hcolon t1 t2.
  destruct (processFeatures_settled t wc features now1 Hok Hcolon)
    as [Hkept Hseen]. fold t1 in Hkept, Hseen.
  assert (Hst : sameTracking (activeEvents t1)
                  (activeEvents (afterFeatures wc features now2 t1)))
    by (by apply featureLoop_refresh_only).
  assert (Hrun : processFeatures wc features now2 t1
                 = ([], afterFeatures wc features now2 t1)).
  { rewrite processFeatures_unfold. apply endLoop_none.
    by eapply sameTracking_hasEnded. }
  subst t2. unfold eval, exec. rewrite Hrun. simpl.
  split_and!.
  - done.
  - apply featureLoop_queue.
  - symmetry. by apply sameTracking_keys.
  - done.
  - intros k. destruct (JsMap.get k (activeEvents t1)) as [ev|] eqn:Hget.
    + destruct (sameTracking_get _ _ _ _ Hst Hget) as (ev' & -> & Hl).
      simpl. f_equal. symmetry. apply Hl.
    + by rewrite (sameTracking_get_None _ _ _ Hst Hget).
Qed.

Lemma C6_replayed_snapshot_changes_nothing_witness :
  eval (processFeatures "Thames Water" skewedSnapshot 1060000) trackerAfterSkewed = []
  ∧ JsMap.keys (activeEvents
                  (exec (processFeatures "Thames Water" skewedSnapshot 1060000)
                        trackerAfterSkewed))
    = JsMap.keys (activeEvents trackerAfterSkewed).
Proof.
  destruct (C6_replayed_snapshot_changes_nothing
              (EventTracker_new EventQueue_new) "Thames Water" skewedSnapshot
              1000000 1060000 (tracker_ok_new _) eq_refl)
    as (Hnone & _ & Hkeys & _).
  split; [exact Hnone | exact Hkeys].
Defined.

(** ** The polling tick *)

Section polling.
Implicit Types (t : EventTracker) (k : string) (c d : Company)
  (cs : list Company).

(** A key starts with the prefix of one colon-free company at most. *)
Lemma prefix_two_companies (a b k : string) :
  no_colon a = true → no_colon b = true →
  String.prefix (a +:+ ":") k = true → String.prefix (b +:+ ":") k = true →
  a = b.
Proof.
  revert b k. induction a as [|x a IH]; intros [|y b] [|z k]; try done.
  - intros _ [Hy _]%andb_true_iff. rewrite app_nil, app_cons.
    change ":" with (String ":" "") at 1. rewrite !prefix_cons_cons.
    destruct (decide (":"%char = z)) as [<-|]; [|done].
    destruct (decide (y = ":"%char)) as [->|]; [|done]. by vm_compute in Hy.
  - intros [Hx _]%andb_true_iff _. rewrite app_nil, app_cons.
    change ":" with (String ":" "") at 2. rewrite !prefix_cons_cons.
    destruct (decide (x = z)) as [->|]; [|done].
    destruct (decide (":"%char = z)) as [<-|]; [|done]. by vm_compute in Hx.
  - intros [_ Ha]%andb_true_iff [_ Hb]%andb_true_iff.
    rewrite !app_cons, !prefix_cons_cons.
    destruct (decide (x = z)) as [->|]; [|done].
    destruct (decide (y = z)) as [->|]; [|done].
    intros ??. f_equal. by eapply IH.
Qed.

Lemma startsWith_eventKeyOf_ne (ck sid k : string) :
  startsWith k (ck +:+ ":") = false → eventKeyOf ck sid ≠ k.
Proof. intros Hk <-. by rewrite startsWith_eventKeyOf in Hk. Qed.

(** A call for one company leaves the keys of the others alone. *)
Lemma processFeatures_other_company t wc fs now k :
  JsMap.wf (activeEvents t) →
  startsWith k (companyKeyOf wc +:+ ":") = false →
  JsMap.get k (activeEvents (exec (processFeatures wc fs now) t))
  = JsMap.get k (activeEvents t).
Proof.
  intros Hwf Hk. rewrite processFeatures_active, get_filter_other by done.
  apply featureLoop_frame. intros sid _. by apply startsWith_eventKeyOf_ne.
Qed.

(** The events that a call ends are events of its company. *)
Lemma processFeatures_ended_company t wc fs now e :
  tracker_ok t → no_colon (companyKeyOf wc) = true →
  e ∈ eval (processFeatures wc fs now) t →
  startsWith (id e) (companyKeyOf wc +:+ ":") = true.
Proof.
  intros Hok Hcolon. rewrite processFeatures_ended.
  intros ([k ev] & -> & [Hended Hin]%list_elem_of_filter)%list_elem_of_fmap.
  assert (Hok' : tracker_ok (afterFeatures wc fs now t))
    by (by apply featureLoop_ok).
  destruct Hok' as [_ Hentries]. rewrite Forall_forall in Hentries.
  destruct (Hentries _ Hin) as (Hid & _). simpl in *. rewrite Hid.
  unfold hasEnded in Hended. simpl in Hended.
  by apply andb_true_iff in Hended as [? _].
Qed.

Lemma checkCompany_notProcessed fetch clock c t :
  notProcessed (fetch c) → checkCompany fetch clock c t = ([], t).
Proof. unfold checkCompany. by intros [->|[->| ->]]. Qed.

Lemma checkCompany_cases fetch clock c t :
  checkCompany fetch clock c t = ([], t)
  ∨ ∃ fs, checkCompany fetch clock c t
          = processFeatures (name c) fs (clock c) t.
Proof.
  unfold checkCompany. destruct (fetch c) as [|[fs|]]; [by left| |by left].
  destruct (0 <? length fs)%nat; [right; by exists fs | by left].
Qed.

Lemma companyLoop_cons fetch clock c cs t :
  companyLoop fetch clock (c :: cs) t =
    ((checkCompany fetch clock c t).1
       ++ (companyLoop fetch clock cs (checkCompany fetch clock c t).2).1,
     (companyLoop fetch clock cs (checkCompany fetch clock c t).2).2).
Proof.
  simpl. unfold mbind, State_bind, mret, State_ret.
  destruct (checkCompany _ _ _ _) as [ended t']. simpl.
  by destruct (companyLoop _ _ _ _).
Qed.

Lemma checkCompany_ok fetch clock c t :
  no_colon (companyKeyOf (name c)) = true →
  tracker_ok t → tracker_ok (checkCompany fetch clock c t).2.
Proof.
  intros Hc Hok. destruct (checkCompany_cases fetch clock c t) as [->|[fs ->]].
  - done.
  - by apply processFeatures_ok.
Qed.

Lemma companyLoop_ok fetch clock cs t :
  Forall (λ d, no_colon (companyKeyOf (name d)) = true) cs →
  tracker_ok t → tracker_ok (companyLoop fetch clock cs t).2.
Proof.
  intros Hcs. revert t. induction Hcs as [|c cs Hc _ IH]; intros t Hok; [done|].
  rewrite companyLoop_cons. simpl. by apply IH, checkCompany_ok.
Qed.

(** The tick leaves alone the keys under a prefix [p] which is that of no
    company that is processed, and ends no event under it. *)
Lemma companyLoop_frame fetch clock cs (p : string) t :
  no_colon p = true →
  Forall (λ d, no_colon (companyKeyOf (name d)) = true) cs →
  (∀ d, d ∈ cs → companyKeyOf (name d) = p → notProcessed (fetch d)) →
  tracker_ok t →
  (∀ k, startsWith k (p +:+ ":") = true →
        JsMap.get k (activeEvents (companyLoop fetch clock cs t).2)
        = JsMap.get k (activeEvents t))
  ∧ (∀ e, e ∈ (companyLoop fetch clock cs t).1 →
          startsWith (id e) (p +:+ ":") = false).
Proof.
  intros Hp Hcs. revert t.
  induction Hcs as [|c cs Hc Hcs IH]; intros t Hfail Hok.
  - split; [done|]. intros e He. by apply elem_of_nil in He.
  - rewrite companyLoop_cons. simpl.
    assert (Hok1 : tracker_ok (checkCompany fetch clock c t).2)
      by (by apply checkCompany_ok).
    destruct (IH (checkCompany fetch clock c t).2) as [IHget IHended];
      [intros d Hd; apply Hfail, elem_of_cons; by right | done |].
    assert (Hother : companyKeyOf (name c) ≠ p →
              ∀ k, startsWith k (p +:+ ":") = true →
                   startsWith k (companyKeyOf (name c) +:+ ":") = false).
    { intros Hne k Hk. unfold startsWith in *.
      destruct (String.prefix (companyKeyOf (name c) +:+ ":") k) eqn:Hk'; [|done].
      destruct Hne. by eapply prefix_two_companies. }
    assert (Hstep :
      (∀ k, startsWith k (p +:+ ":") = true →
            JsMap.get k (activeEvents (checkCompany fetch clock c t).2)
            = JsMap.get k (activeEvents t))
      ∧ (∀ e, e ∈ (checkCompany fetch clock c t).1 →
              startsWith (id e) (p +:+ ":") = false)).
    { destruct (checkCompany_cases fetch clock c t) as [->|[fs Hrun]].
      { split; [done|]. intros e He. by apply elem_of_nil in He. }
      destruct (decide (companyKeyOf (name c) = p)) as [Heq|Hne].
      { rewrite checkCompany_notProcessed
          by (apply Hfail; [apply elem_of_cons; by left | done]).
        split; [done|]. intros e He. by apply elem_of_nil in He. }
      rewrite Hrun. split.
      - intros k Hk. apply processFeatures_other_company; [apply Hok | auto].
      - intros e He.
        apply (processFeatures_ended_company t _ _ _ _ Hok Hc) in He.
        destruct (startsWith (id e) (p +:+ ":")) eqn:Hpe; [|done].
        apply (Hother Hne) in Hpe. congruence. }
    destruct Hstep as [Hget Hended]. split.
    + intros k Hk. rewrite IHget by done. by apply Hget.
    + intros e [He|He]%elem_of_app; auto.
Qed.

Lemma companies_colon_free :
  Forall (λ d, no_colon (companyKeyOf (name d)) = true) (WATER_COMPANIES.*2).
Proof. repeat constructor. Qed.

Lemma companies_distinct_keys :
  NoDup ((λ d, companyKeyOf (name d)) <$> WATER_COMPANIES.*2).
Proof. apply (bool_decide_unpack _). by vm_compute. Qed.

Lemma NoDup_fmap_same {A B} (g : A → B) (l : list A) x y :
  NoDup (g <$> l) → x ∈ l → y ∈ l → g x = g y → x = y.
Proof.
  induction l as [|a l IH]; csimpl; intros Hnd Hx Hy Hg.
  - by apply elem_of_nil in Hx.
  - apply NoDup_cons in Hnd as [Hnotin Hnd].
    apply elem_of_cons in Hx as [->|Hx], Hy as [->|Hy]; [done| | |by apply IH].
    + destruct Hnotin. rewrite Hg. by apply list_elem_of_fmap_2.
    + destruct Hnotin. rewrite <- Hg. by apply list_elem_of_fmap_2.
Qed.

Lemma checkAPI_ok fetch clock t :
  tracker_ok t → tracker_ok (exec (checkAPI fetch clock) t).
Proof. apply companyLoop_ok, companies_colon_free. Qed.
End polling.

(** C10.  When the fetch for a configured company throws, or returns no
    feature list or an empty one, [checkAPI] does not call [processFeatures]
    for it, and the tick, which goes on with the other companies, creates,
    changes and removes no entry under the keys of that company and ends none
    of its events. *)
Theorem C10_failed_fetch_leaves_company_untouched (t : EventTracker)
    (fetch : Company → Fetched) (clock : Company → Z) (company : Company) :
  tracker_ok t →
  company ∈ WATER_COMPANIES.*2 →
  fetch company = Rejected ∨ fetch company = Resolved None
    ∨ fetch company = Resolved (Some []) →
  let p := companyKeyOf (name company) +:+ ":" in
  let t' := exec (checkAPI fetch clock) t in
  (∀ s, checkCompany fetch clock company s = ([], s))
  ∧ (∀ k, startsWith k p = true →
          JsMap.get k (activeEvents t') = JsMap.get k (activeEvents t))
  ∧ (∀ e, e ∈ eval (checkAPI fetch clock) t → startsWith (id e) p = false)
  ∧ tracker_ok t'.
Proof.
  intros Hok Hin Hfail p t'. subst p t'.
  pose proof companies_colon_free as Hfree.
  assert (Hc : no_colon (companyKeyOf (name company)) = true).
  { rewrite Forall_forall in Hfree. by apply Hfree. }
  destruct (companyLoop_frame fetch clock (WATER_COMPANIES.*2)
              (companyKeyOf (name company)) t Hc Hfree) as [Hget Hended];
    [|done|].
  { intros d Hd Heq.
    assert (d = company) as ->; [|done].
    by apply (NoDup_fmap_same (λ d, companyKeyOf (name d)) (WATER_COMPANIES.*2)
                _ _ companies_distinct_keys). }
  split_and!.
  - intros s. by apply checkCompany_notProcessed.
  - exact Hget.
  - exact Hended.
  - by apply checkAPI_ok.
Qed.

Lemma C10_failed_fetch_leaves_company_untouched_witness :
  JsMap.get "thames_water:TW1"
            (activeEvents (exec (checkAPI thamesDown (λ _, 1060000)) trackerAfterSkewed))
  = JsMap.get "thames_water:TW1" (activeEvents trackerAfterSkewed)
  ∧ startsWith "thames_water:TW1" (companyKeyOf (name thamesWater) +:+ ":") = true.
Proof.
  destruct (C10_failed_fetch_leaves_company_untouched trackerAfterSkewed
              thamesDown (λ _, 1060000) thamesWater) as (_ & Hget & _).
  - apply processFeatures_ok; [reflexivity | apply tracker_ok_new].
  - apply elem_of_cons. right. apply elem_of_cons. by left.
  - left. reflexivity.
  - split; [apply Hget|]; reflexivity.
Defined.

(** ** The publishing cycle *)

Section post_cycle.
Implicit Types (s : PostScheduler) (c : Cycle) (now : Z)
  (batch : list QueueEntry).

Lemma afterReset_queue now s : queue (afterReset now s) = queue s.
Proof.
  unfold afterReset, exec, resetDailyCounterIfNeeded. by case_bool_decide.
Qed.




(** A cycle that does not get to the successful tweet changes nothing but
    the daily counter. *)
Lemma postCycle_failed onPosted c now s :
  succeeded c = false → postCycle onPosted c now s = (tt, afterReset now s).
Proof.
  intros Hc. unfold postCycle, afterReset, exec, mbind, State_bind,
    mret, State_ret, onSchedulerQueue, getPostableEvents.
  destruct (resetDailyCounterIfNeeded now s) as [[] [n m d q]]. simpl.
  case_bool_decide; [done|]. unfold succeeded in Hc.
  destruct (generateCycleData c) as [[]|]; try done.
  destruct (publishToGitHub c) as [[]|]; try done.
  destruct (isConfigured c); [|by destruct (tweet c) as [[]|]].
  by destruct (tweet c) as [[]|].
Qed.

(** A cycle that gets there counts the post and hands the batch over. *)
Lemma postCycle_succeeded onPosted c now s :
  succeeded c = true → eval getPostableEvents (queue s) ≠ [] →
  postCycle onPosted c now s =
    onPosted (eval getPostableEvents (queue s))
             (exec incrPostsToday (afterReset now s)).
Proof.
  intros Hc Hbatch.
  unfold postCycle, mbind, State_bind, mret, State_ret, onSchedulerQueue.
  pose proof (afterReset_queue now s) as Hq. unfold afterReset, exec in *.
  destruct (resetDailyCounterIfNeeded now s) as [[] s0]. simpl in *.
  rewrite Hq. unfold eval in Hbatch. simpl in *.
  rewrite bool_decide_eq_false_2
    by (by intros ?%nil_length_inv).
  unfold succeeded in Hc.
  destruct (generateCycleData c) as [[]|]; try done.
  destruct (publishToGitHub c) as [[]|]; try done.
  destruct (tweet c) as [[]|]; try done. rewrite Hc.
  unfold incrPostsToday. simpl. by destruct s0; simpl in *; subst.
Qed.

Lemma fixed_markBatch batch s :
  FixedScheduler.markBatch batch s =
    (tt, {| postsToday := postsToday s; maxPostsPerDay := maxPostsPerDay s;
            lastPostDate := lastPostDate s;
            queue := {| events := events (queue s);
                        postedEvents := batchIds batch ∪ postedEvents (queue s);
                        minDurationMinutes := minDurationMinutes (queue s) |} |}).
Proof.
  revert s. induction batch as [|e batch IH]; intros s.
  - unfold batchIds. simpl. rewrite (left_id_L ∅ (∪)). by destruct s as [? ? ? []].
  - simpl. unfold mbind, State_bind, onSchedulerQueue. simpl. rewrite IH. simpl.
    do 3 f_equal. unfold batchIds. simpl. set_solver.
Qed.

Lemma interval_markBatch e batch s :
  IntervalScheduler.markBatch (e :: batch) s =
    (tt, {| postsToday := postsToday s; maxPostsPerDay := maxPostsPerDay s;
            lastPostDate := lastPostDate s;
            queue := {| events := events (queue s);
                        postedEvents := {[id (entry_event e)]} ∪ postedEvents (queue s);
                        minDurationMinutes := minDurationMinutes (queue s) |} |}).
Proof. done. Qed.

(** Once its ids are posted, nothing of a batch is postable. *)
Lemma batch_dispatched (q : EventQueue) :
  unposted {| events := events q;
              postedEvents := batchIds (eval getPostableEvents q) ∪ postedEvents q;
              minDurationMinutes := minDurationMinutes q |} = [].
Proof.
  unfold unposted. simpl. apply elem_of_nil_inv.
  intros e [Hnot Hin]%list_elem_of_filter. apply Hnot.
  destruct (decide (id (entry_event e) ∈ postedEvents q)); [set_solver|].
  apply elem_of_union. left. unfold batchIds. apply elem_of_list_to_set.
  apply (list_elem_of_fmap_2 (λ e, id (entry_event e))).
  unfold eval, getPostableEvents. simpl. rewrite Array_sort_perm.
  unfold unposted. by apply list_elem_of_filter.
Qed.
End post_cycle.

Lemma interval_markBatch_take (batch : list QueueEntry) (s : PostScheduler) :
  IntervalScheduler.markBatch batch s =
    (tt, {| postsToday := postsToday s; maxPostsPerDay := maxPostsPerDay s;
            lastPostDate := lastPostDate s;
            queue := {| events := events (queue s);
                        postedEvents :=
                          batchIds (take 1 batch) ∪ postedEvents (queue s);
                        minDurationMinutes := minDurationMinutes (queue s) |} |}).
Proof.
  destruct batch as [|e batch].
  - unfold batchIds. simpl. rewrite (left_id_L ∅ (∪)). by destruct s as [? ? ? []].
  - rewrite interval_markBatch. do 3 f_equal. unfold batchIds. simpl. set_solver.
Qed.

(** C5, as the code has it.  In a cycle whose postable list is not empty,
    nothing is marked unless the cycle data was generated, the site was
    published, the poster is configured and the tweet succeeded.  When all
    of that succeeded the fixed-schedule scheduler marks every event of the
    batch, after which none of them is postable, whereas the interval
    scheduler marks the first event of the batch only, the one it tweeted
    about. *)
Theorem C5_marking_follows_the_tweet (c : Cycle) (now : Z) (s : PostScheduler) :
  eval getPostableEvents (queue s) ≠ [] →
  let batch := eval getPostableEvents (queue s) in
  let sF := exec (FixedScheduler.processNextPost c now) s in
  let sI := exec (IntervalScheduler.processNextPost c now) s in
  (succeeded c = false → queue sF = queue s ∧ queue sI = queue s)
  ∧ (succeeded c = true →
       events (queue sF) = events (queue s)
       ∧ postedEvents (queue sF) = batchIds batch ∪ postedEvents (queue s)
       ∧ eval getPostableEvents (queue sF) = []
       ∧ events (queue sI) = events (queue s)
       ∧ postedEvents (queue sI) = batchIds (take 1 batch) ∪ postedEvents (queue s)).
Proof.
  intros Hbatch batch sF sI. subst sF sI.
  unfold FixedScheduler.processNextPost, IntervalScheduler.processNextPost, exec.
  split; intros Hc.
  - rewrite !postCycle_failed by done. simpl. by rewrite afterReset_queue.
  - rewrite !postCycle_succeeded by done. fold batch.
    rewrite fixed_markBatch.
    rewrite interval_markBatch_take. simpl. rewrite afterReset_queue. split_and!; try done.
    unfold eval at 1, getPostableEvents at 1. simpl.
    subst batch. by rewrite batch_dispatched.
Qed.

Lemma C5_marking_follows_the_tweet_witness :
  let s := PostScheduler_new twoEvents in
  postedEvents (queue (exec (FixedScheduler.processNextPost allGood h12) s))
  = batchIds (eval getPostableEvents twoEvents) ∪ postedEvents twoEvents
  ∧ eval getPostableEvents
         (queue (exec (FixedScheduler.processNextPost allGood h12) s)) = [].
Proof.
  intros s.
  destruct (C5_marking_follows_the_tweet allGood h12 s) as [_ H];
    [by vm_compute|].
  destruct (H eq_refl) as (_ & Hposted & Hnone & _).
  split; [exact Hposted | exact Hnone].
Defined.

(** C5 as stated fails for the interval scheduler: with two events in the
    batch and every step of the cycle succeeding, the second event is not
    marked and is postable again in the next cycle. *)
Lemma C5_interval_marks_first_only :
  let s := PostScheduler_new twoEvents in
  let s' := exec (IntervalScheduler.processNextPost allGood h12) s in
  succeeded allGood = true
  ∧ (λ e, id (entry_event e)) <$> eval getPostableEvents (queue s)
    = ["thames_water:TW2"; "thames_water:TW1"]
  ∧ postsToday s' = 1
  ∧ postedEvents (queue s') = {["thames_water:TW2"]}
  ∧ (λ e, id (entry_event e)) <$> eval getPostableEvents (queue s')
    = ["thames_water:TW1"].
Proof. split_and!; by vm_compute. Qed.

(** ** The publish trigger *)

Section publish_trigger.
Import PublishTrigger.
Implicit Types (s : PostScheduler) (c : Cycle) (now set day : Z)
  (run : TimerRun) (runs before after : list TimerRun).

















End publish_trigger.



(* ================================================================== *)
(** * Further properties of the queue *)

Section cleanup_facts.
Implicit Types (q : EventQueue) (now : Z).

(** The entries that [cleanup] keeps. *)
Lemma cleanup_events now q :
  events (exec (cleanup now) q)
  = filter (λ kv, now - sevenDays ≤ endMillis kv.2) (events q).
Proof.
  unfold exec, cleanup. simpl. apply list_filter_iff.
  intros kv. unfold endMillis. lia.
Qed.

Lemma cleanup_values now q :
  JsMap.values (events (exec (cleanup now) q))
  = filter (λ e, now - sevenDays ≤ endMillis e) (JsMap.values (events q)).
Proof.
  rewrite cleanup_events. unfold JsMap.values.
  induction (events q) as [|[k v] m IH]; [done|]. csimpl.
  rewrite !filter_cons. simpl.
  destruct (decide (now - sevenDays ≤ endMillis v)); csimpl; by rewrite IH.
Qed.

(** Inserting into a sorted list, then filtering. *)
Lemma sort_insert_filter_sorted (P : QueueEntry → Prop) `{!∀ e, Decision (P e)}
    (x : QueueEntry) (l : list QueueEntry) :
  StronglySorted newestFirst l →
  filter P (sort_insert byEndTimeDesc x l)
  = if decide (P x) then sort_insert byEndTimeDesc x (filter P l) else filter P l.
Proof.
  induction 1 as [|y l Hs IH Hall]; simpl.
  - rewrite filter_cons. by destruct (decide (P x)).
  - destruct (Z.ltb_spec (byEndTimeDesc y x) 0) as [Hlt|Hge].
    + rewrite !(filter_cons _ y), IH.
      destruct (decide (P x)), (decide (P y)); simpl; try done.
      by rewrite (proj2 (Z.ltb_lt _ _) Hlt).
    + rewrite (filter_cons _ x), !(filter_cons _ y).
      destruct (decide (P x)); [|done].
      destruct (decide (P y)); simpl.
      * by rewrite (proj2 (Z.ltb_ge _ _) Hge).
      * destruct (filter P l) as [|z l'] eqn:Hf; [done|]. simpl.
        assert (Hz : z ∈ l).
        { assert (z ∈ filter P l) as [_ ?]%list_elem_of_filter; [|done].
          rewrite Hf. apply elem_of_cons. by left. }
        rewrite Forall_forall in Hall. specialize (Hall z Hz).
        unfold newestFirst, byEndTimeDesc, endMillis in *.
        destruct (Z.ltb_spec (getTime (endTime (entry_event x))
                              - getTime (endTime (entry_event z))) 0); [lia|done].
Qed.

(** Sorting by end time commutes with filtering. *)
Lemma Array_sort_filter_comm (P : QueueEntry → Prop) `{!∀ e, Decision (P e)}
    (l : list QueueEntry) :
  filter P (Array_sort byEndTimeDesc l) = Array_sort byEndTimeDesc (filter P l).
Proof.
  induction l as [|x l IH]; [done|]. simpl.
  rewrite sort_insert_filter_sorted
    by (apply Sorted_StronglySorted; [apply _ | apply Array_sort_Sorted]).
  rewrite filter_cons. destruct (decide (P x)); simpl; by rewrite IH.
Qed.
End cleanup_facts.

(** X1: [cleanup] keeps, in their order, exactly the entries that ended
    within the last seven days, whether posted or not; it leaves the posted
    ids and the threshold alone; and the postable list afterwards is the
    former postable list without the entries that are too old. *)
Theorem X1_cleanup_evicts_by_age (now : Z) (q : EventQueue) :
  let q' := exec (cleanup now) q in
  (∀ kv, kv ∈ events q' ↔ kv ∈ events q ∧ now - sevenDays ≤ endMillis kv.2)
  ∧ events q' `sublist_of` events q
  ∧ postedEvents q' = postedEvents q
  ∧ minDurationMinutes q' = minDurationMinutes q
  ∧ eval getPostableEvents q'
    = filter (λ e, now - sevenDays ≤ endMillis e) (eval getPostableEvents q).
Proof.
  intros q'. subst q'. split_and!.
  - intros kv. rewrite cleanup_events, list_elem_of_filter. tauto.
  - rewrite cleanup_events. apply sublist_filter.
  - done.
  - done.
  - unfold eval, getPostableEvents, unposted. simpl.
    rewrite Array_sort_filter_comm. f_equal.
    change (filter _ (events q)) with (events (exec (cleanup now) q)).
    rewrite cleanup_values, !list_filter_filter. apply list_filter_iff. tauto.
Qed.

(** X2: cleaning at a later instant subsumes an earlier cleaning, so that
    [cleanup] may run at any pace; in particular it is idempotent. *)
Theorem X2_cleanup_composes (now1 now2 : Z) (q : EventQueue) :
  now1 ≤ now2 →
  exec (cleanup now2) (exec (cleanup now1) q) = exec (cleanup now2) q
  ∧ exec (cleanup now1) (exec (cleanup now1) q) = exec (cleanup now1) q.
Proof.
  intros Hle.
  assert (H : ∀ a b, a ≤ b →
              exec (cleanup b) (exec (cleanup a) q) = exec (cleanup b) q).
  { intros a b Hab. unfold exec, cleanup. simpl. f_equal.
    rewrite list_filter_filter. apply list_filter_iff. intros kv. lia. }
  split; apply H; lia.
Qed.

Lemma X2_cleanup_composes_witness :
  exec (cleanup (h12 + sevenDays)) (exec (cleanup (h11 + sevenDays)) fourEvents)
  = exec (cleanup (h12 + sevenDays)) fourEvents.
Proof.
  destruct (X2_cleanup_composes (h11 + sevenDays) (h12 + sevenDays) fourEvents)
    as [H _]; [by vm_compute | exact H].
Defined.

Section queue_contents.
Implicit Types (q : EventQueue) (e : Event).

Lemma call_minDuration c q :
  minDurationMinutes (exec (call c) q) = minDurationMinutes q.
Proof.
  destruct c as [e now| |eventId|now]; try done.
  unfold exec, call, mbind, State_bind. simpl.
  pose proof (addEvent_minDuration e now q) as H. unfold exec in H.
  by destruct (addEvent e now q).
Qed.

Lemma call_longEntries c q : longEntries q → longEntries (exec (call c) q).
Proof.
  unfold longEntries. rewrite call_minDuration.
  destruct c as [e now| |eventId|now]; intros Hlong; try done.
  - unfold exec, call, mbind, State_bind. simpl.
    destruct (refused e q) eqn:Hr.
    + by rewrite addEvent_refused.
    + rewrite addEvent_accepted by done. simpl. apply Forall_set; [|done].
      simpl. unfold refused in Hr. by apply orb_false_iff in Hr as [? _].
  - unfold exec, cleanup. simpl. rewrite Forall_forall in *.
    intros kv [_ Hin]%list_elem_of_filter. auto.
Qed.

Lemma calls_longEntries cs q :
  longEntries q →
  longEntries (exec (calls cs) q)
  ∧ minDurationMinutes (exec (calls cs) q) = minDurationMinutes q.
Proof.
  revert q. induction cs as [|c cs IH]; intros q Hq; [done|].
  rewrite exec_calls_cons.
  destruct (IH (exec (call c) q)) as [? ->]; [by apply call_longEntries|].
  by rewrite call_minDuration.
Qed.

Lemma filter_split_length {A} (P Q : A → Prop)
    `{!∀ x, Decision (P x), !∀ x, Decision (Q x)} (l : list A) :
  (∀ x, Q x ↔ ¬ P x) →
  (length (filter P l) + length (filter Q l) = length l)%nat.
Proof.
  intros HQ. induction l as [|x l IH]; [done|]. rewrite !filter_cons.
  destruct (decide (P x)), (decide (Q x)); simpl; try lia; naive_solver.
Qed.
End queue_contents.

(** X3: the counters of [getStats] agree with the queue: [total] counts the
    entries, [unposted] is the length of the postable list, and the entries
    that are not postable are at most as many as the posted ids ([posted]
    also counts the ids whose entry is gone, or never was there).  The call
    changes nothing. *)
Theorem X3_getStats_counts (q : EventQueue) :
  queue_ok q →
  let st := eval getStats q in
  exec getStats q = q
  ∧ total st = length (events q)
  ∧ stats_unposted st = length (eval getPostableEvents q)
  ∧ (stats_unposted st ≤ total st)%nat
  ∧ (total st - stats_unposted st ≤ posted st)%nat.
Proof.
  intros [Hwf Hkeyed] st. subst st. unfold eval, exec, getStats. simpl.
  split_and!.
  - done.
  - unfold JsMap.values. by rewrite length_fmap.
  - unfold getPostableEvents. simpl. by rewrite Array_sort_perm.
  - apply length_filter.
  - pose proof (filter_split_length
                  (λ e, id (entry_event e) ∉ postedEvents q)
                  (λ e, id (entry_event e) ∈ postedEvents q)
                  (JsMap.values (events q))) as Hsplit.
    set (gone := filter (λ e, id (entry_event e) ∈ postedEvents q)
                        (JsMap.values (events q))) in *.
    specialize (Hsplit ltac:(intros e; destruct (decide (id (entry_event e) ∈ postedEvents q)); naive_solver)).
    assert (Hids : NoDup ((λ e, id (entry_event e)) <$> gone)
                   ∧ ∀ x, x ∈ (λ e, id (entry_event e)) <$> gone → x ∈ postedEvents q).
    { subst gone. unfold JsMap.wf, JsMap.keys, JsMap.values in *. clear Hsplit.
      induction (events q) as [|[k entry] m IH]; csimpl.
      - split; [constructor | by intros ? ?%elem_of_nil].
      - apply Forall_cons in Hkeyed as [Hk Hkeyed]. simpl in Hk.
        apply NoDup_cons in Hwf as [Hnotin Hwf].
        destruct (IH Hwf Hkeyed) as [IH1 IH2]. rewrite filter_cons.
        destruct (decide _) as [Hp|Hp]; csimpl; [|done]. split.
        + apply NoDup_cons. split; [|done]. rewrite Hk.
          intros (e & Heq & [_ Hin]%list_elem_of_filter)%list_elem_of_fmap.
          apply Hnotin. apply list_elem_of_fmap in Hin as ([k' e'] & -> & Hin).
          rewrite Forall_forall in Hkeyed. specialize (Hkeyed _ Hin). simpl in *.
          apply list_elem_of_fmap. exists (k', e'). split; [simpl; congruence|done].
        + intros x [->|Hx]%elem_of_cons; [done|by apply IH2]. }
    destruct Hids as [Hnd Hsub].
    assert (length gone ≤ size (postedEvents q))%nat; [|lia].
    rewrite <- (length_fmap (λ e, id (entry_event e)) gone).
    rewrite <- (size_list_to_set (C := gset string)) by done.
    apply subseteq_size. intros x Hx%elem_of_list_to_set. by apply Hsub.
Qed.

Lemma X3_getStats_counts_witness :
  total (eval getStats fourEvents) = 5%nat
  ∧ stats_unposted (eval getStats fourEvents) = 4%nat.
Proof.
  assert (Hok : queue_ok fourEvents).
  { apply (queue_ok_calls
             [CallAddEvent (sampleEvent "A" 0 h11) 1;
              CallAddEvent (sampleEvent "B" 0 h12) 2;
              CallAddEvent (sampleEvent "C" 0 h12) 3;
              CallAddEvent (sampleEvent "D" 0 h11) 4;
              CallAddEvent (sampleEvent "E" 0 h12) 5;
              CallMarkAsPosted "thames_water:C"] EventQueue_new queue_ok_new). }
  destruct (X3_getStats_counts fourEvents Hok) as (_ & Htotal & Hun & _).
  split; [rewrite Htotal | rewrite Hun]; reflexivity.
Defined.

(** X4: whatever calls are made on a new queue, it holds one entry per id
    at most, each under the id of its event, its threshold stays at 600
    minutes, and every event it holds, posted or not, lasted 600 minutes at
    least; so did every event it hands out, which is one that it holds. *)
Theorem X4_queue_holds_long_events_once (cs : list QueueCall) :
  let q := exec (calls cs) EventQueue_new in
  queue_ok q
  ∧ minDurationMinutes q = 600
  ∧ (∀ k e, (k, e) ∈ events q →
            ∃ d, durationMinutes (entry_event e) = Some d ∧ 600 ≤ d)
  ∧ (∀ e, e ∈ eval getPostableEvents q →
          e ∈ JsMap.values (events q)
          ∧ ∃ d, durationMinutes (entry_event e) = Some d ∧ 600 ≤ d).
Proof.
  intros q. subst q.
  destruct (calls_longEntries cs EventQueue_new) as [Hlong Hmin]; [constructor|].
  assert (Hheld : ∀ k e, (k, e) ∈ events (exec (calls cs) EventQueue_new) →
                    ∃ d, durationMinutes (entry_event e) = Some d ∧ 600 ≤ d).
  { intros k e Hin.
    unfold longEntries in Hlong. rewrite Forall_forall in Hlong.
    specialize (Hlong _ Hin). rewrite Hmin in Hlong. simpl in *.
    destruct (durationMinutes (entry_event e)) as [d|]; simpl in Hlong.
    - exists d. split; [done|]. by apply Z.ltb_ge.
    - done. }
  split_and!.
  - apply queue_ok_calls, queue_ok_new.
  - by rewrite Hmin.
  - exact Hheld.
  - intros e. unfold eval, getPostableEvents, unposted. simpl.
    rewrite Array_sort_perm. intros [_ Hin]%list_elem_of_filter.
    split; [done|].
    unfold JsMap.values in Hin. apply list_elem_of_fmap in Hin as ([k e'] & -> & Hin).
    by apply (Hheld k).
Qed.

(** * Durations as text *)

(** On a duration that is not negative the four numbers are the quotients
    and remainders of the division into days, hours and minutes. *)
Lemma durationParts_nonneg (minutes : Z) :
  0 ≤ minutes →
  durationParts minutes
  = {| hours := minutes `div` 60; mins := minutes `mod` 60;
       days := minutes `div` 1440;
       remainingHours := (minutes `div` 60) `mod` 24 |}.
Proof.
  intros Hm. unfold durationParts.
  assert (0 ≤ minutes `div` 60) by (apply Z.div_pos; lia).
  rewrite !Z.rem_mod_nonneg by lia.
  rewrite Z.div_div by lia. done.
Qed.

(** X5: for a duration that is not negative, the text of the scheduler,
    which goes into the tweet, shows the days when there are any, the hours,
    and the minutes whenever they are not zero; the numbers shown add up to
    the duration. *)
Theorem X5_scheduler_formatDuration_exact (minutes : Z) :
  0 ≤ minutes →
  let d := minutes `div` 1440 in
  let h := (minutes `div` 60) `mod` 24 in
  let m := minutes `mod` 60 in
  minutes = 1440 * d + 60 * h + m ∧ 0 ≤ h < 24 ∧ 0 ≤ m < 60
  ∧ PostScheduler_formatDuration minutes
    = if 0 <? d
      then (if 0 <? m
            then showZ d +:+ "d " +:+ showZ h +:+ "h " +:+ showZ m +:+ "m"
            else showZ d +:+ "d " +:+ showZ h +:+ "h")
      else (if 0 <? m
            then showZ h +:+ "h " +:+ showZ m +:+ "m"
            else showZ h +:+ "h").
Proof.
  intros Hm d h m. subst d h m.
  pose proof (Z.div_mod minutes 60 ltac:(lia)) as H60.
  pose proof (Z.mod_pos_bound minutes 60 ltac:(lia)) as Hb60.
  pose proof (Z.div_mod (minutes `div` 60) 24 ltac:(lia)) as H24.
  pose proof (Z.mod_pos_bound (minutes `div` 60) 24 ltac:(lia)) as Hb24.
  assert (Hdd : minutes `div` 1440 = (minutes `div` 60) `div` 24)
    by (rewrite Z.div_div by lia; done).
  split_and!; try lia.
  unfold PostScheduler_formatDuration. rewrite durationParts_nonneg by done.
  simpl. destruct (Z.ltb_spec 0 (minutes `div` 1440)) as [Hd|Hd]; [done|].
  assert (minutes `div` 1440 = 0).
  { assert (0 ≤ minutes `div` 1440) by (apply Z.div_pos; lia). lia. }
  assert ((minutes `div` 60) `mod` 24 = minutes `div` 60) as -> by lia.
  done.
Qed.

Lemma X5_scheduler_formatDuration_exact_witness :
  PostScheduler_formatDuration 1505 = "1d 1h 5m"
  ∧ PostScheduler_formatDuration 720 = "12h".
Proof.
  destruct (X5_scheduler_formatDuration_exact 1505) as (_ & _ & _ & H1); [lia|].
  destruct (X5_scheduler_formatDuration_exact 720) as (_ & _ & _ & H2); [lia|].
  split; [rewrite H1 | rewrite H2]; reflexivity.
Defined.

(** X6: the text that the cycle generator publishes as [durationFormatted]
    leaves the minutes out when the duration is a number of whole days and
    less than an hour: all sixty such durations read the same, as do the
    durations of a whole number of hours and those of a whole number of
    days. *)
Theorem X6_cycle_formatDuration_hides_minutes (d m : Z) :
  1 ≤ d → 0 ≤ m < 60 →
  CycleGenerator_formatDuration (1440 * d + m) = showZ d +:+ "d"
  ∧ CycleGenerator_formatDuration (1440 * d + m)
    = CycleGenerator_formatDuration (1440 * d).
Proof.
  intros Hd Hm.
  assert (H : ∀ m', 0 ≤ m' < 60 →
              CycleGenerator_formatDuration (1440 * d + m') = showZ d +:+ "d").
  { intros m' Hm'. unfold CycleGenerator_formatDuration.
    rewrite durationParts_nonneg by lia. simpl.
    assert ((1440 * d + m') `div` 1440 = d) as ->.
    { rewrite (Z.mul_comm 1440 d), Z.div_add_l by lia.
      rewrite Z.div_small by lia. lia. }
    assert ((1440 * d + m') `div` 60 = 24 * d) as ->.
    { replace (1440 * d + m') with (24 * d * 60 + m') by lia.
      rewrite Z.div_add_l by lia. rewrite Z.div_small by lia. lia. }
    assert ((24 * d) `mod` 24 = 0) as ->.
    { rewrite Z.mul_comm. apply Z.mod_mul. lia. }
    destruct (Z.ltb_spec 0 d); [done | lia]. }
  split; [by apply H|]. rewrite (H m Hm). symmetry.
  rewrite <- (Z.add_0_r (1440 * d)). apply H. lia.
Qed.

Lemma X6_cycle_formatDuration_hides_minutes_witness :
  CycleGenerator_formatDuration 1499 = "1d".
Proof.
  destruct (X6_cycle_formatDuration_hides_minutes 1 59) as [H _]; [lia..|].
  exact H.
Defined.

(** * Lines of the site mapping *)

Section csv.
Implicit Types (line s : string) (values fields : list string).

Lemma append_nil_r s : s +:+ "" = s.
Proof. induction s as [|c s IH]; [done|]. by rewrite app_cons, IH. Qed.

Lemma append_assoc s1 s2 s3 : (s1 +:+ s2) +:+ s3 = s1 +:+ s2 +:+ s3.
Proof. induction s1 as [|c s1 IH]; [done|]. by rewrite !app_cons, IH. Qed.

Lemma chars_app s1 s2 : chars (s1 +:+ s2) = chars s1 ++ chars s2.
Proof. induction s1 as [|c s1 IH]; [done|]. rewrite app_cons. simpl. by rewrite IH. Qed.

Lemma loop_cons c rest values inQuotes cur :
  parseCSVLine_loop (String c rest) values inQuotes cur
  = if bool_decide (c = dquote)
    then parseCSVLine_loop rest values (negb inQuotes) cur
    else if bool_decide (c = ","%char) && negb inQuotes
    then parseCSVLine_loop rest (values ++ [cur]) inQuotes ""
    else parseCSVLine_loop rest values inQuotes (cur +:+ String c "").
Proof. done. Qed.

Lemma loop_cons_quote rest values inQuotes cur :
  parseCSVLine_loop (String dquote rest) values inQuotes cur
  = parseCSVLine_loop rest values (negb inQuotes) cur.
Proof. rewrite loop_cons. by rewrite bool_decide_eq_true_2. Qed.

Lemma loop_cons_comma rest values cur :
  parseCSVLine_loop (String "," rest) values false cur
  = parseCSVLine_loop rest (values ++ [cur]) false "".
Proof. done. Qed.

Lemma loop_cons_other c rest values inQuotes cur :
  c ≠ dquote → (c = ","%char → inQuotes = true) →
  parseCSVLine_loop (String c rest) values inQuotes cur
  = parseCSVLine_loop rest values inQuotes (cur +:+ String c "").
Proof.
  intros Hq Hc. rewrite loop_cons, bool_decide_eq_false_2 by done.
  case_bool_decide as Hcomma; [|done]. by rewrite (Hc Hcomma).
Qed.

(** Between quotes, everything but a quote goes to the current value. *)
Lemma loop_inside s rest values cur :
  dquote ∉ chars s →
  parseCSVLine_loop (s +:+ rest) values true cur
  = parseCSVLine_loop rest values true (cur +:+ s).
Proof.
  revert cur. induction s as [|c s IH]; intros cur Hs; simpl in Hs.
  - by rewrite app_nil, append_nil_r.
  - apply not_elem_of_cons in Hs as [Hc Hs].
    rewrite app_cons, loop_cons_other by done.
    rewrite IH by done. rewrite append_assoc. done.
Qed.

(** Outside quotes, everything but a quote and a comma does. *)
Lemma loop_outside s rest values cur :
  dquote ∉ chars s → ","%char ∉ chars s →
  parseCSVLine_loop (s +:+ rest) values false cur
  = parseCSVLine_loop rest values false (cur +:+ s).
Proof.
  revert cur. induction s as [|c s IH]; intros cur Hs Hs'; simpl in Hs, Hs'.
  - by rewrite app_nil, append_nil_r.
  - apply not_elem_of_cons in Hs as [Hc Hs].
    apply not_elem_of_cons in Hs' as [Hc' Hs'].
    rewrite app_cons, loop_cons_other by done.
    rewrite IH by done. rewrite append_assoc. done.
Qed.

Lemma loop_quoted s rest values cur :
  dquote ∉ chars s →
  parseCSVLine_loop (quoted s +:+ rest) values false cur
  = parseCSVLine_loop rest values false (cur +:+ s).
Proof.
  intros Hs. unfold quoted. rewrite app_cons, loop_cons_quote. simpl.
  rewrite append_assoc, loop_inside by done.
  by rewrite app_cons, app_nil, loop_cons_quote.
Qed.

Lemma concat_cons2 (sep f g : string) fields :
  String.concat sep (f :: g :: fields) = f +:+ sep +:+ String.concat sep (g :: fields).
Proof. done. Qed.

(** The values that the loop has pushed stay in front. *)
Lemma loop_values line values inQuotes cur :
  parseCSVLine_loop line values inQuotes cur
  = values ++ parseCSVLine_loop line [] inQuotes cur.
Proof.
  revert values inQuotes cur. induction line as [|c line IH]; intros; simpl; [done|].
  case_bool_decide; [apply IH|].
  destruct (bool_decide (c = ","%char) && negb inQuotes); [|apply IH].
  rewrite IH, (IH [cur]). by rewrite app_assoc.
Qed.
End csv.

(** X7: [parseCSVLine] never puts a double quote in a field: quotes only
    switch the quoting on and off, so a doubled quote inside a quoted field
    is lost. *)
Theorem X7_parseCSVLine_drops_quotes (line field : string) :
  field ∈ parseCSVLine line → dquote ∉ chars field.
Proof.
  unfold parseCSVLine.
  assert (H : ∀ line values inQuotes cur,
              Forall (λ f, dquote ∉ chars f) values → dquote ∉ chars cur →
              Forall (λ f, dquote ∉ chars f)
                     (parseCSVLine_loop line values inQuotes cur)).
  { clear. induction line as [|c line IH]; intros values inQuotes cur Hv Hc; simpl.
    - apply Forall_app. split; [done|]. by constructor.
    - case_bool_decide as Hq; [by apply IH|].
      destruct (bool_decide (c = ","%char) && negb inQuotes).
      + apply IH; [|apply not_elem_of_nil].
        apply Forall_app. split; [done|]. by constructor.
      + apply IH; [done|]. rewrite chars_app. simpl.
        rewrite not_elem_of_app, not_elem_of_cons. split_and!; [done|congruence|].
        apply not_elem_of_nil. }
  intros Hin.
  specialize (H line [] false "" (Forall_nil_2 _) (not_elem_of_nil _)).
  rewrite Forall_forall in H. by apply H.
Qed.

Lemma X7_parseCSVLine_drops_quotes_witness :
  dquote ∉ chars "ab".
Proof.
  apply (X7_parseCSVLine_drops_quotes
           (String "a" (String dquote (String dquote (String "b" ""))))).
  vm_compute. apply elem_of_cons. by left.
Defined.

(** X8: a line made of fields put between double quotes and joined by
    commas is parsed into these fields, commas in them included, provided
    that no field holds a double quote and that there is a field at all. *)
Theorem X8_parseCSVLine_reads_quoted_fields (fields : list string) :
  fields ≠ [] →
  Forall (λ f, dquote ∉ chars f) fields →
  parseCSVLine (joinCommas (quoted <$> fields)) = fields.
Proof.
  unfold parseCSVLine, joinCommas. intros Hne Hq.
  destruct fields as [|f fields]; [done|]. clear Hne.
  revert f Hq. induction fields as [|g fields IH]; intros f Hq.
  - apply Forall_cons in Hq as [Hf _].
    change (String.concat "," (quoted <$> [f])) with (quoted f).
    rewrite <- (append_nil_r (quoted f)), loop_quoted by done. done.
  - apply Forall_cons in Hq as [Hf Hq].
    change (String.concat "," (quoted <$> f :: g :: fields))
      with (quoted f +:+ String "," (String.concat "," (quoted <$> g :: fields))).
    rewrite loop_quoted by done. rewrite app_nil.
    rewrite loop_cons_comma, loop_values. simpl. f_equal. by apply IH.
Qed.

Lemma X8_parseCSVLine_reads_quoted_fields_witness :
  parseCSVLine (joinCommas (quoted <$> ["TW1"; "Mogden, STW"; ""]))
  = ["TW1"; "Mogden, STW"; ""].
Proof.
  apply X8_parseCSVLine_reads_quoted_fields; [done|].
  apply (bool_decide_unpack _). by vm_compute.
Defined.

(** X9: a line without double quotes is split at its commas: joining the
    fields with commas gives the line back, and there is one field more than
    there are commas, one empty field for the empty line. *)
Theorem X9_parseCSVLine_splits_at_commas (line : string) :
  dquote ∉ chars line →
  joinCommas (parseCSVLine line) = line
  ∧ length (parseCSVLine line)
    = S (length (filter (λ c, c = ","%char) (chars line))).
Proof.
  unfold parseCSVLine. intros Hq.
  assert (H : ∀ line cur,
              dquote ∉ chars line →
              joinCommas (parseCSVLine_loop line [] false cur) = cur +:+ line
              ∧ length (parseCSVLine_loop line [] false cur)
                = S (length (filter (λ c, c = ","%char) (chars line)))).
  { clear. induction line as [|c line IH]; intros cur Hq; simpl in *.
    - by rewrite append_nil_r.
    - apply not_elem_of_cons in Hq as [Hc Hq].
      rewrite bool_decide_eq_false_2 by done. rewrite filter_cons.
      case_bool_decide as Hcomma; simpl.
      + subst c. rewrite decide_True by done. rewrite loop_values.
        destruct (IH "" Hq) as [IH1 IH2]. simpl. rewrite IH2. split; [|done].
        unfold joinCommas in *.
        destruct (parseCSVLine_loop line [] false "") as [|g rest] eqn:Hl;
          [done|].
        change (String.concat "," (cur :: g :: rest))
          with (cur +:+ "," +:+ String.concat "," (g :: rest)).
        by rewrite IH1.
      + rewrite decide_False by done.
        destruct (IH (cur +:+ String c "") Hq) as [IH1 IH2].
        rewrite IH1, IH2, append_assoc. done. }
  destruct (H line "" Hq) as [H1 H2]. by rewrite H1, H2.
Qed.

Lemma X9_parseCSVLine_splits_at_commas_witness :
  joinCommas (parseCSVLine "TW1,,Mogden STW,") = "TW1,,Mogden STW,"
  ∧ length (parseCSVLine "TW1,,Mogden STW,") = 4%nat.
Proof.
  destruct (X9_parseCSVLine_splits_at_commas "TW1,,Mogden STW,") as [H1 H2].
  - apply (bool_decide_unpack _). by vm_compute.
  - split; [exact H1 | rewrite H2; reflexivity].
Defined.

(** * Further properties of the tracker *)

Section tracker_more.
Implicit Types (t : EventTracker) (wc ck sid k : string) (now : Z)
  (fs : list Feature) (A : gset string) (m : list (string * Event)).

Lemma processFeature_ok wc now f ids t :
  no_colon (companyKeyOf wc) = true →
  tracker_ok t → tracker_ok (processFeature wc (companyKeyOf wc) now f ids t).2.
Proof.
  intros Hc Hok.
  pose proof (featureLoop_ok wc (companyKeyOf wc) now [f] ids t eq_refl Hc Hok) as H.
  by rewrite featureLoop_cons in H.
Qed.

(** Setting a key to a value that a filter rejects, as it rejects the
    value that the key had, does not change what the filter lets through. *)
Lemma filter_set_rejected {V} (P : string * V → Prop) `{!∀ x, Decision (P x)}
    k v (m : list (string * V)) :
  ¬ P (k, v) → (∀ v0, JsMap.get k m = Some v0 → ¬ P (k, v0)) →
  filter P (JsMap.set k v m) = filter P m.
Proof.
  intros Hv. induction m as [|[k' v'] m IH]; simpl; intros Hold.
  - by rewrite filter_cons_False.
  - destruct (decide (k = k')) as [<-|Hne].
    + rewrite filter_cons_False by done. rewrite filter_cons_False; [done|].
      apply Hold. done.
    + rewrite !(filter_cons _ (k', v')). rewrite IH; [done|].
      intros v0 Hv0. apply Hold. done.
Qed.

(** The first loop never touches an entry that the second loop will end. *)
Lemma featureLoop_ended_untouched wc now fs ids t A :
  no_colon (companyKeyOf wc) = true → tracker_ok t →
  seenActive fs ⊆ A →
  filter (λ entry, hasEnded (companyKeyOf wc) A entry = true)
         (activeEvents (featureLoop wc (companyKeyOf wc) now fs ids t).2)
  = filter (λ entry, hasEnded (companyKeyOf wc) A entry = true) (activeEvents t).
Proof.
  intros Hc. revert ids t. induction fs as [|f fs IH]; intros ids t Hok HA; [done|].
  rewrite featureLoop_cons. rewrite seenActive_cons in HA.
  pose proof (processFeature_ok wc now f ids t Hc Hok) as Hok1.
  destruct (processFeature_cases wc (companyKeyOf wc) now f ids t)
    as [[Hd Hrun]|(sid & event & Hd & Hev & Hrun)]; rewrite Hd in HA;
    rewrite Hrun in *; simpl in *.
  - by apply IH.
  - rewrite IH by (done || set_solver). simpl.
    assert (Hsid : sid ∈ A) by set_solver.
    assert (Hsite : ∀ v0, JsMap.get (eventKeyOf (companyKeyOf wc) sid)
                            (activeEvents t) = Some v0 → siteId v0 = sid).
    { intros v0 Hv0. destruct Hok as [_ Hent]. rewrite Forall_forall in Hent.
      destruct (Hent _ (get_Some_elem _ _ _ Hv0)) as (_ & _ & Hkey & Hcc).
      simpl in *. by apply eventKeyOf_inj in Hkey as [_ ?]. }
    apply filter_set_rejected.
    + unfold hasEnded. simpl.
      assert (siteId event = sid) as ->.
      { destruct Hev as [[_ ->]|(existing & Hex & ->)]; [done|]. simpl. eauto. }
      rewrite (bool_decide_eq_false_2 (sid ∉ A)) by tauto.
      by rewrite andb_false_r.
    + intros v0 Hv0. unfold hasEnded. simpl. rewrite (Hsite v0 Hv0).
      rewrite (bool_decide_eq_false_2 (sid ∉ A)) by tauto.
      by rewrite andb_false_r.
Qed.

Lemma get_filter_ended ck A k (ev : Event) m :
  JsMap.wf m → JsMap.get k m = Some ev → hasEnded ck A (k, ev) = true →
  JsMap.get k (filter (λ entry, hasEnded ck A entry = false) m) = None.
Proof.
  intros Hwf Hget Hended. apply get_None_keys. unfold JsMap.keys.
  intros ([k' v'] & Hk & [Hkept Hin]%list_elem_of_filter)%list_elem_of_fmap.
  simpl in Hk. subst k'. rewrite (elem_get_wf _ _ _ Hwf Hin) in Hget.
  injection Hget as ->. congruence.
Qed.

(** What the second loop does to the queue. *)
Lemma endLoop_queue ck now A entries t :
  eventQueue (endLoop ck now A entries t).2
  = exec (offerAll (endLoop ck now A entries t).1 now) (eventQueue t).
Proof.
  revert t. induction entries as [|[k ev] entries IH]; intros t; [done|].
  rewrite endLoop_cons. cbn [fst snd].
  destruct (hasEnded ck A (k, ev)) eqn:Hended.
  - rewrite checkEnded_ended by done. cbn [fst snd]. rewrite IH. simpl.
    unfold exec, mbind, State_bind. by destruct (addEvent _ _ _).
  - rewrite checkEnded_kept by done. simpl. apply IH.
Qed.

Lemma offerAll_cons e rest now q :
  exec (offerAll (e :: rest) now) q = exec (offerAll rest now) (exec (addEvent e now) q).
Proof. unfold exec. simpl. unfold mbind, State_bind. by destruct (addEvent e now q). Qed.

Lemma offerAll_guards ended now q :
  postedEvents (exec (offerAll ended now) q) = postedEvents q
  ∧ minDurationMinutes (exec (offerAll ended now) q) = minDurationMinutes q.
Proof.
  revert q. induction ended as [|e rest IH]; intros q; [done|].
  rewrite offerAll_cons. destruct (IH (exec (addEvent e now) q)) as [-> ->].
  by rewrite addEvent_posted, addEvent_minDuration.
Qed.

Lemma refused_ext e q q' :
  postedEvents q' = postedEvents q → minDurationMinutes q' = minDurationMinutes q →
  refused e q' = refused e q.
Proof. unfold refused. by intros -> ->. Qed.

(** What a run of offers leaves in the map. *)
Lemma offerAll_get ended now q k :
  (∀ e, e ∈ ended → id e = k → refused e q = true) →
  JsMap.get k (events (exec (offerAll ended now) q)) = JsMap.get k (events q).
Proof.
  revert q. induction ended as [|e rest IH]; intros q Hk; [done|].
  rewrite offerAll_cons.
  assert (Hg : postedEvents (exec (addEvent e now) q) = postedEvents q
               ∧ minDurationMinutes (exec (addEvent e now) q) = minDurationMinutes q)
    by (by rewrite addEvent_posted, addEvent_minDuration).
  destruct Hg as [Hp Hm].
  rewrite IH.
  - unfold exec. destruct (refused e q) eqn:Hr.
    + by rewrite addEvent_refused.
    + rewrite addEvent_accepted by done. simpl. apply get_set_ne.
      intros Heq. rewrite (Hk e) in Hr; [done| |done]. apply elem_of_cons. by left.
  - intros e' He' Hid. rewrite (refused_ext e' q) by done.
    apply Hk; [|done]. apply elem_of_cons. by right.
Qed.

(** An entry of an id stays, or is replaced by a later event of the id. *)
Lemma offerAll_keeps ended now q k :
  (∃ entry, JsMap.get k (events q) = Some entry ∧ id (entry_event entry) = k
            ∧ js_lt (durationMinutes (entry_event entry)) (minDurationMinutes q)
              = false) →
  ∃ entry, JsMap.get k (events (exec (offerAll ended now) q)) = Some entry
           ∧ id (entry_event entry) = k
           ∧ js_lt (durationMinutes (entry_event entry)) (minDurationMinutes q)
             = false.
Proof.
  revert q. induction ended as [|e1 rest IH]; intros q Hnow; [done|].
  rewrite offerAll_cons.
  rewrite <- (addEvent_minDuration e1 now q). apply IH.
  rewrite addEvent_minDuration.
  destruct Hnow as (entry & Hget & Hid & Hlong).
  unfold exec. destruct (refused e1 q) eqn:Hr1.
  { rewrite addEvent_refused by done. by exists entry. }
  rewrite addEvent_accepted by done. simpl.
  destruct (decide (id e1 = k)) as [Heq|Hne].
  { rewrite Heq, get_set_eq. eexists. split_and!; [done..|]. simpl.
    unfold refused in Hr1. by apply orb_false_iff in Hr1 as [? _]. }
  rewrite get_set_ne by done. by exists entry.
Qed.

Lemma offerAll_has ended now q e :
  e ∈ ended → refused e q = false →
  ∃ entry, JsMap.get (id e) (events (exec (offerAll ended now) q)) = Some entry
           ∧ id (entry_event entry) = id e
           ∧ js_lt (durationMinutes (entry_event entry)) (minDurationMinutes q) = false.
Proof.
  revert q. induction ended as [|e0 rest IH]; intros q Hin Hr.
  - by apply elem_of_nil in Hin.
  - rewrite offerAll_cons.
    assert (Hg : postedEvents (exec (addEvent e0 now) q) = postedEvents q
                 ∧ minDurationMinutes (exec (addEvent e0 now) q) = minDurationMinutes q)
      by (by rewrite addEvent_posted, addEvent_minDuration).
    destruct Hg as [Hp Hm].
    apply elem_of_cons in Hin as [->|Hrest].
    + rewrite <- Hm. apply offerAll_keeps. rewrite Hm.
      unfold exec. rewrite addEvent_accepted by done. simpl.
      rewrite get_set_eq. eexists. split_and!; [done..|].
      simpl. unfold refused in Hr. by apply orb_false_iff in Hr as [? _].
    + destruct (IH (exec (addEvent e0 now) q) Hrest) as (entry & ? & ? & ?).
      { by rewrite (refused_ext e q). }
      exists entry. by rewrite <- Hm.
Qed.
End tracker_more.

(** X10: a call of [processFeatures] ends exactly the events of the company
    that were active before the call and whose site the snapshot does not
    show discharging, be the site missing from it, without id, or reported
    with a status other than 1 (offline included); it ends them in the order
    of the map and removes them from the active events. *)
Theorem X10_processFeatures_ends_unseen_sites (t : EventTracker) (wc : string)
    (fs : list Feature) (now : Z) :
  tracker_ok t → no_colon (companyKeyOf wc) = true →
  let ended := eval (processFeatures wc fs now) t in
  let t' := exec (processFeatures wc fs now) t in
  ended = (λ entry, endEvent entry.2 now)
            <$> filter (λ entry, startsWith entry.1 (companyKeyOf wc +:+ ":") = true
                                 ∧ siteId entry.2 ∉ seenActive fs)
                       (activeEvents t)
  ∧ (∀ e, e ∈ ended → JsMap.get (id e) (activeEvents t') = None)
  ∧ (∀ sid, sid ∈ seenActive fs ↔
            ∃ f, f ∈ fs ∧ Id (attributes f) = Some sid ∧ sid ≠ ""
                 ∧ Status (attributes f) = Some 1).
Proof.
  intros Hok Hc ended t'. subst ended t'.
  assert (Hended : eval (processFeatures wc fs now) t
                   = (λ entry, endEvent entry.2 now)
                       <$> filter (λ entry, hasEnded (companyKeyOf wc) (seenActive fs)
                                                     entry = true)
                                  (activeEvents t)).
  { rewrite processFeatures_ended. unfold afterFeatures.
    by rewrite featureLoop_ended_untouched. }
  split_and!.
  - rewrite Hended. f_equal. apply list_filter_iff. intros [k ev].
    unfold hasEnded. simpl. rewrite andb_true_iff, bool_decide_eq_true. done.
  - intros e. rewrite Hended.
    intros ([k ev] & -> & [Hend Hin]%list_elem_of_filter)%list_elem_of_fmap.
    destruct Hok as [Hwf Hent]. rewrite Forall_forall in Hent.
    destruct (Hent _ Hin) as (Hid & _). simpl in *. rewrite Hid.
    rewrite processFeatures_active by done.
    pose proof (elem_get_wf _ _ _ Hwf Hin) as Hget.
    destruct (featureLoop_lifecycle wc (companyKeyOf wc) now fs ∅ t k ev Hget)
      as (ev1 & Hget1 & Hl).
    eapply get_filter_ended; [by apply featureLoop_wf | exact Hget1 |].
    unfold hasEnded in *. simpl in *.
    destruct Hl as (_ & _ & <- & _). done.
  - intros sid. rewrite elem_of_seenActive.
    split; intros (f & Hf & Hd); exists f; split; try done;
      by apply dischargingSite_Some.
Qed.

Lemma X10_processFeatures_ends_unseen_sites_witness :
  eval (processFeatures "Thames Water" [sampleFeature "TW1" (-1) None] 1060000)
       trackerAfterSkewed
  = [sampleEvent "TW1" 1180000 1060000].
Proof.
  destruct (X10_processFeatures_ends_unseen_sites trackerAfterSkewed
              "Thames Water" [sampleFeature "TW1" (-1) None] 1060000)
    as (H & _).
  - apply processFeatures_ok; [reflexivity | apply tracker_ok_new].
  - reflexivity.
  - rewrite H. reflexivity.
Defined.

(** X11: an event that is active when [processFeatures] is called is either
    still active afterwards, with the same id, company, site, name,
    coordinates and start time and still without end, or it is gone from the
    active events and among the events that the call ended, completed at the
    instant of the call with the start time it had. *)
Theorem X11_active_event_stays_or_ends (t : EventTracker) (wc : string)
    (fs : list Feature) (now : Z) (k : string) (ev : Event) :
  JsMap.wf (activeEvents t) →
  JsMap.get k (activeEvents t) = Some ev →
  let t' := exec (processFeatures wc fs now) t in
  (∃ ev', JsMap.get k (activeEvents t') = Some ev' ∧ sameLifecycle ev ev')
  ∨ (JsMap.get k (activeEvents t') = None
     ∧ ∃ e, e ∈ eval (processFeatures wc fs now) t
            ∧ id e = id ev ∧ waterCompany e = waterCompany ev
            ∧ siteId e = siteId ev ∧ startTime e = startTime ev
            ∧ status e = completed ∧ endTime e = Some now).
Proof.
  intros Hwf Hget t'. subst t'.
  rewrite processFeatures_active, processFeatures_ended by done.
  destruct (featureLoop_lifecycle wc (companyKeyOf wc) now fs ∅ t k ev Hget)
    as (ev1 & Hget1 & Hl). fold (afterFeatures wc fs now t) in Hget1.
  destruct (hasEnded (companyKeyOf wc) (seenActive fs) (k, ev1)) eqn:Hended.
  - right. split.
    + eapply get_filter_ended; [by apply featureLoop_wf|done..].
    + exists (endEvent ev1 now). split.
      * apply (list_elem_of_fmap_2 (λ entry, endEvent entry.2 now) _ (k, ev1)).
        apply list_elem_of_filter. split; [done|]. by apply get_Some_elem.
      * destruct Hl as (? & ? & ? & _ & _ & _ & ? & _). simpl. by split_and!.
  - left. exists ev1. split; [|done]. by apply get_filter_kept.
Qed.

Lemma X11_active_event_stays_or_ends_witness :
  ∃ ev', JsMap.get "thames_water:TW1"
           (activeEvents (exec (processFeatures "Thames Water" skewedSnapshot 1060000)
                               trackerAfterSkewed)) = Some ev'
         ∧ startTime ev' = 1180000.
Proof.
  destruct (X11_active_event_stays_or_ends trackerAfterSkewed "Thames Water"
              skewedSnapshot 1060000 "thames_water:TW1"
              (newEvent "Thames Water" "thames_water:TW1" "TW1"
                        (parseFeature (sampleFeature "TW1" 1 (Some 1180000))) 1000000))
    as [(ev' & Hget & Hl)|[Hnone _]].
  - apply (bool_decide_unpack _). by vm_compute.
  - reflexivity.
  - exists ev'. split; [exact Hget|]. destruct Hl as (_ & _ & _ & _ & _ & _ & <- & _).
    reflexivity.
  - vm_compute in Hnone. discriminate.
Defined.

(** X12: the queue after a call of [processFeatures] is the queue to which
    the ended events were offered in order.  The posted ids and the threshold
    stay; an ended event that passes the guards of [addEvent] has an entry
    under its id afterwards; and an id whose ended events are all refused,
    for being too short or posted, keeps the entry it had, or none. *)
Theorem X12_ended_events_are_offered (t : EventTracker) (wc : string)
    (fs : list Feature) (now : Z) :
  let ended := eval (processFeatures wc fs now) t in
  let q := eventQueue t in
  let q' := eventQueue (exec (processFeatures wc fs now) t) in
  q' = exec (offerAll ended now) q
  ∧ postedEvents q' = postedEvents q
  ∧ minDurationMinutes q' = minDurationMinutes q
  ∧ (∀ e, e ∈ ended → refused e q = false →
          ∃ entry, JsMap.get (id e) (events q') = Some entry
                   ∧ id (entry_event entry) = id e
                   ∧ js_lt (durationMinutes (entry_event entry))
                           (minDurationMinutes q) = false)
  ∧ (∀ k, (∀ e, e ∈ ended → id e = k → refused e q = true) →
          JsMap.get k (events q') = JsMap.get k (events q)).
Proof.
  intros ended q q'.
  assert (Hq : q' = exec (offerAll ended now) q).
  { subst q' ended q. unfold exec at 1, eval. rewrite processFeatures_unfold.
    rewrite endLoop_queue. unfold afterFeatures. by rewrite featureLoop_queue. }
  rewrite Hq. destruct (offerAll_guards ended now q) as [Hp Hm].
  split_and!; [done..| |].
  - intros e He Hr. by apply offerAll_has.
  - intros k Hk. by apply offerAll_get.
Qed.

Section open_entries.
Implicit Types (t : EventTracker).

Lemma featureLoop_open wc ck now fs ids t :
  Forall entry_open (activeEvents t) →
  Forall entry_open (activeEvents (featureLoop wc ck now fs ids t).2).
Proof.
  apply (featureLoop_invariant wc ck now
           (λ t', Forall entry_open (activeEvents t'))).
  clear. intros f ids t Hopen.
  destruct (processFeature_cases wc ck now f ids t)
    as [[_ ->]|(sid & event & _ & Hev & ->)]; [done|].
  simpl. apply Forall_set; [|done].
  destruct Hev as [[_ ->]|(existing & Hget & ->)]; [done|].
  apply get_Some_elem in Hget. rewrite Forall_forall in Hopen.
  by apply Hopen in Hget.
Qed.

Lemma processFeatures_open wc fs now t :
  JsMap.wf (activeEvents t) →
  Forall entry_open (activeEvents t) →
  Forall entry_open (activeEvents (exec (processFeatures wc fs now) t)).
Proof.
  intros Hwf Hopen. rewrite processFeatures_active by done.
  pose proof (featureLoop_open wc (companyKeyOf wc) now fs ∅ t Hopen) as H.
  rewrite Forall_forall in *. intros kv [_ Hin]%list_elem_of_filter. by apply H.
Qed.

Lemma companyLoop_open fetch clock cs t :
  Forall (λ d, no_colon (companyKeyOf (name d)) = true) cs →
  tracker_ok t → Forall entry_open (activeEvents t) →
  Forall entry_open (activeEvents (companyLoop fetch clock cs t).2).
Proof.
  intros Hcs. revert t. induction Hcs as [|c cs Hc _ IH]; intros t Hok Hopen; [done|].
  rewrite companyLoop_cons. simpl.
  apply IH; [by apply checkCompany_ok|].
  destruct (checkCompany_cases fetch clock c t) as [->|[fs ->]]; [done|].
  apply processFeatures_open; [apply Hok | done].
Qed.

Lemma exec_ticks_cons fetch clock l t :
  exec (ticks ((fetch, clock) :: l)) t
  = exec (ticks l) (exec (checkAPI fetch clock) t).
Proof.
  unfold exec. simpl. unfold mbind, State_bind. by destruct (checkAPI _ _ _).
Qed.
End open_entries.

(** X13: whatever the feeds answer, tick after tick, the tracker keeps one
    entry per key at most, and every entry is an event that is active and
    has no end time and no duration, stored under its id, which is the key
    of its company followed by a colon and its site id. *)
Theorem X13_active_events_stay_well_formed
    (l : list ((Company → Fetched) * (Company → Z))) (q : EventQueue) :
  let t := exec (ticks l) (EventTracker_new q) in
  NoDup (JsMap.keys (activeEvents t))
  ∧ ∀ k ev, (k, ev) ∈ activeEvents t →
            JsMap.get k (activeEvents t) = Some ev
            ∧ id ev = k ∧ status ev = active
            ∧ endTime ev = None ∧ durationMinutes ev = None
            ∧ k = companyKeyOf (waterCompany ev) +:+ ":" +:+ siteId ev.
Proof.
  intros t. subst t.
  assert (H : ∀ t, tracker_ok t → Forall entry_open (activeEvents t) →
              tracker_ok (exec (ticks l) t)
              ∧ Forall entry_open (activeEvents (exec (ticks l) t))).
  { induction l as [|[fetch clock] l IH]; intros t Hok Hopen; [done|].
    rewrite exec_ticks_cons. apply IH; [by apply checkAPI_ok|].
    by apply companyLoop_open; [apply companies_colon_free|..]. }
  destruct (H (EventTracker_new q)) as [[Hwf Hent] Hopen];
    [apply tracker_ok_new | constructor |].
  split; [done|]. intros k ev Hin.
  rewrite Forall_forall in Hent, Hopen.
  destruct (Hent _ Hin) as (? & ? & ? & _), (Hopen _ Hin) as [? ?].
  split_and!; try done. by apply elem_get_wf.
Qed.

(** * The store *)

Section store.
Implicit Types (d : EventDatabase) (event : Event) (r : DbRecord)
  (l : list DbRecord).

Lemma findIndex_None {A} (p : A → bool) (l : list A) :
  findIndex p l = None ↔ Forall (λ x, p x = false) l.
Proof.
  induction l as [|x l IH]; simpl; [by split; [constructor|]|].
  rewrite Forall_cons. destruct (p x); [by split; [|intros []]|].
  rewrite <- IH. destruct (findIndex p l); simpl; naive_solver.
Qed.

Lemma findIndex_Some {A} (p : A → bool) (l : list A) i :
  findIndex p l = Some i →
  ∃ x, l !! i = Some x ∧ p x = true
       ∧ Forall (λ y, p y = false) (take i l).
Proof.
  revert i. induction l as [|x l IH]; intros i; simpl; [done|].
  destruct (p x) eqn:Hx.
  - intros [= <-]. exists x. by repeat split.
  - destruct (findIndex p l) as [j|]; simpl; [|done]. intros [= <-].
    destruct (IH j eq_refl) as (y & ? & ? & ?). exists y. split_and!; [done..|].
    simpl. by constructor.
Qed.

(** The two ways of [upsertEvent]: the first matching record is replaced,
    keeping its id, or a record with the next id is appended. *)
Lemma upsertEvent_cases event now d :
  (∃ l1 old l2,
      data_events d = l1 ++ old :: l2
      ∧ Forall (λ r, ¬ matches event r) l1 ∧ matches event old
      ∧ upsertEvent event now d
        = (db_id old,
           {| data_events := l1 ++ recordOf event now (db_id old) :: l2;
              nextId := nextId d |}))
  ∨ (Forall (λ r, ¬ matches event r) (data_events d)
     ∧ upsertEvent event now d
       = (nextId d,
          {| data_events := data_events d ++ [recordOf event now (nextId d)];
             nextId := nextId d + 1 |})).
Proof.
  unfold upsertEvent.
  set (p := λ e : DbRecord, bool_decide _).
  destruct (findIndex p (data_events d)) as [i|] eqn:Hfind.
  - left. destruct (findIndex_Some _ _ _ Hfind) as (old & Hi & Hp & Hbefore).
    exists (take i (data_events d)), old, (drop (S i) (data_events d)).
    split_and!.
    + by rewrite <- (take_drop_middle _ _ _ Hi) at 1.
    + eapply Forall_impl; [exact Hbefore|]. intros r Hr Hm. subst p. simpl in Hr.
      by rewrite bool_decide_eq_true_2 in Hr.
    + subst p. simpl in Hp. by apply bool_decide_eq_true in Hp.
    + simpl. rewrite Hi. simpl. f_equal. f_equal.
      rewrite <- (take_drop_middle _ _ _ Hi) at 1.
      rewrite insert_app_r_alt by (rewrite length_take; lia).
      rewrite length_take. apply lookup_lt_Some in Hi.
      replace (i - i `min` length (data_events d))%nat with 0%nat by lia. done.
  - right. apply findIndex_None in Hfind. split.
    + eapply Forall_impl; [exact Hfind|]. intros r Hr Hm. subst p. simpl in Hr.
      by rewrite bool_decide_eq_true_2 in Hr.
    + done.
Qed.

Lemma filter_none {A} (P : A → Prop) `{!∀ x, Decision (P x)} (l : list A) :
  Forall (λ x, ¬ P x) l → filter P l = [].
Proof.
  induction 1 as [|x l Hx _ IH]; [done|]. by rewrite filter_cons_False.
Qed.
End store.

Section store_lookup.
Implicit Types (d : EventDatabase) (event : Event).

Lemma getEvent_upsert_same event now d :
  getEvent (waterCompany event) (siteId event) (startTime event)
           (exec (upsertEvent event now) d)
  = Some (recordOf event now (eval (upsertEvent event now) d)).
Proof.
  unfold eval, exec, getEvent.
  assert (Hself : ∀ i, matches event (recordOf event now i)) by done.
  destruct (upsertEvent_cases event now d)
    as [(l1 & old & l2 & Hd & Hl1 & Hold & ->)|[Hnone ->]]; simpl.
  - rewrite filter_app, filter_none, filter_cons_True by done. done.
  - rewrite filter_app, filter_none, filter_cons_True by done. done.
Qed.

Lemma getEvent_upsert_other event now d wc sid st :
  (wc, sid, st) ≠ (waterCompany event, siteId event, startTime event) →
  getEvent wc sid st (exec (upsertEvent event now) d) = getEvent wc sid st d.
Proof.
  intros Hne. unfold exec, getEvent.
  assert (Hother : ∀ r, matches event r → ¬ sameRecord wc sid st r).
  { intros r (H1 & H2 & H3) (H4 & H5 & H6). apply Hne. congruence. }
  destruct (upsertEvent_cases event now d)
    as [(l1 & old & l2 & Hd & Hl1 & Hold & ->)|[Hnone ->]]; simpl.
  - rewrite Hd, !filter_app, !(filter_cons_False _ _ l2); [done|..];
      by apply Hother.
  - rewrite filter_app, (filter_cons_False _ _ []); [by rewrite app_nil_r|].
    by apply Hother.
Qed.
End store_lookup.

(** X14: [getEvent] after [upsertEvent] returns the record just written:
    the fields of the event, with [null] in place of an end time or a
    duration of zero and of an empty name, under the id that [upsertEvent]
    returned, which is the id of the record it replaced or else the next
    free id.  The records of other keys are found as before. *)
Theorem X14_upsert_then_getEvent (event : Event) (now : Z) (d : EventDatabase) :
  let d' := exec (upsertEvent event now) d in
  let id' := eval (upsertEvent event now) d in
  getEvent (waterCompany event) (siteId event) (startTime event) d'
  = Some (recordOf event now id')
  ∧ db_durationMinutes (recordOf event now id')
    = match durationMinutes event with
      | Some 0 => None
      | duration => duration
      end
  ∧ match getEvent (waterCompany event) (siteId event) (startTime event) d with
    | Some old =>
        id' = db_id old ∧ nextId d' = nextId d
        ∧ length (data_events d') = length (data_events d)
    | None =>
        id' = nextId d ∧ nextId d' = nextId d + 1
        ∧ data_events d' = data_events d ++ [recordOf event now id']
    end
  ∧ (∀ wc sid st,
       (wc, sid, st) ≠ (waterCompany event, siteId event, startTime event) →
       getEvent wc sid st d' = getEvent wc sid st d).
Proof.
  intros d' id'. subst d' id'.
  split_and!.
  - apply getEvent_upsert_same.
  - simpl. unfold or_null_num, or_num, truthy_num.
    destruct (durationMinutes event) as [[| |]|]; done.
  - unfold eval, exec, getEvent.
    destruct (upsertEvent_cases event now d)
      as [(l1 & old & l2 & Hd & Hl1 & Hold & ->)|[Hnone ->]]; simpl.
    + rewrite Hd, filter_app, filter_none, filter_cons_True by done. simpl.
      split_and!; [done..|]. rewrite !length_app. done.
    + by rewrite filter_none.
  - intros wc sid st Hne. by apply getEvent_upsert_other.
Qed.

Section store_invariant.
Implicit Types (d : EventDatabase).

Lemma db_ok_upsert event now d : db_ok d → db_ok (exec (upsertEvent event now) d).
Proof.
  intros (Hids & Hbound & Hkeys). unfold exec.
  destruct (upsertEvent_cases event now d)
    as [(l1 & old & l2 & Hd & Hl1 & Hold & ->)|[Hnone ->]]; cbn [fst snd].
  - assert (Hk : recordKey (recordOf event now (db_id old)) = recordKey old).
    { destruct Hold as (H1 & H2 & H3). unfold recordKey. simpl. congruence. }
    unfold db_ok. cbn [data_events nextId]. rewrite Hd in Hids, Hbound, Hkeys.
    rewrite !fmap_app, !fmap_cons in *. rewrite Hk. split_and!; [done| |done].
    apply Forall_app in Hbound as [H1 [H2 H3]%Forall_cons].
    apply Forall_app. split; [done|]. by apply Forall_cons.
  - unfold db_ok. cbn [data_events nextId]. rewrite !fmap_app. csimpl. split_and!.
    + apply NoDup_app. split_and!; [done| |apply NoDup_singleton].
      intros x (r & -> & Hr)%list_elem_of_fmap Heq%list_elem_of_singleton.
      rewrite Forall_forall in Hbound. specialize (Hbound r Hr).
      simpl in Heq. lia.
    + rewrite Forall_app, Forall_singleton. split; [|simpl; lia].
      eapply Forall_impl; [exact Hbound|]. intros r Hr. simpl in *. lia.
    + apply NoDup_app. split_and!; [done| |apply NoDup_singleton].
      intros x (r & -> & Hr)%list_elem_of_fmap Heq%list_elem_of_singleton.
      rewrite Forall_forall in Hnone. apply (Hnone r Hr).
      unfold recordKey in Heq. simpl in Heq. injection Heq as H1 H2 H3.
      by split_and!.
Qed.

Lemma exec_upsertAll_cons event now l d :
  exec (upsertAll ((event, now) :: l)) d
  = exec (upsertAll l) (exec (upsertEvent event now) d).
Proof.
  unfold exec. simpl. unfold mbind, State_bind. by destruct (upsertEvent _ _ _).
Qed.

Lemma db_ok_upsertAll l d : db_ok d → db_ok (exec (upsertAll l) d).
Proof.
  revert d. induction l as [|[event now] l IH]; intros d Hd; [done|].
  rewrite exec_upsertAll_cons. by apply IH, db_ok_upsert.
Qed.
End store_invariant.

(** X15: in a store that starts empty, whatever is upserted, the ids of the
    records are distinct, positive and below [nextId], and no two records
    have the same company, site and start time; the records are as many as
    the ids given out. *)
Theorem X15_store_ids_are_unique (l : list (Event * Z)) :
  let d := exec (upsertAll l) EventDatabase_new in
  NoDup (db_id <$> data_events d)
  ∧ NoDup (recordKey <$> data_events d)
  ∧ (∀ r, r ∈ data_events d → 1 ≤ db_id r < nextId d)
  ∧ Z.of_nat (length (data_events d)) = nextId d - 1.
Proof.
  intros d. subst d.
  assert (H : ∀ d, db_ok d →
              Forall (λ r, 1 ≤ db_id r) (data_events d) → 1 ≤ nextId d →
              Z.of_nat (length (data_events d)) = nextId d - 1 →
              Forall (λ r, 1 ≤ db_id r) (data_events (exec (upsertAll l) d))
              ∧ 1 ≤ nextId (exec (upsertAll l) d)
              ∧ Z.of_nat (length (data_events (exec (upsertAll l) d)))
                = nextId (exec (upsertAll l) d) - 1).
  { induction l as [|[event now] l IH]; intros d Hok Hpos Hnext Hlen; [done|].
    rewrite exec_upsertAll_cons.
    apply IH; [by apply db_ok_upsert|..]; unfold exec;
      destruct (upsertEvent_cases event now d)
        as [(l1 & old & l2 & Hd & Hl1 & Hold & ->)|[Hnone ->]]; simpl;
      rewrite ?Hd in *; rewrite ?Forall_app, ?Forall_cons, ?length_app in *;
      simpl in *; try lia; naive_solver. }
  destruct (H EventDatabase_new) as (Hpos & _ & Hlen);
    [by repeat split; constructor | constructor | done | done |].
  destruct (db_ok_upsertAll l EventDatabase_new) as (Hids & Hbound & Hkeys);
    [by repeat split; constructor|].
  split_and!; [done..| |done].
  intros r Hr. rewrite Forall_forall in Hpos, Hbound. split; auto.
Qed.

Section persisted.
Implicit Types (t : EventTracker) (d : EventDatabase).

(** What the second loop does to the store. *)
Lemma endLoop_db ck now A entries t :
  db (endLoop ck now A entries t).2
  = exec (upsertAll ((λ e, (e, now)) <$> (endLoop ck now A entries t).1)) (db t).
Proof.
  revert t. induction entries as [|[k ev] entries IH]; intros t; [done|].
  rewrite endLoop_cons. cbn [fst snd].
  destruct (hasEnded ck A (k, ev)) eqn:Hended.
  - rewrite checkEnded_ended by done. cbn [fst snd]. rewrite IH.
    cbn [db app fmap list_fmap]. by rewrite exec_upsertAll_cons.
  - rewrite checkEnded_kept by done. cbn [fst snd app]. apply IH.
Qed.

Lemma upsertAll_get (l : list Event) now d e :
  NoDup (eventKey3 <$> l) → e ∈ l →
  ∃ i, getEvent (waterCompany e) (siteId e) (startTime e)
                (exec (upsertAll ((λ e, (e, now)) <$> l)) d)
       = Some (recordOf e now i).
Proof.
  revert d. induction l as [|e0 l IH]; intros d Hnd Hin.
  - by apply elem_of_nil in Hin.
  - rewrite fmap_cons in Hnd. apply NoDup_cons in Hnd as [Hnotin Hnd].
    rewrite fmap_cons, exec_upsertAll_cons.
    apply elem_of_cons in Hin as [->|Hin]; [|by apply IH].
    clear IH. exists (eval (upsertEvent e0 now) d).
    rewrite <- (getEvent_upsert_same e0 now d).
    generalize (exec (upsertEvent e0 now) d). clear d.
    induction l as [|e1 l IH]; intros d; [done|].
    rewrite fmap_cons in Hnotin, Hnd.
    apply not_elem_of_cons in Hnotin as [Hne Hnotin].
    apply NoDup_cons in Hnd as [_ Hnd].
    rewrite fmap_cons, exec_upsertAll_cons, IH by done.
    by apply getEvent_upsert_other.
Qed.
End persisted.

(** X16: every event that [processFeatures] ends is in the store
    afterwards, under its company, site and start time, as a completed
    record with the end time and the duration of the event ([null] when they
    are zero). *)
Theorem X16_ended_events_are_stored (t : EventTracker) (wc : string)
    (fs : list Feature) (now : Z) (e : Event) :
  tracker_ok t → no_colon (companyKeyOf wc) = true →
  e ∈ eval (processFeatures wc fs now) t →
  ∃ r, getEvent (waterCompany e) (siteId e) (startTime e)
                (db (exec (processFeatures wc fs now) t)) = Some r
       ∧ db_status r = completed
       ∧ db_endTime r = (if now =? 0 then None else Some now)
       ∧ db_durationMinutes r
         = match durationMinutes e with Some 0 => None | duration => duration end.
Proof.
  intros Hok Hc He.
  assert (Hok' : tracker_ok (afterFeatures wc fs now t)) by (by apply featureLoop_ok).
  assert (Hnd : NoDup (eventKey3 <$> eval (processFeatures wc fs now) t)).
  { rewrite processFeatures_ended.
    apply (NoDup_fmap_1 (λ '(w, s, _), eventKeyOf (companyKeyOf w) s)).
    rewrite <- !list_fmap_compose.
    destruct Hok' as [Hwf Hent].
    set (m := activeEvents (afterFeatures wc fs now t)) in *.
    assert (Heq : ((λ '(w, s, _), eventKeyOf (companyKeyOf w) s) ∘ eventKey3
                     ∘ (λ entry : string * Event, endEvent entry.2 now))
                    <$> filter (λ entry, hasEnded (companyKeyOf wc) (seenActive fs)
                                                  entry = true) m
                  = (filter (λ entry, hasEnded (companyKeyOf wc) (seenActive fs)
                                               entry = true) m).*1).
    { apply list_fmap_ext. intros i [k ev] Hi. simpl.
      apply list_elem_of_lookup_2, list_elem_of_filter in Hi as [_ Hin].
      rewrite Forall_forall in Hent.
      destruct (Hent _ Hin) as (_ & _ & Hkey & _). simpl in Hkey. by symmetry. }
    rewrite Heq. eapply sublist_NoDup; [exact Hwf|].
    apply fmap_sublist, sublist_filter. }
  destruct (upsertAll_get _ now (db (afterFeatures wc fs now t)) e Hnd He)
    as [i Hget].
  exists (recordOf e now i). split.
  - unfold exec at 1. rewrite processFeatures_unfold, endLoop_db.
    unfold eval in Hget. by rewrite processFeatures_unfold in Hget.
  - rewrite processFeatures_ended in He.
    apply list_elem_of_fmap in He as ([k ev] & -> & _). simpl.
    split_and!; try done.
    + unfold or_null_num, or_num, truthy_num. by destruct (now =? 0).
    + unfold or_null_num, or_num, truthy_num.
      by destruct (Math_round_div _ _).
Qed.

Lemma X16_ended_events_are_stored_witness :
  ∃ r, getEvent "Thames Water" "TW1" 1180000
         (db (exec (processFeatures "Thames Water" stoppedSnapshot 1060000)
                   trackerAfterSkewed)) = Some r
       ∧ db_status r = completed.
Proof.
  destruct (X16_ended_events_are_stored trackerAfterSkewed "Thames Water"
              stoppedSnapshot 1060000 (sampleEvent "TW1" 1180000 1060000))
    as (r & Hget & Hst & _).
  - apply processFeatures_ok; [reflexivity | apply tracker_ok_new].
  - reflexivity.
  - vm_compute. apply elem_of_cons. by left.
  - exists r. split; [exact Hget | exact Hst].
Defined.

Section descending.
Context {A : Type} (key : A → Z).

Lemma sort_insert_desc_HdRel x y l :
  key x ≤ key y → HdRel (λ a b, key b ≤ key a) y l →
  HdRel (λ a b, key b ≤ key a) y (sort_insert (descendingBy key) x l).
Proof.
  intros Hyx Hhd. destruct l as [|z l]; simpl; [by constructor|].
  destruct (descendingBy key z x <? 0); constructor; [by inversion Hhd|done].
Qed.

Lemma Array_sort_desc_Sorted l :
  Sorted (λ a b, key b ≤ key a) (Array_sort (descendingBy key) l).
Proof.
  induction l as [|x l IH]; simpl; [constructor|].
  induction IH as [|y l' Hs IH' Hhd]; simpl; [by repeat constructor|].
  destruct (Z.ltb_spec (descendingBy key y x) 0) as [Hlt|Hge].
  - constructor; [done|]. apply sort_insert_desc_HdRel; [|done].
    unfold descendingBy in *. lia.
  - constructor; [by constructor|]. constructor.
    unfold descendingBy in *. lia.
Qed.

Lemma Array_sort_desc_StronglySorted l :
  StronglySorted (λ a b, key b ≤ key a) (Array_sort (descendingBy key) l).
Proof.
  apply Sorted_StronglySorted; [|apply Array_sort_desc_Sorted].
  intros a b c. lia.
Qed.
End descending.

(** X17: the queries of the store return the records they select, each as
    often as the store holds it, newest first: [getRecentlyCompletedEvents]
    the completed records whose end time is a number other than zero and
    later than the cutoff, by descending end time; [getActiveEvents] the
    active records and [getEventsByCompany] those of the company, by
    descending start time. *)
Theorem X17_store_queries_newest_first (hoursAgo now : Z) (wc : string)
    (d : EventDatabase) :
  let recent := getRecentlyCompletedEvents hoursAgo now d in
  (∀ r, r ∈ recent ↔
        r ∈ data_events d ∧ db_status r = completed
        ∧ ∃ ended, db_endTime r = Some ended ∧ ended ≠ 0
                   ∧ now - hoursAgo * 3600000 < ended)
  ∧ StronglySorted (λ a b, getTime (db_endTime b) ≤ getTime (db_endTime a)) recent
  ∧ recent ≡ₚ filter (λ e, db_status e = completed
                           ∧ truthy_num (db_endTime e) = true
                           ∧ now - hoursAgo * 60 * 60 * 1000 < getTime (db_endTime e))
                     (data_events d)
  ∧ (∀ r, r ∈ getActiveEvents d ↔ r ∈ data_events d ∧ db_status r = active)
  ∧ StronglySorted (λ a b, db_startTime b ≤ db_startTime a) (getActiveEvents d)
  ∧ (∀ r, r ∈ getEventsByCompany wc d ↔ r ∈ data_events d ∧ db_waterCompany r = wc)
  ∧ StronglySorted (λ a b, db_startTime b ≤ db_startTime a) (getEventsByCompany wc d)
  ∧ getActiveEvents d ≡ₚ filter (λ e, db_status e = active) (data_events d)
  ∧ getEventsByCompany wc d ≡ₚ filter (λ e, db_waterCompany e = wc) (data_events d).
Proof.
  intros recent. subst recent.
  unfold getRecentlyCompletedEvents, getActiveEvents, getEventsByCompany.
  split_and!.
  - intros r. rewrite Array_sort_perm, list_elem_of_filter.
    unfold truthy_num, getTime. split.
    + intros [(Hst & Htr & Hcut) Hin]. split_and!; [done..|].
      destruct (db_endTime r) as [ended|]; [|done]. exists ended.
      split_and!; [done| |lia]. intros ->. done.
    + intros (Hin & Hst & ended & -> & Hne & Hcut). split_and!; [done| |lia|done].
      by apply negb_true_iff, Z.eqb_neq.
  - apply (Array_sort_desc_StronglySorted (λ e, getTime (db_endTime e))).
  - apply Array_sort_perm.
  - intros r. rewrite Array_sort_perm, list_elem_of_filter. tauto.
  - apply (Array_sort_desc_StronglySorted db_startTime).
  - intros r. rewrite Array_sort_perm, list_elem_of_filter. tauto.
  - apply (Array_sort_desc_StronglySorted db_startTime).
  - apply Array_sort_perm.
  - apply Array_sort_perm.
Qed.

(** * The fixed schedule *)

Section fixed_schedule.
Import FixedScheduler.

(** The first multiple of 90 after [c] among [k * 90, (k + 1) * 90, ...],
    when the multiple before [k * 90] is not after [c]. *)
Lemma head_later_times (c : Z) (n : nat) (k : Z) :
  90 * k - 90 ≤ c →
  head (filter (λ postTime, postTime > c)
               ((λ i, i * 90) <$> seqZ k (Z.of_nat n)))
  = if decide (c < 90 * (k + Z.of_nat n - 1))
    then Some (90 * (c `div` 90 + 1)) else None.
Proof.
  revert k. induction n as [|n IH]; intros k Hk.
  - simpl. case_decide; [lia|done].
  - rewrite seqZ_cons by lia. rewrite fmap_cons, filter_cons.
    replace (Z.pred (Z.of_nat (S n))) with (Z.of_nat n) by lia.
    case_decide as Hgt.
    + simpl. rewrite decide_True by lia. f_equal.
      assert (c `div` 90 = k - 1) as ->; [|lia].
      symmetry. apply Z.div_unique with (c - 90 * (k - 1)); lia.
    + rewrite IH by lia.
      destruct (decide (c < 90 * (Z.succ k + Z.of_nat n - 1)));
        [rewrite decide_True by lia | rewrite decide_False by lia]; done.
Qed.

Lemma getNextScheduledTime_formula (c : Z) :
  0 ≤ c →
  getNextScheduledTime c
  = if decide (c < 1350) then Some (90 * (c `div` 90 + 1)) else None.
Proof.
  intros Hc. unfold getNextScheduledTime, postingTimes.
  change (seqZ 0 16) with (seqZ 0 (Z.of_nat 16)).
  rewrite (head_later_times c 16 0) by lia.
  destruct (decide (c < 1350));
    [rewrite decide_True by lia | rewrite decide_False by lia]; done.
Qed.

Lemma currentMinutes_of_clock (now : Z) :
  getHours now * 60 + getMinutes now = now `div` 60000.
Proof.
  unfold getHours, getMinutes.
  replace 3600000 with (60000 * 60) by lia.
  rewrite <- Z.div_div by lia.
  pose proof (Z.div_mod (now `div` 60000) 60 ltac:(lia)). lia.
Qed.
End fixed_schedule.

(** X18: at every time of day the fixed-schedule scheduler aims at the next
    multiple of ninety minutes after local midnight, midnight of the next
    day included: at a posting time itself it aims at the following one, the
    wait is more than nothing and at most ninety minutes, and reading the
    clock later only shortens it. *)
Theorem X18_next_post_is_the_next_multiple_of_90_minutes (now later : Z) :
  0 ≤ now < 86400000 → now ≤ later →
  FixedScheduler.nextScheduledDate now = 5400000 * (now `div` 5400000 + 1)
  ∧ 0 < FixedScheduler.getMsUntilNextPost now now ≤ 5400000
  ∧ FixedScheduler.getMsUntilNextPost now later ≤ 5400000.
Proof.
  intros Hnow Hlater.
  assert (Hnext : FixedScheduler.nextScheduledDate now
                  = 5400000 * (now `div` 5400000 + 1)).
  { unfold FixedScheduler.nextScheduledDate.
    rewrite currentMinutes_of_clock.
    assert (0 ≤ now `div` 60000 < 1440) as Hc.
    { split; [apply Z.div_pos; lia|]. apply Z.div_lt_upper_bound; lia. }
    rewrite getNextScheduledTime_formula by lia.
    assert (Hq : now `div` 5400000 = (now `div` 60000) `div` 90).
    { rewrite Z.div_div by lia. done. }
    pose proof (Z.div_mod (now `div` 60000) 90 ltac:(lia)) as Hdm.
    pose proof (Z.mod_pos_bound (now `div` 60000) 90 ltac:(lia)) as Hmb.
    assert (0 ≤ (now `div` 60000) `div` 90) by (apply Z.div_pos; lia).
    case_decide as Hlt.
    - cbv zeta. set (p := 90 * ((now `div` 60000) `div` 90 + 1)).
      assert (0 ≤ p) by (unfold p; lia).
      rewrite Z.rem_mod_nonneg by lia.
      pose proof (Z.div_mod p 60 ltac:(lia)). rewrite Hq. unfold p in *. lia.
    - rewrite Hq.
      assert ((now `div` 60000) `div` 90 = 15) as ->; [|done].
      symmetry. apply Z.div_unique with (now `div` 60000 - 1350); lia. }
  unfold FixedScheduler.getMsUntilNextPost. rewrite Hnext.
  pose proof (Z.div_mod now 5400000 ltac:(lia)).
  pose proof (Z.mod_pos_bound now 5400000 ltac:(lia)).
  split_and!; [done|lia..].
Qed.

Lemma X18_next_post_is_the_next_multiple_of_90_minutes_witness :
  FixedScheduler.nextScheduledDate 5400000 = 10800000
  ∧ FixedScheduler.nextScheduledDate 86399999 = 86400000.
Proof.
  destruct (X18_next_post_is_the_next_multiple_of_90_minutes 5400000 5400000)
    as (H1 & _); [lia..|].
  destruct (X18_next_post_is_the_next_multiple_of_90_minutes 86399999 86399999)
    as (H2 & _); [lia..|].
  split; [rewrite H1 | rewrite H2]; reflexivity.
Defined.

(** * The tweet and the manifest *)

(** X19: a configured poster never sends more than 280 code units: a text
    of at most 280 goes out as it is, a longer one as its first 277 code
    units followed by three dots; a poster that is not configured sends
    nothing and throws. *)
Theorem X19_tweet_is_at_most_280_code_units {R : Type}
    (client_tweet : JsString → R) (text : JsString) :
  (∃ sent, TwitterPoster_tweet true client_tweet text = Some (client_tweet sent)
           ∧ (length sent ≤ 280)%nat
           ∧ ((length text ≤ 280)%nat → sent = text)
           ∧ ((280 < length text)%nat →
              length sent = 280%nat ∧ take 277 sent = take 277 text
              ∧ drop 277 sent = ellipsis))
  ∧ TwitterPoster_tweet false client_tweet text = None.
Proof.
  split; [|done]. unfold TwitterPoster_tweet.
  destruct (Nat.ltb_spec 280 (length text)) as [Hlong|Hshort].
  - exists (take 277 text ++ ellipsis). split; [done|].
    assert (Hlen : length (take 277 text) = 277%nat)
      by (rewrite length_take; lia).
    rewrite length_app, Hlen. split_and!; [simpl; lia|lia|].
    intros _. split_and!; [done| |].
    + rewrite take_app_le by lia. rewrite take_take. done.
    + rewrite drop_app_ge by lia. by rewrite Hlen.
  - exists text. split_and!; [done..|lia].
Qed.

Section manifest.
Lemma take_cons_take {A} (n : nat) (x : A) (l : list A) :
  take n (x :: take n l) = take n (x :: l).
Proof.
  destruct n as [|n]; [done|]. simpl. f_equal.
  rewrite take_take. f_equal. lia.
Qed.

Lemma updateManifests_snoc published name now file :
  updateManifests (published ++ [(name, now)]) file
  = updateManifest name now (updateManifests published file).
Proof. unfold updateManifests. by rewrite foldl_app. Qed.

End manifest.

(** X20: after any number of published cycles the manifest lists the file
    names newest first, the last one published at its head, followed by what
    the manifest held before, cut to the first hundred; it never holds more
    than a hundred names, and it carries the instant of the last update. *)
Theorem X20_manifest_keeps_the_newest_hundred (published : list (string * Z))
    (name : string) (now : Z) (file : option Manifest) :
  ∃ manifest,
    updateManifests (published ++ [(name, now)]) file = Some manifest
    ∧ manifest_cycles manifest
      = take 100 (name :: reverse published.*1
                  ++ manifest_cycles
                       (default {| manifest_cycles := [];
                                   manifest_lastUpdated := None |} file))
    ∧ (length (manifest_cycles manifest) ≤ 100)%nat
    ∧ manifest_lastUpdated manifest = Some now.
Proof.
  revert name now.
  induction published as [|[name' now'] published IH] using rev_ind;
    intros name now.
  - eexists. split; [done|]. split_and!; [done| |done].
    cbn [manifest_cycles]. rewrite length_take. lia.
  - destruct (IH name' now') as (m & Hm & Hcycles & _ & _).
    rewrite updateManifests_snoc, Hm. unfold updateManifest. cbn [default].
    eexists. split; [done|]. cbn [manifest_cycles manifest_lastUpdated].
    split_and!; [| |done].
    + change (Datatypes.id m) with m.
      rewrite Hcycles, take_cons_take, fmap_app, reverse_app. done.
    + rewrite length_take. lia.
Qed.

(** * The summary *)

Section longest.
Implicit Types (e cur : QueueEntry) (rest before after : list QueueEntry).

Lemma foldl_longest rest before after cur :
  Forall (λ e, default 0 (durationMinutes (entry_event e))
               < default 0 (durationMinutes (entry_event cur))) before →
  Forall (λ e, default 0 (durationMinutes (entry_event e))
               ≤ default 0 (durationMinutes (entry_event cur))) after →
  ∃ before' after',
    let longest :=
      foldl (λ longest e,
               if js_gt (durationMinutes (entry_event e))
                        (durationMinutes (entry_event longest))
               then e else longest) cur rest in
    before ++ cur :: after ++ rest = before' ++ longest :: after'
    ∧ Forall (λ e, default 0 (durationMinutes (entry_event e))
                   < default 0 (durationMinutes (entry_event longest))) before'
    ∧ Forall (λ e, default 0 (durationMinutes (entry_event e))
                   ≤ default 0 (durationMinutes (entry_event longest))) after'.
Proof.
  revert before after cur.
  induction rest as [|e rest IH]; intros before after cur Hb Ha.
  - exists before, after. simpl. by rewrite app_nil_r.
  - simpl.
    destruct (js_gt (durationMinutes (entry_event e))
                    (durationMinutes (entry_event cur))) eqn:Hgt;
      unfold js_gt in Hgt;
      [apply Z.ltb_lt in Hgt as Hlt | apply Z.ltb_ge in Hgt as Hge].
    + destruct (IH (before ++ cur :: after) [] e) as (b' & a' & Heq & Hb' & Ha').
      * apply Forall_app. split.
        -- eapply List.Forall_impl; [|exact Hb]. intros x Hx. simpl in Hx. lia.
        -- apply Forall_cons. split; [exact Hlt|].
           eapply List.Forall_impl; [|exact Ha]. intros x Hx. simpl in Hx. lia.
      * constructor.
      * exists b', a'. split; [|done]. rewrite <- Heq.
        by rewrite <- !app_assoc.
    + destruct (IH before (after ++ [e]) cur) as (b' & a' & Heq & Hb' & Ha').
      * done.
      * apply Forall_app. split; [done|]. by repeat constructor.
      * exists b', a'. split; [|done]. rewrite <- Heq.
        by rewrite <- !app_assoc.
Qed.
End longest.

(** X21: the event that the summary names as the longest is one of the
    events of the cycle, no other event lasted longer, and among events of
    the same duration it is the first; [reduce] fails only when there is no
    event at all. *)
Theorem X21_longestEvent_is_first_of_the_longest (events : list QueueEntry) :
  match longestEvent events with
  | None => events = []
  | Some longest =>
      ∃ before after,
        events = before ++ longest :: after
        ∧ Forall (λ e, default 0 (durationMinutes (entry_event e))
                       < default 0 (durationMinutes (entry_event longest))) before
        ∧ Forall (λ e, default 0 (durationMinutes (entry_event e))
                       ≤ default 0 (durationMinutes (entry_event longest))) after
  end.
Proof.
  destruct events as [|first rest]; [done|]. unfold longestEvent.
  destruct (foldl_longest rest [] [] first) as (b & a & Heq & Hb & Ha);
    [constructor..|].
  exists b, a. done.
Qed.
